(** * fastmap: a dense Robin Hood hash map (fastmap.h)

    Shallow embedding of the C header [fastmap.h] and proofs of the
    properties its specification states.

    Conventions of the embedding.
    - [size_t] and [uint64_t] values are integers in [Z] reduced with
      [wrap64]; [uint32_t] values are reduced with [wrap32].
    - A pointer to caller memory ([const void* key]) is the list of bytes
      found at that address.  Reading past the end of that list is undefined
      in C; the model reads zero bytes there.
    - An [fm_vector] is an array of [capacity] cells of [stride] bytes.
    - Every [while (true)] loop takes a fuel argument; [None] means that the
      fuel ran out or that the C code would have read or written outside an
      allocation.  Allocation always succeeds.
    - The host is little-endian and defines [__SIZEOF_INT128__]; [float]
      expressions are evaluated in IEEE-754 binary32. *)

From Stdlib Require Import ZArith Lia Bool.
From Stdlib Require Import Strings.Byte.
From Stdlib Require Import Floats.SpecFloat.
From stdpp Require Import base tactics option numbers list.

#[local] Open Scope Z_scope.

(** ** Machine integers *)

Definition wrap64 (x : Z) : Z := x mod 2 ^ 64.
Definition wrap32 (x : Z) : Z := x mod 2 ^ 32.

#[global] Instance byte_eq_dec : EqDecision byte := Byte.byte_eq_dec.

Definition byte_val (b : byte) : Z := Z.of_N (Byte.to_N b).

Definition byte_of_Z (z : Z) : byte :=
  match Byte.of_N (Z.to_N (z mod 256)) with
  | Some b => b
  | None => x00
  end.

(** [p[i]] for a pointer [p] to bytes. *)
Definition byte_at (p : list byte) (i : nat) : Z :=
  match p !! i with
  | Some b => byte_val b
  | None => 0
  end.

(** The [n] bytes a [memcpy] or [memcmp] of size [n] reads at [p]. *)
Definition read_bytes (p : list byte) (n : Z) : list byte :=
  take (Z.to_nat n) (p ++ replicate (Z.to_nat n) x00).

(** [memcmp(a, b, n) == 0] *)
Definition memcmp_eq (a b : list byte) (n : Z) : bool :=
  bool_decide (read_bytes a n = read_bytes b n).

(** [memcpy(dst, src, n)] where [dst] is a cell of a vector. *)
Definition memcpy (dst src : list byte) (n : Z) : list byte :=
  read_bytes src n ++ drop (Z.to_nat n) dst.

(** [uint64_t v; memcpy(&v, p, 8);] on a little-endian host: byte [i] of
    the object has weight [256 ^ i]. *)
Definition load64 (p : list byte) : Z :=
  byte_at p 0 + 2 ^ 8 * byte_at p 1 + 2 ^ 16 * byte_at p 2 + 2 ^ 24 * byte_at p 3
  + 2 ^ 32 * byte_at p 4 + 2 ^ 40 * byte_at p 5 + 2 ^ 48 * byte_at p 6
  + 2 ^ 56 * byte_at p 7.

(** The object representation of an unsigned integer of [n] bytes. *)
Fixpoint le_bytes (n : nat) (x : Z) : list byte :=
  match n with
  | O => []
  | S n' => byte_of_Z x :: le_bytes n' (x / 256)
  end.

(** ** Section 1: hashing *)

Definition fm_wymix (A B : Z) : Z :=
  let res := A * B in
  Z.lxor (wrap64 res) (wrap64 (Z.shiftr res 64)).

Fixpoint fm_hash_chunks (fuel : nat) (p : list byte) (len seed : Z)
  : list byte * Z * Z :=
  match fuel with
  | O => (p, len, seed)
  | S fuel' =>
      if 8 <=? len then
        let v := load64 p in
        let seed := fm_wymix (Z.lxor seed v) 0xbf58476d1ce4e5b9 in
        fm_hash_chunks fuel' (drop 8 p) (len - 8) seed
      else (p, len, seed)
  end.

(** The [switch (len)] with fall-through: the statement of [case c] runs
    exactly when [c <= len]. *)
Definition fm_hash_tail (p : list byte) (len : Z) : Z :=
  let t := 0 in
  let t := if 7 <=? len then Z.lor t (Z.shiftl (byte_at p 6) 48) else t in
  let t := if 6 <=? len then Z.lor t (Z.shiftl (byte_at p 5) 40) else t in
  let t := if 5 <=? len then Z.lor t (Z.shiftl (byte_at p 4) 32) else t in
  let t := if 4 <=? len then Z.lor t (Z.shiftl (byte_at p 3) 24) else t in
  let t := if 3 <=? len then Z.lor t (Z.shiftl (byte_at p 2) 16) else t in
  let t := if 2 <=? len then Z.lor t (Z.shiftl (byte_at p 1) 8) else t in
  let t := if 1 <=? len then Z.lor t (byte_at p 0) else t in
  t.

Definition fm_hash (key : list byte) (len : Z) : Z :=
  let seed := 0x9E3779B97F4A7C15 in
  let see1 := len in
  let '(p, len, seed) := fm_hash_chunks (Z.to_nat len) key len seed in
  let seed :=
    if 0 <? len then fm_wymix (Z.lxor seed (fm_hash_tail p len)) 0x94d049bb133111eb
    else seed in
  fm_wymix seed see1.

(** *** String keys hashed by content

    A [const char*] argument is modelled by the bytes of the object it
    points into, from the pointed-to byte on.  [strlen] counts the bytes
    before the first NUL; without one it reads past the object, which is
    undefined ([None]). *)
Fixpoint strlen (str : list byte) : option Z :=
  match str with
  | [] => None
  | c :: rest =>
      if decide (c = x00) then Some 0
      else n ← strlen rest; Some (1 + n)
  end.

Definition fm_hash_str (str : list byte) : option Z :=
  len ← strlen str;
  Some (fm_hash str len).

(** *** Floating-point keys

    A [float] or a [double] is its IEEE-754 bit pattern. *)

(** IEEE-754 interchange format with [mw] mantissa bits and [ew] exponent
    bits: the value denoted by a bit pattern. *)
Definition decode_ieee (mw ew : Z) (bits : Z) : spec_float :=
  let sign := Z.odd (bits / 2 ^ (mw + ew)) in
  let e := (bits / 2 ^ mw) mod 2 ^ ew in
  let m := bits mod 2 ^ mw in
  if e =? 0 then
    match m with
    | Zpos p => S754_finite sign p (2 - 2 ^ (ew - 1) - mw)
    | _ => S754_zero sign
    end
  else if e =? 2 ^ ew - 1 then
    if m =? 0 then S754_infinity sign else S754_nan
  else
    match m + 2 ^ mw with
    | Zpos p => S754_finite sign p (e - (2 ^ (ew - 1) - 1) - mw)
    | _ => S754_nan
    end.

(** [a == b] on [float] and on [double] values given by their bits. *)
Definition float_eq (a b : Z) : bool := SFeqb (decode_ieee 23 8 a) (decode_ieee 23 8 b).
Definition double_eq (a b : Z) : bool := SFeqb (decode_ieee 52 11 a) (decode_ieee 52 11 b).

(** [if (val == 0.0f) val = 0.0f;] then the hash of the object. *)
Definition fm_hash_float (val : Z) : Z :=
  let val := if float_eq val 0 then 0 else val in
  fm_hash (le_bytes 4 val) 4.

Definition fm_hash_double (val : Z) : Z :=
  let val := if double_eq val 0 then 0 else val in
  fm_hash (le_bytes 8 val) 8.

(** ** Section 2: the type-erased dynamic array *)

Record fm_vector := {
  data : list (list byte);
  length : Z;
  capacity : Z;
  stride : Z
}.

Definition zero_cell (stride : Z) : list byte := replicate (Z.to_nat stride) x00.

Definition fm_vec_init (stride cap : Z) : fm_vector :=
  {| data := replicate (Z.to_nat cap) (zero_cell stride);
     length := 0;
     capacity := cap;
     stride := stride |}.

(** [realloc]: the old cells are kept; the cells added are indeterminate in
    C and read as zero here. *)
Definition fm_vec_grow (vec : fm_vector) : fm_vector :=
  let new_cap := if capacity vec =? 0 then 8 else wrap64 (capacity vec * 2) in
  {| data := take (Z.to_nat new_cap)
               (data vec ++ replicate (Z.to_nat new_cap) (zero_cell (stride vec)));
     length := length vec;
     capacity := new_cap;
     stride := stride vec |}.

(** [vec->data + index * vec->stride] *)
Definition fm_vec_at (vec : fm_vector) (index : Z) : option (list byte) :=
  data vec !! Z.to_nat index.

(** A [memcpy] of [n] bytes from [src] to the cell [index] of [vec]. *)
Definition fm_vec_write (vec : fm_vector) (index : Z) (src : list byte) (n : Z)
  : option fm_vector :=
  dst ← fm_vec_at vec index;
  Some {| data := <[Z.to_nat index := memcpy dst src n]> (data vec);
          length := length vec;
          capacity := capacity vec;
          stride := stride vec |}.

Definition set_length (vec : fm_vector) (n : Z) : fm_vector :=
  {| data := data vec; length := n; capacity := capacity vec; stride := stride vec |}.

Definition fm_vec_push (vec : fm_vector) (item : list byte) : option fm_vector :=
  let vec := if capacity vec <=? length vec then fm_vec_grow vec else vec in
  vec ← fm_vec_write vec (length vec) item (stride vec);
  Some (set_length vec (wrap64 (length vec + 1))).

(** ** Binary32 arithmetic of the load-factor test

    A non-negative finite binary32 value is [mant * 2 ^ expo]. *)

Record f32 := { mant : Z; expo : Z }.

(** Rounding to a 24-bit significand, ties to even. *)
Definition round24 (m e : Z) : f32 :=
  let s := Z.log2 m - 23 in
  if s <=? 0 then {| mant := m; expo := e |}
  else
    let q := Z.shiftr m s in
    let r := Z.land m (Z.ones s) in
    let half := Z.shiftl 1 (s - 1) in
    let q := if (half <? r) || ((r =? half) && Z.odd q) then q + 1 else q in
    {| mant := q; expo := e + s |}.

(** [(float)n] for an unsigned integer [n]. *)
Definition f32_of_size (n : Z) : f32 := round24 n 0.

Definition f32_mul (a b : f32) : f32 :=
  round24 (mant a * mant b) (expo a + expo b).

(** [a >= b] *)
Definition f32_ge (a b : f32) : bool :=
  let e := Z.min (expo a) (expo b) in
  mant b * 2 ^ (expo b - e) <=? mant a * 2 ^ (expo a - e).

(** The literal [0.80f]: 13421773 * 2^-24. *)
Definition f32_0_80 : f32 := {| mant := 13421773; expo := -24 |}.

(** ** Section 3: the dense map *)

Definition FM_EMPTY_IDX : Z := 0xFFFFFFFF.

Record _FastMap := {
  keys : fm_vector;
  values : fm_vector;
  hashes : fm_vector;
  buckets : list Z;
  bucket_count : Z;
  bucket_mask : Z;
  key_size : Z;
  val_size : Z;
  max_load_factor : f32
}.

Definition fm_init (key_size val_size : Z) : _FastMap :=
  {| key_size := key_size;
     val_size := val_size;
     max_load_factor := f32_0_80;
     bucket_count := 16;
     bucket_mask := 15;
     buckets := replicate 16 FM_EMPTY_IDX;
     keys := fm_vec_init key_size 8;
     values := fm_vec_init val_size 8;
     hashes := fm_vec_init 8 8 |}.

Definition set_buckets (map : _FastMap) (b : list Z) (count mask : Z) : _FastMap :=
  {| keys := keys map; values := values map; hashes := hashes map;
     buckets := b; bucket_count := count; bucket_mask := mask;
     key_size := key_size map; val_size := val_size map;
     max_load_factor := max_load_factor map |}.

Definition set_dense (map : _FastMap) (k v h : fm_vector) : _FastMap :=
  {| keys := k; values := v; hashes := h;
     buckets := buckets map; bucket_count := bucket_count map;
     bucket_mask := bucket_mask map;
     key_size := key_size map; val_size := val_size map;
     max_load_factor := max_load_factor map |}.

(** [*(uint64_t* )fm_vec_at(hashes_vec, idx)] *)
Definition hash_at (hashes_vec : fm_vector) (idx : Z) : option Z :=
  load64 <$> fm_vec_at hashes_vec idx.

(** [(bucket_idx + mask + 1 - ideal_idx) & mask], stored in a [uint32_t]. *)
Definition probe_dist (bucket_idx mask ideal_idx : Z) : Z :=
  wrap32 (Z.land (wrap64 (bucket_idx + mask + 1 - ideal_idx)) mask).

(** [(bucket_idx + 1) & mask] *)
Definition next_bucket (bucket_idx mask : Z) : Z :=
  Z.land (wrap64 (bucket_idx + 1)) mask.

(** ** Section 4: Robin Hood placement and resize *)

Fixpoint fm_place_index_loop (fuel : nat) (buckets : list Z) (mask : Z)
    (hashes_vec : fm_vector) (bucket_idx vec_idx dist : Z) : option (list Z) :=
  match fuel with
  | O => None
  | S fuel' =>
      existing_idx ← buckets !! Z.to_nat bucket_idx;
      if existing_idx =? FM_EMPTY_IDX then
        Some (<[Z.to_nat bucket_idx := vec_idx]> buckets)
      else
        existing_hash ← hash_at hashes_vec existing_idx;
        let ideal_idx := Z.land existing_hash mask in
        let existing_dist := probe_dist bucket_idx mask ideal_idx in
        let '(buckets, vec_idx, dist) :=
          if existing_dist <? dist
          then (<[Z.to_nat bucket_idx := vec_idx]> buckets, existing_idx, existing_dist)
          else (buckets, vec_idx, dist) in
        fm_place_index_loop fuel' buckets mask hashes_vec
          (next_bucket bucket_idx mask) vec_idx (wrap32 (dist + 1))
  end.

Definition fm_place_index (fuel : nat) (buckets : list Z) (mask hash vec_idx : Z)
    (hashes_vec : fm_vector) : option (list Z) :=
  fm_place_index_loop fuel buckets mask hashes_vec (Z.land hash mask) vec_idx 0.

(** The [for] loop of [fm_resize]; it runs at most [keys.length] times. *)
Fixpoint fm_resize_loop (fuel steps : nat) (map : _FastMap)
    (new_buckets : list Z) (new_mask i : Z) : option (list Z) :=
  match steps with
  | O => if i <? length (keys map) then None else Some new_buckets
  | S steps' =>
      if i <? length (keys map) then
        h ← hash_at (hashes map) i;
        new_buckets ← fm_place_index fuel new_buckets new_mask h (wrap32 i) (hashes map);
        fm_resize_loop fuel steps' map new_buckets new_mask (wrap64 (i + 1))
      else Some new_buckets
  end.

Definition fm_resize (fuel : nat) (map : _FastMap) (new_capacity : Z)
  : option _FastMap :=
  let new_buckets := replicate (Z.to_nat new_capacity) FM_EMPTY_IDX in
  let new_mask := wrap64 (new_capacity - 1) in
  new_buckets ← fm_resize_loop fuel (Z.to_nat (length (keys map))) map
                  new_buckets new_mask 0;
  Some (set_buckets map new_buckets new_capacity new_mask).

(** ** Section 5: put, get, erase *)

(** [map->keys.length >= map->bucket_count * map->max_load_factor] *)
Definition load_exceeded (map : _FastMap) : bool :=
  f32_ge (f32_of_size (length (keys map)))
         (f32_mul (f32_of_size (bucket_count map)) (max_load_factor map)).

(** The probe loop of [fm_put]: [Some idx] when the key is found at dense
    position [idx], [None] when the loop is left by [break]. *)
Fixpoint fm_put_probe (fuel : nat) (map : _FastMap) (key : list byte)
    (bucket_idx dist : Z) : option (option Z) :=
  match fuel with
  | O => None
  | S fuel' =>
      idx ← buckets map !! Z.to_nat bucket_idx;
      if idx =? FM_EMPTY_IDX then Some None
      else
        existing_hash ← hash_at (hashes map) idx;
        let ideal_idx := Z.land existing_hash (bucket_mask map) in
        let existing_dist := probe_dist bucket_idx (bucket_mask map) ideal_idx in
        if existing_dist <? dist then Some None
        else
          existing_key ← fm_vec_at (keys map) idx;
          if memcmp_eq existing_key key (key_size map) then Some (Some idx)
          else fm_put_probe fuel' map key
                 (next_bucket bucket_idx (bucket_mask map)) (wrap64 (dist + 1))
  end.

Definition fm_put (fuel : nat) (map : _FastMap) (key value : list byte)
  : option _FastMap :=
  map ← (if load_exceeded map
         then fm_resize fuel map (wrap64 (bucket_count map * 2))
         else Some map);
  let hash := fm_hash key (key_size map) in
  let bucket_idx := Z.land hash (bucket_mask map) in
  found ← fm_put_probe fuel map key bucket_idx 0;
  match found with
  | Some idx =>
      v ← fm_vec_write (values map) idx value (val_size map);
      Some (set_dense map (keys map) v (hashes map))
  | None =>
      let new_idx := wrap32 (length (keys map)) in
      k ← fm_vec_push (keys map) key;
      v ← fm_vec_push (values map) value;
      h ← fm_vec_push (hashes map) (le_bytes 8 hash);
      let map := set_dense map k v h in
      b ← fm_place_index fuel (buckets map) (bucket_mask map) hash new_idx (hashes map);
      Some (set_buckets map b (bucket_count map) (bucket_mask map))
  end.

(** [fm_get] returns a pointer into the values vector or [NULL]: the result
    [Some idx] is the address of cell [idx] of [values], [None] is [NULL]. *)
Fixpoint fm_get_loop (fuel : nat) (map : _FastMap) (key : list byte)
    (bucket_idx dist : Z) : option (option Z) :=
  match fuel with
  | O => None
  | S fuel' =>
      idx ← buckets map !! Z.to_nat bucket_idx;
      if idx =? FM_EMPTY_IDX then Some None
      else
        existing_key ← fm_vec_at (keys map) idx;
        if memcmp_eq existing_key key (key_size map) then Some (Some idx)
        else
          existing_hash ← hash_at (hashes map) idx;
          let ideal_idx := Z.land existing_hash (bucket_mask map) in
          let existing_dist := probe_dist bucket_idx (bucket_mask map) ideal_idx in
          if existing_dist <? dist then Some None
          else fm_get_loop fuel' map key
                 (next_bucket bucket_idx (bucket_mask map)) (wrap64 (dist + 1))
  end.

Definition fm_get (fuel : nat) (map : _FastMap) (key : list byte)
  : option (option Z) :=
  let hash := fm_hash key (key_size map) in
  fm_get_loop fuel map key (Z.land hash (bucket_mask map)) 0.

(** What the caller reads through the pointer [fm_get] returned. *)
Definition deref_value (map : _FastMap) (ptr : Z) : option (list byte) :=
  fm_vec_at (values map) ptr.

Fixpoint fm_update_bucket_loop (fuel : nat) (buckets : list Z) (mask : Z)
    (bucket_idx old_vec_idx new_vec_idx : Z) : option (list Z) :=
  match fuel with
  | O => None
  | S fuel' =>
      cur ← buckets !! Z.to_nat bucket_idx;
      if cur =? old_vec_idx then Some (<[Z.to_nat bucket_idx := new_vec_idx]> buckets)
      else fm_update_bucket_loop fuel' buckets mask (next_bucket bucket_idx mask)
             old_vec_idx new_vec_idx
  end.

Definition fm_update_bucket_for_moved_item (fuel : nat) (map : _FastMap)
    (old_vec_idx new_vec_idx : Z) : option _FastMap :=
  hash ← hash_at (hashes map) new_vec_idx;
  let bucket_idx := Z.land hash (bucket_mask map) in
  b ← fm_update_bucket_loop fuel (buckets map) (bucket_mask map) bucket_idx
        old_vec_idx new_vec_idx;
  Some (set_buckets map b (bucket_count map) (bucket_mask map)).

(** Part B of [fm_erase]: the backward shift. *)
Fixpoint fm_backshift (fuel : nat) (map : _FastMap) (buckets : list Z)
    (hole_idx next_idx : Z) : option (list Z) :=
  match fuel with
  | O => None
  | S fuel' =>
      next_val ← buckets !! Z.to_nat next_idx;
      if next_val =? FM_EMPTY_IDX then
        _ ← buckets !! Z.to_nat hole_idx;
        Some (<[Z.to_nat hole_idx := FM_EMPTY_IDX]> buckets)
      else
        next_hash ← hash_at (hashes map) next_val;
        let ideal_idx := Z.land next_hash (bucket_mask map) in
        let dist_to_hole :=
          Z.land (wrap64 (hole_idx + bucket_count map - ideal_idx)) (bucket_mask map) in
        let dist_to_next :=
          Z.land (wrap64 (next_idx + bucket_count map - ideal_idx)) (bucket_mask map) in
        if dist_to_hole <? dist_to_next then
          _ ← buckets !! Z.to_nat hole_idx;
          fm_backshift fuel' map (<[Z.to_nat hole_idx := next_val]> buckets)
            next_idx (next_bucket next_idx (bucket_mask map))
        else
          fm_backshift fuel' map buckets hole_idx (next_bucket next_idx (bucket_mask map))
  end.

(** Part A of [fm_erase]: swap-and-pop of the three vectors, then the
    pop and the backward shift from [bucket_idx]. *)
Definition fm_erase_found (fuel : nat) (map : _FastMap) (bucket_idx vec_idx : Z)
  : option _FastMap :=
  let last_vec_idx := wrap32 (wrap32 (length (keys map)) - 1) in
  map ← (if vec_idx =? last_vec_idx then Some map
         else
           src_k ← fm_vec_at (keys map) last_vec_idx;
           k ← fm_vec_write (keys map) vec_idx src_k (key_size map);
           src_v ← fm_vec_at (values map) last_vec_idx;
           v ← fm_vec_write (values map) vec_idx src_v (val_size map);
           src_h ← fm_vec_at (hashes map) last_vec_idx;
           h ← fm_vec_write (hashes map) vec_idx src_h 8;
           fm_update_bucket_for_moved_item fuel (set_dense map k v h)
             last_vec_idx vec_idx);
  let map := set_dense map
               (set_length (keys map) (wrap64 (length (keys map) - 1)))
               (set_length (values map) (wrap64 (length (values map) - 1)))
               (set_length (hashes map) (wrap64 (length (hashes map) - 1))) in
  let hole_idx := bucket_idx in
  let next_idx := next_bucket hole_idx (bucket_mask map) in
  b ← fm_backshift fuel map (buckets map) hole_idx next_idx;
  Some (set_buckets map b (bucket_count map) (bucket_mask map)).

Fixpoint fm_erase_loop (fuel fuel_inner : nat) (map : _FastMap) (key : list byte)
    (bucket_idx dist : Z) : option (bool * _FastMap) :=
  match fuel with
  | O => None
  | S fuel' =>
      vec_idx ← buckets map !! Z.to_nat bucket_idx;
      if vec_idx =? FM_EMPTY_IDX then Some (false, map)
      else
        existing_hash ← hash_at (hashes map) vec_idx;
        let ideal_idx := Z.land existing_hash (bucket_mask map) in
        let existing_dist := probe_dist bucket_idx (bucket_mask map) ideal_idx in
        if existing_dist <? dist then Some (false, map)
        else
          current_key ← fm_vec_at (keys map) vec_idx;
          if memcmp_eq current_key key (key_size map) then
            map ← fm_erase_found fuel_inner map bucket_idx vec_idx;
            Some (true, map)
          else fm_erase_loop fuel' fuel_inner map key
                 (next_bucket bucket_idx (bucket_mask map)) (wrap64 (dist + 1))
  end.

Definition fm_erase (fuel : nat) (map : _FastMap) (key : list byte)
  : option (bool * _FastMap) :=
  let hash := fm_hash key (key_size map) in
  fm_erase_loop fuel fuel map key (Z.land hash (bucket_mask map)) 0.


(** * Verification *)

(** ** Bytes and object representations *)

Lemma byte_val_range b : 0 ≤ byte_val b < 256.
Proof.
  unfold byte_val. pose proof (Byte.to_N_bounded b). lia.
Qed.

Lemma byte_val_of_Z z : byte_val (byte_of_Z z) = z mod 256.
Proof.
  unfold byte_val, byte_of_Z.
  pose proof (Z.mod_pos_bound z 256 ltac:(lia)) as Hz.
  destruct (Byte.of_N (Z.to_N (z mod 256))) as [b|] eqn:Hb.
  - apply Byte.to_of_N in Hb. rewrite Hb. lia.
  - apply Byte.of_N_None_iff in Hb. lia.
Qed.

Lemma byte_at_range p i : 0 ≤ byte_at p i < 256.
Proof.
  unfold byte_at. destruct (p !! i); [apply byte_val_range|lia].
Qed.

Lemma lookup_read_bytes p n (i : nat) :
  read_bytes p n !! i =
    if decide (i < Z.to_nat n)%nat then Some (default x00 (p !! i)) else None.
Proof.
  unfold read_bytes. case_decide as Hi.
  - rewrite lookup_take_lt by done.
    destruct (p !! i) as [b|] eqn:Hp.
    + by rewrite (lookup_app_l_Some _ _ _ _ Hp).
    + apply lookup_ge_None in Hp.
      rewrite lookup_app_r by done. simpl.
      apply lookup_replicate_2. lia.
  - apply lookup_take_ge. lia.
Qed.

Lemma length_read_bytes p n : List.length (read_bytes p n) = Z.to_nat n.
Proof.
  unfold read_bytes. rewrite length_take, length_app, length_replicate. lia.
Qed.

Lemma read_bytes_exact p n : List.length p = Z.to_nat n → read_bytes p n = p.
Proof.
  intros Hlen. unfold read_bytes.
  rewrite take_app_le by lia. apply take_ge. lia.
Qed.

Lemma read_bytes_idem p n : read_bytes (read_bytes p n) n = read_bytes p n.
Proof. apply read_bytes_exact, length_read_bytes. Qed.

Lemma byte_at_read_bytes p n (i : nat) :
  (i < Z.to_nat n)%nat → byte_at (read_bytes p n) i = byte_at p i.
Proof.
  intros Hi. unfold byte_at. rewrite lookup_read_bytes, decide_True by done.
  by destruct (p !! i).
Qed.

Lemma drop_read_bytes p n (j : nat) :
  drop j (read_bytes p n) = read_bytes (drop j p) (n - Z.of_nat j).
Proof.
  apply list_eq. intros i.
  rewrite lookup_drop, !lookup_read_bytes, lookup_drop.
  repeat case_decide; try done; lia.
Qed.

Lemma memcpy_cell dst src n :
  List.length dst = Z.to_nat n → memcpy dst src n = read_bytes src n.
Proof.
  intros Hlen. unfold memcpy. rewrite drop_ge by lia. apply app_nil_r.
Qed.

Lemma memcmp_eq_true a b n : memcmp_eq a b n = true ↔ read_bytes a n = read_bytes b n.
Proof. unfold memcmp_eq. apply bool_decide_eq_true. Qed.

Lemma load64_read_bytes p n : 8 ≤ n → load64 (read_bytes p n) = load64 p.
Proof.
  intros Hn. unfold load64. by rewrite !byte_at_read_bytes by lia.
Qed.

Lemma load64_le_bytes x : 0 ≤ x < 2 ^ 64 → load64 (le_bytes 8 x) = x.
Proof.
  intros Hx. unfold load64, byte_at. cbn [le_bytes lookup list_lookup].
  rewrite !byte_val_of_Z. Z.div_mod_to_equations. lia.
Qed.

Lemma length_le_bytes n x : List.length (le_bytes n x) = n.
Proof. revert x. induction n; intros; simpl; [done|]. by rewrite IHn. Qed.

(** ** The hash *)

Lemma lxor_range a b n :
  0 ≤ n → 0 ≤ a < 2 ^ n → 0 ≤ b < 2 ^ n → 0 ≤ Z.lxor a b < 2 ^ n.
Proof.
  intros Hn Ha Hb.
  assert (0 ≤ Z.lxor a b) as Hnn by (apply Z.lxor_nonneg; lia).
  split; [done|].
  destruct (decide (Z.lxor a b = 0)) as [->|Hne]; [lia|].
  assert (0 < n) as Hpos.
  { destruct (decide (n = 0)) as [->|]; [|lia].
    assert (a = 0) as -> by lia. assert (b = 0) as -> by lia. done. }
  apply Z.log2_lt_pow2; [lia|].
  pose proof (Z.log2_lxor a b ltac:(lia) ltac:(lia)) as Hl.
  assert (Z.log2 a < n) by (destruct (decide (a = 0)) as [->|]; [simpl; lia|apply Z.log2_lt_pow2; lia]).
  assert (Z.log2 b < n) by (destruct (decide (b = 0)) as [->|]; [simpl; lia|apply Z.log2_lt_pow2; lia]).
  lia.
Qed.

Lemma fm_wymix_range A B : 0 ≤ fm_wymix A B < 2 ^ 64.
Proof.
  unfold fm_wymix, wrap64. apply lxor_range; [lia| |]; apply Z.mod_pos_bound; lia.
Qed.

Lemma fm_hash_range key len : 0 ≤ fm_hash key len < 2 ^ 64.
Proof.
  unfold fm_hash. destruct (fm_hash_chunks _ _ _ _) as [[p l] s].
  apply fm_wymix_range.
Qed.

Lemma fm_hash_chunks_read_bytes fuel p len seed :
  fm_hash_chunks fuel (read_bytes p len) len seed =
    let '(p', len', seed') := fm_hash_chunks fuel p len seed in
    (read_bytes p' len', len', seed').
Proof.
  revert p len seed. induction fuel as [|fuel IH]; intros p len seed; simpl; [done|].
  destruct (Z.leb_spec 8 len) as [Hlen|Hlen]; [|done].
  rewrite load64_read_bytes by done.
  rewrite (drop_read_bytes p len 8). apply IH.
Qed.

Lemma fm_hash_tail_read_bytes p len :
  fm_hash_tail (read_bytes p len) len = fm_hash_tail p len.
Proof.
  unfold fm_hash_tail.
  repeat match goal with
  | |- context [Z.leb ?a len] => destruct (Z.leb_spec a len)
  end; rewrite ?byte_at_read_bytes by lia; done.
Qed.

(** The hash reads exactly the first [len] bytes of the key. *)
Lemma fm_hash_read_bytes key len : fm_hash (read_bytes key len) len = fm_hash key len.
Proof.
  unfold fm_hash. rewrite fm_hash_chunks_read_bytes.
  destruct (fm_hash_chunks _ key len _) as [[p l] s].
  by rewrite fm_hash_tail_read_bytes.
Qed.

#[global] Arguments le_bytes : simpl never.
#[global] Arguments fm_hash : simpl never.
#[global] Arguments read_bytes : simpl never.

(** ** Slots of a table of [bc] buckets *)

Definition table_size (bc : Z) : Prop := ∃ k, 4 ≤ k ≤ 32 ∧ bc = 2 ^ k.

Definition succ_slot (bc b : Z) : Z := if b + 1 =? bc then 0 else b + 1.

(** Number of forward steps from slot [i] to slot [b]. *)
Definition slot_dist (bc b i : Z) : Z := if i <=? b then b - i else b - i + bc.

Lemma table_size_bounds bc : table_size bc → 16 ≤ bc ≤ 2 ^ 32.
Proof.
  intros (k & Hk & ->). split.
  - change 16 with (2 ^ 4). apply Z.pow_le_mono_r; lia.
  - apply Z.pow_le_mono_r; lia.
Qed.

Lemma land_mask bc h : table_size bc → Z.land h (bc - 1) = h mod bc.
Proof.
  intros (k & Hk & ->).
  replace (2 ^ k - 1) with (Z.ones k) by (rewrite Z.ones_equiv; lia).
  apply Z.land_ones. lia.
Qed.

Lemma land_mask_range bc h : table_size bc → 0 ≤ Z.land h (bc - 1) < bc.
Proof.
  intros Hbc. rewrite land_mask by done.
  apply Z.mod_pos_bound. pose proof (table_size_bounds _ Hbc). lia.
Qed.

Lemma next_bucket_succ bc b :
  table_size bc → 0 ≤ b < bc → next_bucket b (bc - 1) = succ_slot bc b.
Proof.
  intros Hbc Hb. pose proof (table_size_bounds _ Hbc) as Hs.
  unfold next_bucket, succ_slot, wrap64.
  rewrite (Z.mod_small (b + 1)) by lia.
  rewrite land_mask by done.
  destruct (Z.eqb_spec (b + 1) bc) as [->|Hne].
  - apply Z_mod_same_full.
  - apply Z.mod_small. lia.
Qed.

Lemma mod_slot_dist bc b i :
  0 ≤ b < bc → 0 ≤ i < bc → (b + bc - i) mod bc = slot_dist bc b i.
Proof.
  intros Hb Hi. unfold slot_dist. destruct (Z.leb_spec i b).
  - replace (b + bc - i) with (b - i + 1 * bc) by lia.
    rewrite Z_mod_plus_full. apply Z.mod_small. lia.
  - replace (b - i + bc) with (b + bc - i) by lia. apply Z.mod_small. lia.
Qed.

Lemma probe_dist_slot bc b i :
  table_size bc → 0 ≤ b < bc → 0 ≤ i < bc →
  probe_dist b (bc - 1) i = slot_dist bc b i.
Proof.
  intros Hbc Hb Hi. pose proof (table_size_bounds _ Hbc) as Hs.
  unfold probe_dist, wrap64, wrap32.
  replace (b + (bc - 1) + 1 - i) with (b + bc - i) by lia.
  rewrite (Z.mod_small (b + bc - i)) by lia.
  rewrite land_mask, mod_slot_dist by done.
  apply Z.mod_small. unfold slot_dist. case_match; lia.
Qed.

Lemma shift_dist_slot bc b i :
  table_size bc → 0 ≤ b < bc → 0 ≤ i < bc →
  Z.land (wrap64 (b + bc - i)) (bc - 1) = slot_dist bc b i.
Proof.
  intros Hbc Hb Hi. pose proof (table_size_bounds _ Hbc) as Hs.
  unfold wrap64. rewrite (Z.mod_small (b + bc - i)) by lia.
  by rewrite land_mask, mod_slot_dist.
Qed.

Definition pred_slot (bc b : Z) : Z := if b =? 0 then bc - 1 else b - 1.

Ltac slots :=
  unfold succ_slot, pred_slot, slot_dist in *;
  repeat match goal with
  | |- context [Z.eqb ?a ?b] => destruct (Z.eqb_spec a b)
  | |- context [Z.leb ?a ?b] => destruct (Z.leb_spec a b)
  | |- context [Z.ltb ?a ?b] => destruct (Z.ltb_spec a b)
  | H : context [Z.eqb ?a ?b] |- _ => destruct (Z.eqb_spec a b)
  | H : context [Z.leb ?a ?b] |- _ => destruct (Z.leb_spec a b)
  | H : context [Z.ltb ?a ?b] |- _ => destruct (Z.ltb_spec a b)
  end; try lia.

(** The occupied slots of a bucket array, as the list of dense positions
    they reference. *)
Definition occupied (B : list Z) : list Z := filter (λ p, p ≠ FM_EMPTY_IDX) B.

Lemma occupied_insert_empty (B : list Z) (i : nat) c :
  B !! i = Some FM_EMPTY_IDX → c ≠ FM_EMPTY_IDX →
  occupied (<[i:=c]> B) ≡ₚ c :: occupied B.
Proof.
  intros Hi Hc. unfold occupied.
  rewrite insert_take_drop by (by eapply lookup_lt_Some).
  rewrite <- (take_drop_middle B i _ Hi) at 3.
  rewrite !filter_app, !filter_cons.
  rewrite (decide_True (P := c ≠ FM_EMPTY_IDX)) by done.
  rewrite decide_False by (intros Hx; by apply Hx).
  by rewrite Permutation_middle.
Qed.

Lemma occupied_insert_swap (B : list Z) (i : nat) p c :
  B !! i = Some p → p ≠ FM_EMPTY_IDX → c ≠ FM_EMPTY_IDX →
  p :: occupied (<[i:=c]> B) ≡ₚ c :: occupied B.
Proof.
  intros Hi Hp Hc. unfold occupied.
  rewrite insert_take_drop by (by eapply lookup_lt_Some).
  rewrite <- (take_drop_middle B i _ Hi) at 3.
  rewrite !filter_app, !filter_cons.
  rewrite !decide_True by done.
  rewrite <- !Permutation_middle. apply Permutation_swap.
Qed.

Lemma occupied_insert_clear (B : list Z) (i : nat) p :
  B !! i = Some p → p ≠ FM_EMPTY_IDX →
  p :: occupied (<[i:=FM_EMPTY_IDX]> B) ≡ₚ occupied B.
Proof.
  intros Hi Hp. unfold occupied.
  rewrite insert_take_drop by (by eapply lookup_lt_Some).
  rewrite <- (take_drop_middle B i _ Hi) at 3.
  rewrite !filter_app, !filter_cons.
  rewrite (decide_True (P := p ≠ FM_EMPTY_IDX)) by done.
  rewrite decide_False by (intros Hx; by apply Hx).
  by rewrite Permutation_middle.
Qed.

Lemma elem_of_occupied (B : list Z) p :
  p ∈ occupied B ↔ p ≠ FM_EMPTY_IDX ∧ ∃ i, B !! i = Some p.
Proof.
  unfold occupied. rewrite list_elem_of_filter, list_elem_of_lookup. tauto.
Qed.

Lemma occupied_lookup_inj (B : list Z) i j p :
  NoDup (occupied B) → p ≠ FM_EMPTY_IDX →
  B !! i = Some p → B !! j = Some p → i = j.
Proof.
  unfold occupied. revert i j. induction B as [|x B IH]; intros i j Hnd Hp Hi Hj.
  - done.
  - rewrite filter_cons in Hnd. destruct i as [|i], j as [|j]; simpl in *.
    + done.
    + simplify_eq. rewrite decide_True in Hnd by done.
      apply NoDup_cons in Hnd as [Hnot _]. exfalso. apply Hnot.
      apply list_elem_of_filter. split; [done|]. by eapply list_elem_of_lookup_2.
    + simplify_eq. rewrite decide_True in Hnd by done.
      apply NoDup_cons in Hnd as [Hnot _]. exfalso. apply Hnot.
      apply list_elem_of_filter. split; [done|]. by eapply list_elem_of_lookup_2.
    + f_equal. apply IH; try done.
      case_decide; [by apply NoDup_cons in Hnd as [_ ?]|done].
Qed.

Lemma occupied_has_empty (B : list Z) :
  (List.length (occupied B) < List.length B)%nat →
  ∃ i, B !! i = Some FM_EMPTY_IDX.
Proof.
  unfold occupied. induction B as [|x B IH]; simpl; [lia|].
  rewrite filter_cons. case_decide as Hx; simpl; intros Hlen.
  - destruct IH as [i Hi]; [lia|]. by exists (S i).
  - exists 0%nat. simpl. f_equal. by destruct (decide (x = FM_EMPTY_IDX)).
Qed.

(** ** The Robin Hood order of a bucket array *)

Section robin_hood.
Context (bc : Z) (Hbc : table_size bc).
Context (H : fm_vector).

(** Ideal slot of the entry at dense position [p]. *)
Definition ideal_slot (p : Z) : Z :=
  Z.land (default 0 (hash_at H p)) (bc - 1).

(** Probe distance of the entry in slot [b]; [-1] for an empty slot. *)
Definition dist_at (B : list Z) (b : Z) : Z :=
  match B !! Z.to_nat b with
  | Some p => if p =? FM_EMPTY_IDX then -1 else slot_dist bc b (ideal_slot p)
  | None => -1
  end.

Definition monotone_dist (D : Z → Z) : Prop :=
  ∀ b, 0 ≤ b < bc → D (succ_slot bc b) ≤ D b + 1.

Definition robin_hood (B : list Z) : Prop := monotone_dist (dist_at B).

Local Lemma bc_bounds : 16 ≤ bc ≤ 2 ^ 32.
Proof. by apply table_size_bounds. Qed.

Lemma ideal_slot_range p : 0 ≤ ideal_slot p < bc.
Proof. by apply land_mask_range. Qed.

Lemma dist_at_lower B b : 0 ≤ b → -1 ≤ dist_at B b.
Proof.
  intros Hb. unfold dist_at. destruct (B !! Z.to_nat b) as [p|]; [|lia].
  pose proof (ideal_slot_range p). slots.
Qed.

Lemma dist_at_upper B b : 0 ≤ b < bc → dist_at B b < bc.
Proof.
intros Hb. unfold dist_at. destruct (B !! Z.to_nat b) as [p|]; [|lia].
pose proof (ideal_slot_range p). slots.
Qed.

Lemma dist_at_empty B b : B !! Z.to_nat b = Some FM_EMPTY_IDX → dist_at B b = -1.
Proof. unfold dist_at. by intros ->. Qed.

Lemma dist_at_occupied B b p :
  B !! Z.to_nat b = Some p → p ≠ FM_EMPTY_IDX →
  dist_at B b = slot_dist bc b (ideal_slot p).
Proof.
  unfold dist_at. intros -> Hp. by destruct (Z.eqb_spec p FM_EMPTY_IDX).
Qed.

Lemma dist_at_insert B b c x :
  0 ≤ b → 0 ≤ x → (Z.to_nat b < List.length B)%nat →
  dist_at (<[Z.to_nat b := c]> B) x =
    if decide (x = b)
    then (if c =? FM_EMPTY_IDX then -1 else slot_dist bc b (ideal_slot c))
    else dist_at B x.
Proof.
  intros Hb Hx Hlen. unfold dist_at. case_decide as Hxb.
  - subst x. by rewrite list_lookup_insert_eq.
  - rewrite list_lookup_insert_ne by lia. done.
Qed.

(** Distances grow by at most one per step, so they are bounded along any
    forward walk. *)
Lemma monotone_dist_chain D a b :
  monotone_dist D → 0 ≤ a < bc → 0 ≤ b < bc →
  D b ≤ D a + slot_dist bc b a.
Proof.
  intros HD Ha Hb. pose proof bc_bounds.
  remember (Z.to_nat (slot_dist bc b a)) as n eqn:Hn.
  revert b Hb Hn. induction n as [|n IH]; intros b Hb Hn.
  - assert (b = a) as -> by slots. slots.
  - specialize (IH (pred_slot bc b)).
    assert (0 ≤ pred_slot bc b < bc) as Hp by slots.
    specialize (IH Hp).
    assert (b ≠ a) by (intros ->; slots).
    assert (slot_dist bc (pred_slot bc b) a = slot_dist bc b a - 1) as Hd by slots.
    specialize (HD _ Hp).
    replace (succ_slot bc (pred_slot bc b)) with b in HD by slots.
    lia.
Qed.

Lemma dist_at_below_empty B e b :
  robin_hood B → 0 ≤ e < bc → 0 ≤ b < bc →
  B !! Z.to_nat e = Some FM_EMPTY_IDX →
  dist_at B b ≤ slot_dist bc b e - 1.
Proof.
  intros HB He Hb Hemp.
  pose proof (monotone_dist_chain _ e b HB He Hb) as Hc.
  rewrite (dist_at_empty _ _ Hemp) in Hc. lia.
Qed.
End robin_hood.

Section place.
Context (bc : Z) (Hbc : table_size bc) (H : fm_vector).

Lemma robin_hood_insert B b c d :
  List.length B = Z.to_nat bc → 0 ≤ b < bc →
  robin_hood bc H B →
  c ≠ FM_EMPTY_IDX →
  d = slot_dist bc b (ideal_slot bc H c) →
  d ≤ dist_at bc H B (pred_slot bc b) + 1 →
  dist_at bc H B (succ_slot bc b) ≤ d + 1 →
  robin_hood bc H (<[Z.to_nat b := c]> B).
Proof.
  intros Hlen Hb HB Hc Hd Hpred Hsucc x Hx.
  pose proof (table_size_bounds _ Hbc).
  rewrite !dist_at_insert by slots.
  destruct (Z.eqb_spec c FM_EMPTY_IDX); [done|].
  specialize (HB x Hx).
  repeat case_decide; subst; try lia.
  replace (pred_slot bc (succ_slot bc x)) with x in Hpred by slots. lia.
Qed.

Lemma fm_place_index_loop_spec (X : list Z) fuel B b c d e :
  List.length B = Z.to_nat bc →
  (∀ p, p ∈ X → p ≠ FM_EMPTY_IDX ∧ is_Some (hash_at H p)) →
  c :: occupied B ≡ₚ X →
  robin_hood bc H B →
  0 ≤ e < bc → B !! Z.to_nat e = Some FM_EMPTY_IDX →
  0 ≤ b < bc →
  d = slot_dist bc b (ideal_slot bc H c) →
  d ≤ dist_at bc H B (pred_slot bc b) + 1 →
  slot_dist bc e b < Z.of_nat fuel →
  ∃ B', fm_place_index_loop fuel B (bc - 1) H b c d = Some B' ∧
        List.length B' = Z.to_nat bc ∧ robin_hood bc H B' ∧ occupied B' ≡ₚ X.
Proof.
  pose proof (table_size_bounds _ Hbc) as Hsz.
  revert B b c d. induction fuel as [|fuel IH];
    intros B b c d Hlen HX Hperm HB He Hemp Hb Hd Hpred Hfuel.
  { slots. }
  assert (c ≠ FM_EMPTY_IDX) as Hc.
  { apply HX. rewrite <- Hperm. by left. }
  pose proof (ideal_slot_range bc Hbc H c) as Hic.
  simpl. destruct (B !! Z.to_nat b) as [p|] eqn:Hp; simpl.
  2: { apply lookup_ge_None in Hp. lia. }
  destruct (Z.eqb_spec p FM_EMPTY_IDX) as [->|Hpne].
  - (* an empty slot: the carried index is stored *)
    eexists. split; [done|]. split; [by rewrite length_insert|]. split.
    + eapply robin_hood_insert; try done.
      specialize (HB b Hb). rewrite (dist_at_empty _ _ _ b Hp) in HB. slots.
    + by rewrite occupied_insert_empty.
  - (* an occupied slot *)
    assert (p ∈ X) as HpX.
    { rewrite <- Hperm. right. apply elem_of_occupied. eauto. }
    destruct (HX p HpX) as [_ [h Hh]]. rewrite Hh. simpl.
    pose proof (ideal_slot_range bc Hbc H p) as Hip.
    assert (Z.land h (bc - 1) = ideal_slot bc H p) as ->.
    { unfold ideal_slot. by rewrite Hh. }
    rewrite probe_dist_slot, next_bucket_succ by done.
    pose proof (dist_at_occupied bc H B b p Hp Hpne) as Hdp.
    pose proof (dist_at_below_empty bc Hbc H B e b HB He Hb Hemp) as Hle.
    assert (b ≠ e) as Hbe by (intros ->; congruence).
    assert (0 ≤ succ_slot bc b < bc) as Hsb by slots.
    assert (pred_slot bc (succ_slot bc b) = b) as Hps by slots.
    destruct (Z.ltb_spec (slot_dist bc b (ideal_slot bc H p)) d) as [Hlt|Hge].
    + (* the incumbent is richer: swap *)
      unfold wrap32. rewrite Z.mod_small by slots.
      apply IH; try done.
      * by rewrite length_insert.
      * rewrite <- Hperm. by apply occupied_insert_swap.
      * eapply robin_hood_insert; try done.
        specialize (HB b Hb). lia.
      * rewrite list_lookup_insert_ne by lia. done.
      * slots.
      * rewrite Hps, dist_at_insert by slots.
        rewrite decide_True by done.
        destruct (Z.eqb_spec c FM_EMPTY_IDX); [done|]. lia.
      * slots.
    + unfold wrap32. rewrite Z.mod_small by slots.
      apply IH; try done.
      * slots.
      * rewrite Hps. lia.
      * slots.
Qed.
End place.

(** ** Well-formed vectors *)

Record vec_wf (v : fm_vector) (s : Z) : Prop := {
  vec_stride : stride v = s;
  vec_data_len : List.length (data v) = Z.to_nat (capacity v);
  vec_len : 0 ≤ length v ≤ capacity v;
  vec_cap : 0 < capacity v ≤ 2 ^ 33;
  vec_cells : ∀ i c, data v !! i = Some c → List.length c = Z.to_nat s
}.

Lemma fm_vec_init_wf s : vec_wf (fm_vec_init s 8) s.
Proof.
  unfold fm_vec_init. split; cbn [data length capacity stride]; try lia.
  - by rewrite length_replicate.
  - intros i c [-> _]%lookup_replicate. apply length_replicate.
Qed.

Lemma vec_wf_at v s i :
  vec_wf v s → 0 ≤ i < capacity v →
  ∃ c, fm_vec_at v i = Some c ∧ List.length c = Z.to_nat s.
Proof.
  intros Hv Hi. unfold fm_vec_at.
  destruct (lookup_lt_is_Some_2 (data v) (Z.to_nat i)) as [c Hc].
  { rewrite (vec_data_len _ _ Hv). lia. }
  exists c. split; [done|]. by eapply vec_cells.
Qed.

Lemma fm_vec_write_spec v s i src :
  vec_wf v s → 0 ≤ i < capacity v →
  ∃ v', fm_vec_write v i src s = Some v' ∧ vec_wf v' s ∧
        length v' = length v ∧ capacity v' = capacity v ∧
        fm_vec_at v' i = Some (read_bytes src s) ∧
        (∀ j, 0 ≤ j → j ≠ i → fm_vec_at v' j = fm_vec_at v j).
Proof.
  intros Hv Hi. destruct (vec_wf_at _ _ _ Hv Hi) as (c & Hc & Hlen).
  unfold fm_vec_write. rewrite Hc. simpl. eexists. split; [done|].
  rewrite memcpy_cell by done. unfold fm_vec_at in *. simpl.
  split; [|split; [done|split; [done|split]]].
  - destruct Hv. split; simpl; try done.
    + by rewrite length_insert.
    + intros j c' [(_ & <- & _)|[_ ?]]%list_lookup_insert_Some; [apply length_read_bytes|eauto].
  - apply list_lookup_insert_eq. by eapply lookup_lt_Some.
  - intros j Hj Hne. apply list_lookup_insert_ne. lia.
Qed.

Lemma fm_vec_grow_wf v s :
  vec_wf v s → capacity v ≤ 2 ^ 32 →
  vec_wf (fm_vec_grow v) s ∧ capacity (fm_vec_grow v) = 2 * capacity v ∧
  length (fm_vec_grow v) = length v ∧
  (∀ j, 0 ≤ j < capacity v → fm_vec_at (fm_vec_grow v) j = fm_vec_at v j).
Proof.
  intros Hv Hcap. pose proof (vec_cap _ _ Hv) as Hc.
  pose proof (vec_data_len _ _ Hv) as Hd.
  assert ((if capacity v =? 0 then 8 else wrap64 (capacity v * 2)) = 2 * capacity v) as Hnew.
  { destruct (Z.eqb_spec (capacity v) 0); [lia|]. unfold wrap64.
    rewrite Z.mod_small; lia. }
  unfold fm_vec_grow, fm_vec_at. rewrite Hnew. simpl.
  split; [|split; [done|split; [done|]]].
  - destruct Hv. split; simpl; try lia.
    + rewrite length_take, length_app, length_replicate. lia.
    + intros i c [Hi _]%lookup_take_Some.
      apply lookup_app_Some in Hi as [Hi|[_ Hi]]; [eauto|].
      apply lookup_replicate in Hi as [-> _]. subst s. apply length_replicate.
  - intros j Hj. rewrite lookup_take_lt by lia. apply lookup_app_l. lia.
Qed.

Lemma fm_vec_push_spec v s item :
  vec_wf v s → length v < 2 ^ 32 →
  ∃ v', fm_vec_push v item = Some v' ∧ vec_wf v' s ∧
        length v' = length v + 1 ∧
        fm_vec_at v' (length v) = Some (read_bytes item s) ∧
        (∀ j, 0 ≤ j < length v → fm_vec_at v' j = fm_vec_at v j).
Proof.
  intros Hv Hlen. pose proof (vec_len _ _ Hv) as Hl.
  pose proof (vec_stride _ _ Hv) as Hs.
  unfold fm_vec_push.
  set (v1 := if capacity v <=? length v then fm_vec_grow v else v).
  assert (vec_wf v1 s ∧ length v1 = length v ∧ length v < capacity v1 ∧ stride v1 = s ∧
          ∀ j, 0 ≤ j < length v → fm_vec_at v1 j = fm_vec_at v j) as (Hv1 & Hl1 & Hc1 & Hs1 & Hsame).
  { unfold v1. destruct (Z.leb_spec (capacity v) (length v)).
    - destruct (fm_vec_grow_wf v s Hv) as (? & ? & ? & Hj); [lia|].
      pose proof (vec_cap _ _ Hv).
      split_and!; try done; try lia.
      intros j Hj'. apply Hj. lia.
    - split_and!; try done; lia. }
  rewrite Hl1, Hs1.
  destruct (fm_vec_write_spec v1 s (length v) item Hv1) as (v2 & -> & Hv2 & Hl2 & Hc2 & Hat & Hoth); [lia|].
  simpl. eexists. split; [reflexivity|].
  unfold wrap64. rewrite Z.mod_small by lia.
  split_and!.
  - destruct Hv2. split; simpl; try done; lia.
  - simpl. lia.
  - done.
  - intros j Hj. unfold set_length, fm_vec_at. simpl.
    change (fm_vec_at v2 j = fm_vec_at v j). rewrite Hoth by lia. by apply Hsame.
Qed.

(** ** The representation invariant of a map *)

Record map_wf (m : _FastMap) : Prop := {
  wf_keys : vec_wf (keys m) (key_size m);
  wf_values : vec_wf (values m) (val_size m);
  wf_hashes : vec_wf (hashes m) 8;
  wf_values_len : length (values m) = length (keys m);
  wf_hashes_len : length (hashes m) = length (keys m);
  wf_load : max_load_factor m = f32_0_80;
  wf_size : table_size (bucket_count m);
  wf_mask : bucket_mask m = bucket_count m - 1;
  wf_buckets_len : List.length (buckets m) = Z.to_nat (bucket_count m);
  wf_room : length (keys m) < bucket_count m;
  wf_bij : occupied (buckets m) ≡ₚ seqZ 0 (length (keys m));
  wf_rh : robin_hood (bucket_count m) (hashes m) (buckets m);
  wf_cache : ∀ i kc, 0 ≤ i < length (keys m) →
    fm_vec_at (keys m) i = Some kc →
    hash_at (hashes m) i = Some (fm_hash kc (key_size m));
  wf_distinct : ∀ i j kc, 0 ≤ i < length (keys m) → 0 ≤ j < length (keys m) →
    fm_vec_at (keys m) i = Some kc → fm_vec_at (keys m) j = Some kc → i = j
}.

(** The key [key] is stored at dense position [p]. *)
Definition key_at (m : _FastMap) (p : Z) (key : list byte) : Prop :=
  0 ≤ p < length (keys m) ∧
  fm_vec_at (keys m) p = Some (read_bytes key (key_size m)).

Definition key_absent (m : _FastMap) (key : list byte) : Prop :=
  ∀ p, ¬ key_at m p key.

Lemma fm_init_wf ks vs : map_wf (fm_init ks vs).
Proof.
  split; cbn [fm_init keys values hashes buckets bucket_count bucket_mask
              key_size val_size max_load_factor]; try apply fm_vec_init_wf; try done.
  - exists 4. split; [lia|done].
  - intros b Hb. unfold dist_at.
    assert (∀ x, 0 ≤ x < 16 → replicate 16 FM_EMPTY_IDX !! Z.to_nat x = Some FM_EMPTY_IDX) as Hr.
    { intros x Hx. apply lookup_replicate_2. lia. }
    rewrite !Hr by slots. simpl. lia.
  - simpl. lia.
  - simpl. lia.
Qed.

Section wf_facts.
Context (m : _FastMap) (Hwf : map_wf m).

Lemma wf_bc_bounds : 16 ≤ bucket_count m ≤ 2 ^ 32.
Proof. apply table_size_bounds, Hwf. Qed.

Lemma wf_len_bounds : 0 ≤ length (keys m) < 2 ^ 32.
Proof.
  pose proof wf_bc_bounds. pose proof (wf_room _ Hwf).
  pose proof (vec_len _ _ (wf_keys _ Hwf)). lia.
Qed.

Lemma wf_slot_ref (i : nat) p :
  buckets m !! i = Some p → p ≠ FM_EMPTY_IDX → 0 ≤ p < length (keys m).
Proof.
  intros Hi Hp.
  assert (p ∈ seqZ 0 (length (keys m))) as Hin.
  { rewrite <- (wf_bij _ Hwf). apply elem_of_occupied. eauto. }
  apply elem_of_seqZ in Hin. lia.
Qed.

Lemma wf_slot_of p :
  0 ≤ p < length (keys m) →
  ∃ t, 0 ≤ t < bucket_count m ∧ buckets m !! Z.to_nat t = Some p ∧ p ≠ FM_EMPTY_IDX.
Proof.
  intros Hp.
  assert (p ∈ occupied (buckets m)) as Hin.
  { rewrite (wf_bij _ Hwf). apply elem_of_seqZ. lia. }
  apply elem_of_occupied in Hin as [Hne [i Hi]].
  exists (Z.of_nat i). rewrite Nat2Z.id. split_and!; try done; try lia.
  apply lookup_lt_Some in Hi. rewrite (wf_buckets_len _ Hwf) in Hi. lia.
Qed.

Lemma wf_slot_inj (i j : nat) p :
  p ≠ FM_EMPTY_IDX → buckets m !! i = Some p → buckets m !! j = Some p → i = j.
Proof.
  apply occupied_lookup_inj. rewrite (wf_bij _ Hwf). apply NoDup_seqZ.
Qed.

Lemma wf_empty_slot :
  ∃ e, 0 ≤ e < bucket_count m ∧ buckets m !! Z.to_nat e = Some FM_EMPTY_IDX.
Proof.
  destruct (occupied_has_empty (buckets m)) as [i Hi].
  { rewrite (wf_bij _ Hwf), length_seqZ, (wf_buckets_len _ Hwf).
    pose proof (wf_room _ Hwf). pose proof wf_len_bounds. lia. }
  exists (Z.of_nat i). rewrite Nat2Z.id. split; [|done].
  apply lookup_lt_Some in Hi. rewrite (wf_buckets_len _ Hwf) in Hi. lia.
Qed.

Lemma wf_slot_lookup b :
  0 ≤ b < bucket_count m → ∃ p, buckets m !! Z.to_nat b = Some p.
Proof.
  intros Hb. apply lookup_lt_is_Some_2. rewrite (wf_buckets_len _ Hwf). lia.
Qed.

Lemma wf_key_cell p :
  0 ≤ p < length (keys m) →
  ∃ kc, fm_vec_at (keys m) p = Some kc ∧ List.length kc = Z.to_nat (key_size m) ∧
        hash_at (hashes m) p = Some (fm_hash kc (key_size m)).
Proof.
  intros Hp. pose proof (vec_len _ _ (wf_keys _ Hwf)).
  destruct (vec_wf_at _ _ p (wf_keys _ Hwf)) as (kc & Hkc & Hlen); [lia|].
  exists kc. split_and!; try done. by apply (wf_cache _ Hwf).
Qed.

Lemma wf_ideal_slot p kc :
  0 ≤ p < length (keys m) → fm_vec_at (keys m) p = Some kc →
  ideal_slot (bucket_count m) (hashes m) p =
    Z.land (fm_hash kc (key_size m)) (bucket_mask m).
Proof.
  intros Hp Hkc. unfold ideal_slot.
  rewrite (wf_cache _ Hwf _ _ Hp Hkc), (wf_mask _ Hwf). done.
Qed.

Lemma key_at_ideal p key :
  key_at m p key →
  ideal_slot (bucket_count m) (hashes m) p =
    Z.land (fm_hash key (key_size m)) (bucket_mask m).
Proof.
  intros [Hp Hk]. rewrite (wf_ideal_slot _ _ Hp Hk). by rewrite fm_hash_read_bytes.
Qed.

Lemma key_at_inj p q key : key_at m p key → key_at m q key → p = q.
Proof. intros [Hp Hk] [Hq Hk']. by eapply (wf_distinct _ Hwf). Qed.

Lemma key_at_dec key : (∃ p, key_at m p key) ∨ key_absent m key.
Proof.
  set (kb := read_bytes key (key_size m)).
  set (l := take (Z.to_nat (length (keys m))) (data (keys m))).
  destruct (decide (kb ∈ l)) as [Hin|Hnin].
  - left. apply list_elem_of_lookup in Hin as [i Hi].
    apply lookup_take_Some in Hi as [Hi Hlt].
    exists (Z.of_nat i). split; [lia|]. unfold fm_vec_at. by rewrite Nat2Z.id.
  - right. intros p [Hp Hk]. apply Hnin. apply list_elem_of_lookup.
    exists (Z.to_nat p). apply lookup_take_Some. split; [done|lia].
Qed.
End wf_facts.

(** ** The probe loops of [fm_get], [fm_put] and [fm_erase] *)

Section probing.
Context (m : _FastMap) (Hwf : map_wf m).

#[local] Abbreviation bc := (bucket_count m).
#[local] Abbreviation D := (dist_at (bucket_count m) (hashes m) (buckets m)).

(** What a probe reads at an occupied slot. *)
Lemma wf_slot_cells b p :
  0 ≤ b < bc → buckets m !! Z.to_nat b = Some p → p ≠ FM_EMPTY_IDX →
  ∃ kc h, fm_vec_at (keys m) p = Some kc ∧
          List.length kc = Z.to_nat (key_size m) ∧
          hash_at (hashes m) p = Some h ∧
          probe_dist b (bucket_mask m) (Z.land h (bucket_mask m)) = D b ∧
          0 ≤ D b.
Proof.
  intros Hb Hp Hne.
  pose proof (wf_slot_ref m Hwf _ _ Hp Hne) as Hpr.
  destruct (wf_key_cell m Hwf p Hpr) as (kc & Hkc & Hlen & Hh).
  exists kc, (fm_hash kc (key_size m)). split_and!; try done.
  - rewrite (wf_mask _ Hwf).
    rewrite probe_dist_slot; [|apply Hwf|done|apply land_mask_range, Hwf].
    rewrite (dist_at_occupied _ _ _ _ _ Hp Hne). unfold ideal_slot. by rewrite Hh.
  - rewrite (dist_at_occupied _ _ _ _ _ Hp Hne).
    pose proof (ideal_slot_range _ (wf_size _ Hwf) (hashes m) p). slots.
Qed.

Lemma memcmp_eq_cell kc key p :
  0 ≤ p < length (keys m) → fm_vec_at (keys m) p = Some kc →
  List.length kc = Z.to_nat (key_size m) →
  memcmp_eq kc key (key_size m) = true ↔ key_at m p key.
Proof.
  intros Hp Hkc Hlen. rewrite memcmp_eq_true, (read_bytes_exact kc) by done.
  unfold key_at. rewrite Hkc. split; [by intros ->|]. by intros [_ [= ->]].
Qed.

(** On the way from the ideal slot of a stored key to its slot, every slot
    is occupied by an entry at least as far from home as the probe. *)
Lemma probe_path_slot key p t b d :
  key_at m p key →
  0 ≤ t < bc → buckets m !! Z.to_nat t = Some p →
  0 ≤ b < bc →
  d = D t - slot_dist bc t b → 0 ≤ d →
  ∃ p' kc h, buckets m !! Z.to_nat b = Some p' ∧ p' ≠ FM_EMPTY_IDX ∧
    fm_vec_at (keys m) p' = Some kc ∧ hash_at (hashes m) p' = Some h ∧
    d ≤ probe_dist b (bucket_mask m) (Z.land h (bucket_mask m)) ∧
    memcmp_eq kc key (key_size m) = bool_decide (b = t) ∧
    (b = t → p' = p).
Proof.
  intros Hk Ht Htp Hb Hd Hd0.
  pose proof (monotone_dist_chain _ (wf_size _ Hwf) _ b t (wf_rh _ Hwf) Hb Ht) as Hchain.
  destruct (wf_slot_lookup m Hwf b Hb) as [p' Hp'].
  assert (p' ≠ FM_EMPTY_IDX) as Hne.
  { intros ->. rewrite (dist_at_empty _ _ _ _ Hp') in Hchain. lia. }
  destruct (wf_slot_cells b p' Hb Hp' Hne) as (kc & h & Hkc & Hlen & Hh & Hpd & HD).
  pose proof (wf_slot_ref m Hwf _ _ Hp' Hne) as Hpr.
  exists p', kc, h. split_and!; try done.
  - rewrite Hpd. lia.
  - destruct (decide (b = t)) as [->|Hbt].
    + rewrite bool_decide_eq_true_2 by done.
      apply (memcmp_eq_cell kc key p'); try done. congruence.
    + rewrite bool_decide_eq_false_2 by done.
      apply not_true_is_false. intros Hcmp.
      apply (memcmp_eq_cell kc key p') in Hcmp; try done.
      assert (p' = p) as -> by (by eapply key_at_inj).
      pose proof (wf_slot_inj m Hwf _ _ _ Hne Hp' Htp). lia.
  - intros ->. congruence.
Qed.

(** A key that is not stored matches no occupied slot. *)
Lemma probe_absent_slot key b p :
  key_absent m key →
  0 ≤ b < bc → buckets m !! Z.to_nat b = Some p → p ≠ FM_EMPTY_IDX →
  ∃ kc h, fm_vec_at (keys m) p = Some kc ∧ hash_at (hashes m) p = Some h ∧
          memcmp_eq kc key (key_size m) = false.
Proof.
  intros Habs Hb Hp Hne.
  destruct (wf_slot_cells b p Hb Hp Hne) as (kc & h & Hkc & Hlen & Hh & _).
  pose proof (wf_slot_ref m Hwf _ _ Hp Hne) as Hpr.
  exists kc, h. split_and!; try done.
  apply not_true_is_false. intros Hcmp.
  apply (memcmp_eq_cell kc key p) in Hcmp; try done. by apply (Habs p).
Qed.

Lemma fm_get_loop_found fuel key p t b d :
  key_at m p key →
  0 ≤ t < bc → buckets m !! Z.to_nat t = Some p →
  0 ≤ b < bc →
  d = D t - slot_dist bc t b → 0 ≤ d →
  slot_dist bc t b < Z.of_nat fuel →
  fm_get_loop fuel m key b d = Some (Some p).
Proof.
  intros Hk Ht Htp. pose proof (wf_bc_bounds m Hwf) as Hsz.
  revert b d. induction fuel as [|fuel IH]; intros b d Hb Hd Hd0 Hfuel.
  { slots. }
  destruct (probe_path_slot key p t b d) as (p' & kc & h & Hp' & Hne & Hkc & Hh & Hdist & Hcmp & Hpt);
    try done.
  simpl. rewrite Hp'. simpl.
  destruct (Z.eqb_spec p' FM_EMPTY_IDX); [done|].
  rewrite Hkc. simpl. rewrite Hcmp. case_bool_decide as Hbt.
  { by rewrite Hpt. }
  rewrite Hh. simpl.
  destruct (Z.ltb_spec (probe_dist b (bucket_mask m) (Z.land h (bucket_mask m))) d); [lia|].
  rewrite (wf_mask _ Hwf), next_bucket_succ; [|apply Hwf|done].
  pose proof (dist_at_upper _ (wf_size _ Hwf) (hashes m) (buckets m) t Ht).
  unfold wrap64. rewrite Z.mod_small by slots.
  apply IH; slots.
Qed.

Lemma fm_get_loop_absent fuel key e b d :
  key_absent m key →
  0 ≤ e < bc → buckets m !! Z.to_nat e = Some FM_EMPTY_IDX →
  0 ≤ b < bc →
  slot_dist bc e b < Z.of_nat fuel →
  fm_get_loop fuel m key b d = Some None.
Proof.
  intros Habs He Hemp. pose proof (wf_bc_bounds m Hwf) as Hsz.
  revert b d. induction fuel as [|fuel IH]; intros b d Hb Hfuel.
  { slots. }
  destruct (wf_slot_lookup m Hwf b Hb) as [p Hp].
  simpl. rewrite Hp. simpl.
  destruct (Z.eqb_spec p FM_EMPTY_IDX) as [->|Hne]; [done|].
  destruct (probe_absent_slot key b p) as (kc & h & Hkc & Hh & Hcmp); try done.
  rewrite ?Hkc, ?Hh; simpl; rewrite ?Hcmp, ?Hkc, ?Hh; simpl; rewrite ?Hcmp.
  case_match; [done|].
  rewrite (wf_mask _ Hwf), next_bucket_succ; [|apply Hwf|done].
  assert (b ≠ e) by congruence.
  apply IH; slots.
Qed.

Lemma fm_put_probe_found fuel key p t b d :
  key_at m p key →
  0 ≤ t < bc → buckets m !! Z.to_nat t = Some p →
  0 ≤ b < bc →
  d = D t - slot_dist bc t b → 0 ≤ d →
  slot_dist bc t b < Z.of_nat fuel →
  fm_put_probe fuel m key b d = Some (Some p).
Proof.
  intros Hk Ht Htp. pose proof (wf_bc_bounds m Hwf) as Hsz.
  revert b d. induction fuel as [|fuel IH]; intros b d Hb Hd Hd0 Hfuel.
  { slots. }
  destruct (probe_path_slot key p t b d) as (p' & kc & h & Hp' & Hne & Hkc & Hh & Hdist & Hcmp & Hpt);
    try done.
  simpl. rewrite Hp'. simpl.
  destruct (Z.eqb_spec p' FM_EMPTY_IDX); [done|].
  rewrite Hh. simpl.
  destruct (Z.ltb_spec (probe_dist b (bucket_mask m) (Z.land h (bucket_mask m))) d); [lia|].
  rewrite Hkc. simpl. rewrite Hcmp. case_bool_decide as Hbt.
  { by rewrite Hpt. }
  rewrite (wf_mask _ Hwf), next_bucket_succ; [|apply Hwf|done].
  pose proof (dist_at_upper _ (wf_size _ Hwf) (hashes m) (buckets m) t Ht).
  unfold wrap64. rewrite Z.mod_small by slots.
  apply IH; slots.
Qed.

Lemma fm_put_probe_absent fuel key e b d :
  key_absent m key →
  0 ≤ e < bc → buckets m !! Z.to_nat e = Some FM_EMPTY_IDX →
  0 ≤ b < bc →
  slot_dist bc e b < Z.of_nat fuel →
  fm_put_probe fuel m key b d = Some None.
Proof.
  intros Habs He Hemp. pose proof (wf_bc_bounds m Hwf) as Hsz.
  revert b d. induction fuel as [|fuel IH]; intros b d Hb Hfuel.
  { slots. }
  destruct (wf_slot_lookup m Hwf b Hb) as [p Hp].
  simpl. rewrite Hp. simpl.
  destruct (Z.eqb_spec p FM_EMPTY_IDX) as [->|Hne]; [done|].
  destruct (probe_absent_slot key b p) as (kc & h & Hkc & Hh & Hcmp); try done.
  rewrite ?Hkc, ?Hh; simpl; rewrite ?Hcmp, ?Hkc, ?Hh; simpl; rewrite ?Hcmp.
  case_match; [done|].
  rewrite (wf_mask _ Hwf), next_bucket_succ; [|apply Hwf|done].
  assert (b ≠ e) by congruence.
  apply IH; slots.
Qed.

Lemma fm_erase_loop_found fuel inner key p t b d :
  key_at m p key →
  0 ≤ t < bc → buckets m !! Z.to_nat t = Some p →
  0 ≤ b < bc →
  d = D t - slot_dist bc t b → 0 ≤ d →
  slot_dist bc t b < Z.of_nat fuel →
  fm_erase_loop fuel inner m key b d =
    (m' ← fm_erase_found inner m t p; Some (true, m')).
Proof.
  intros Hk Ht Htp. pose proof (wf_bc_bounds m Hwf) as Hsz.
  revert b d. induction fuel as [|fuel IH]; intros b d Hb Hd Hd0 Hfuel.
  { slots. }
  destruct (probe_path_slot key p t b d) as (p' & kc & h & Hp' & Hne & Hkc & Hh & Hdist & Hcmp & Hpt);
    try done.
  simpl. rewrite Hp'. simpl.
  destruct (Z.eqb_spec p' FM_EMPTY_IDX); [done|].
  rewrite Hh. simpl.
  destruct (Z.ltb_spec (probe_dist b (bucket_mask m) (Z.land h (bucket_mask m))) d); [lia|].
  rewrite Hkc. simpl. rewrite Hcmp. case_bool_decide as Hbt.
  { subst b. by rewrite Hpt. }
  rewrite (wf_mask _ Hwf), next_bucket_succ; [|apply Hwf|done].
  pose proof (dist_at_upper _ (wf_size _ Hwf) (hashes m) (buckets m) t Ht).
  unfold wrap64. rewrite Z.mod_small by slots.
  apply IH; slots.
Qed.

Lemma fm_erase_loop_absent fuel inner key e b d :
  key_absent m key →
  0 ≤ e < bc → buckets m !! Z.to_nat e = Some FM_EMPTY_IDX →
  0 ≤ b < bc →
  slot_dist bc e b < Z.of_nat fuel →
  fm_erase_loop fuel inner m key b d = Some (false, m).
Proof.
  intros Habs He Hemp. pose proof (wf_bc_bounds m Hwf) as Hsz.
  revert b d. induction fuel as [|fuel IH]; intros b d Hb Hfuel.
  { slots. }
  destruct (wf_slot_lookup m Hwf b Hb) as [p Hp].
  simpl. rewrite Hp. simpl.
  destruct (Z.eqb_spec p FM_EMPTY_IDX) as [->|Hne]; [done|].
  destruct (probe_absent_slot key b p) as (kc & h & Hkc & Hh & Hcmp); try done.
  rewrite ?Hkc, ?Hh; simpl; rewrite ?Hcmp, ?Hkc, ?Hh; simpl; rewrite ?Hcmp.
  case_match; [done|].
  rewrite (wf_mask _ Hwf), next_bucket_succ; [|apply Hwf|done].
  assert (b ≠ e) by congruence.
  apply IH; slots.
Qed.
End probing.

(** ** [fm_get] *)

Lemma key_at_not_empty m p key : map_wf m → key_at m p key → p ≠ FM_EMPTY_IDX.
Proof.
  intros Hwf [Hp _] ->. pose proof (wf_len_bounds m Hwf).
  unfold FM_EMPTY_IDX in Hp. lia.
Qed.

Lemma hash_slot_range m key :
  map_wf m → 0 ≤ Z.land (fm_hash key (key_size m)) (bucket_mask m) < bucket_count m.
Proof.
  intros Hwf. rewrite (wf_mask _ Hwf). apply land_mask_range, Hwf.
Qed.

(** The probe for a stored key starts at its ideal slot, at distance 0. *)
Lemma probe_start m key p :
  map_wf m → key_at m p key →
  ∃ t, 0 ≤ t < bucket_count m ∧ buckets m !! Z.to_nat t = Some p ∧
    let b := Z.land (fm_hash key (key_size m)) (bucket_mask m) in
    0 = dist_at (bucket_count m) (hashes m) (buckets m) t - slot_dist (bucket_count m) t b.
Proof.
  intros Hwf Hk. destruct (wf_slot_of m Hwf p) as (t & Ht & Htp & Hne); [apply Hk|].
  exists t. split_and!; try done; try lia. cbv zeta.
  rewrite (dist_at_occupied _ _ _ _ _ Htp Hne), (key_at_ideal m Hwf p key Hk). lia.
Qed.

Lemma fm_get_found m key p fuel :
  map_wf m → key_at m p key → bucket_count m ≤ Z.of_nat fuel →
  fm_get fuel m key = Some (Some p).
Proof.
  intros Hwf Hk Hfuel. destruct (probe_start m key p Hwf Hk) as (t & Ht & Htp & Hd).
  pose proof (hash_slot_range m key Hwf) as Hb.
  unfold fm_get. apply (fm_get_loop_found m Hwf fuel key p t); try done; slots.
Qed.

Lemma fm_get_absent m key fuel :
  map_wf m → key_absent m key → bucket_count m ≤ Z.of_nat fuel →
  fm_get fuel m key = Some None.
Proof.
  intros Hwf Hk Hfuel. destruct (wf_empty_slot m Hwf) as (e & He & Hemp).
  pose proof (hash_slot_range m key Hwf) as Hb.
  unfold fm_get. apply (fm_get_loop_absent m Hwf fuel key e); try done; slots.
Qed.

(** ** [fm_resize] *)

Lemma seqZ_snoc (n : Z) : 0 ≤ n → seqZ 0 (n + 1) = seqZ 0 n ++ [n].
Proof. intros Hn. rewrite seqZ_app by lia. done. Qed.

Lemma robin_hood_empty nc H :
  16 ≤ nc → robin_hood nc H (replicate (Z.to_nat nc) FM_EMPTY_IDX).
Proof.
  intros Hnc b Hb. unfold dist_at.
  rewrite !lookup_replicate_2 by slots. simpl. lia.
Qed.

Lemma occupied_replicate_empty n : occupied (replicate n FM_EMPTY_IDX) = [].
Proof.
  induction n as [|n IH]; [done|]. simpl. unfold occupied in *.
  rewrite filter_cons, decide_False by (intros Hx; by apply Hx). done.
Qed.

Section resize.
Context (m : _FastMap) (nc : Z).
Context (Hnc : table_size nc).
Context (Hread : ∀ p, 0 ≤ p < length (keys m) → is_Some (hash_at (hashes m) p)).
Context (Hroom : length (keys m) < nc).

Lemma fm_resize_loop_spec fuel steps nb i :
  List.length nb = Z.to_nat nc →
  occupied nb ≡ₚ seqZ 0 i →
  robin_hood nc (hashes m) nb →
  0 ≤ i ≤ length (keys m) →
  Z.of_nat steps = length (keys m) - i →
  nc ≤ Z.of_nat fuel →
  ∃ B', fm_resize_loop fuel steps m nb (nc - 1) i = Some B' ∧
        List.length B' = Z.to_nat nc ∧
        occupied B' ≡ₚ seqZ 0 (length (keys m)) ∧
        robin_hood nc (hashes m) B'.
Proof.
  pose proof (table_size_bounds _ Hnc) as Hsz.
  revert nb i. induction steps as [|steps IH]; intros nb i Hlen Hocc Hrh Hi Hsteps Hfuel.
  - simpl. destruct (Z.ltb_spec i (length (keys m))); [lia|].
    assert (i = length (keys m)) as -> by lia. eauto.
  - simpl. destruct (Z.ltb_spec i (length (keys m))); [|lia].
    destruct (Hread i) as [h Hh]; [lia|]. rewrite Hh. simpl.
    destruct (occupied_has_empty nb) as [e He].
    { rewrite Hocc, length_seqZ. lia. }
    assert (0 ≤ Z.of_nat e < nc) as Her.
    { apply lookup_lt_Some in He. lia. }
    pose proof (land_mask_range nc h Hnc) as Hb.
    unfold fm_place_index, wrap32, wrap64. rewrite !Z.mod_small by lia.
    destruct (fm_place_index_loop_spec nc Hnc (hashes m) (i :: seqZ 0 i) fuel nb
                (Z.land h (nc - 1)) i 0 (Z.of_nat e))
      as (B' & -> & Hlen' & Hrh' & Hocc'); try done.
    + intros p [->|Hp%elem_of_seqZ]%elem_of_cons.
      * split; [unfold FM_EMPTY_IDX; lia|]. apply Hread. lia.
      * split; [unfold FM_EMPTY_IDX; lia|]. apply Hread. lia.
    + by rewrite Hocc.
    + by rewrite Nat2Z.id.
    + unfold ideal_slot. rewrite Hh. simpl. slots.
    + pose proof (dist_at_lower nc Hnc (hashes m) nb (pred_slot nc (Z.land h (nc - 1)))).
      slots.
    + slots.
    + simpl. apply IH; try done; try lia.
      rewrite Hocc', seqZ_snoc by lia. apply Permutation_cons_append.
Qed.
End resize.

(** ** The load-factor test *)

(** [bucket_count * 0.80f] is exact for every table size. *)
Lemma load_threshold k :
  4 ≤ k ≤ 32 →
  f32_mul (f32_of_size (2 ^ k)) f32_0_80 = {| mant := 13421773; expo := k - 24 |}.
Proof.
  intros Hk.
  replace k with (4 + Z.of_nat (Z.to_nat (k - 4))) by lia.
  assert (Z.to_nat (k - 4) ≤ 28)%nat as Hn by lia.
  generalize dependent (Z.to_nat (k - 4)). intros n Hn.
  do 29 (destruct n as [|n]; [vm_compute; reflexivity|]). lia.
Qed.

(** At or above the threshold the comparison holds, also when [(float)len]
    is rounded. *)
Lemma f32_ge_threshold k len :
  4 ≤ k ≤ 32 → len < 2 ^ k → 13421773 * 2 ^ k ≤ len * 2 ^ 24 →
  f32_ge (f32_of_size len) {| mant := 13421773; expo := k - 24 |} = true.
Proof.
  intros Hk Hlt Hge.
  assert (0 < 2 ^ (k - 1)) as HP by (apply Z.pow_pos_nonneg; lia).
  assert (2 ^ k = 2 * 2 ^ (k - 1)) as Hk2.
  { rewrite <- Z.pow_succ_r by lia. f_equal. lia. }
  assert (Z.log2 len = k - 1) as Hlog.
  { apply Z.log2_unique; [lia|]. replace (Z.succ (k - 1)) with k by lia.
    pose proof Hge as Hge'. change (2 ^ 24) with 16777216 in Hge'. lia. }
  unfold f32_ge, f32_of_size, round24. rewrite Hlog.
  destruct (Z.leb_spec (k - 1 - 23) 0) as [Hs|Hs]; cbn [mant expo].
  - rewrite Z.min_r by lia. apply Z.leb_le.
    replace (k - 24 - (k - 24)) with 0 by lia.
    replace (0 - (k - 24)) with (24 - k) by lia.
    assert (0 < 2 ^ k) as Hpk by lia.
    assert (2 ^ 24 = 2 ^ (24 - k) * 2 ^ k) as H24.
    { rewrite <- Z.pow_add_r by lia. f_equal. lia. }
    rewrite H24 in Hge. rewrite Z.mul_assoc in Hge.
    apply Z.mul_le_mono_pos_r in Hge; [|done]. lia.
  - set (s := k - 1 - 23) in *.
    rewrite Z.min_l by lia.
    replace (k - 24 - (0 + s)) with 0 by lia.
    replace (0 + s - (0 + s)) with 0 by lia.
    apply Z.leb_le.
    assert (13421773 ≤ Z.shiftr len s) as Hq.
    { rewrite Z.shiftr_div_pow2 by lia.
      assert (0 < 2 ^ s) as Hps by (apply Z.pow_pos_nonneg; lia).
      apply Z.div_le_lower_bound; [done|].
      assert (2 ^ k = 2 ^ s * 2 ^ 24) as Hks.
      { rewrite <- Z.pow_add_r by lia. f_equal. lia. }
      rewrite Hks in Hge.
      rewrite Z.mul_assoc in Hge.
      apply Z.mul_le_mono_pos_r in Hge; [|lia]. lia. }
    case_match; lia.
Qed.

Lemma load_exceeded_false_lt m :
  map_wf m → load_exceeded m = false →
  length (keys m) * 2 ^ 24 < 13421773 * bucket_count m.
Proof.
  intros Hwf Hload. destruct (wf_size _ Hwf) as (k & Hk & Hbc).
  pose proof (wf_room _ Hwf) as Hroom.
  destruct (Z.lt_ge_cases (length (keys m) * 2 ^ 24) (13421773 * bucket_count m))
    as [|Hge]; [done|].
  unfold load_exceeded in Hload.
  rewrite (wf_load _ Hwf), Hbc, load_threshold in Hload by done.
  rewrite f32_ge_threshold in Hload; [done|done|lia|lia].
Qed.

Lemma load_exceeded_false_room m :
  map_wf m → load_exceeded m = false → length (keys m) + 1 < bucket_count m.
Proof.
  intros Hwf Hload. pose proof (load_exceeded_false_lt m Hwf Hload).
  pose proof (wf_bc_bounds m Hwf). lia.
Qed.

(** Below [2 ^ 24] entries the conversion to [float] is exact and the test
    is the comparison of [length] with [bucket_count * 0.80f]. *)
Lemma load_exceeded_exact m :
  map_wf m → length (keys m) < 2 ^ 24 →
  load_exceeded m = true ↔ 13421773 * bucket_count m ≤ length (keys m) * 2 ^ 24.
Proof.
  intros Hwf Hlen. split.
  - intros Hload. destruct (wf_size _ Hwf) as (k & Hk & Hbc).
    unfold load_exceeded in Hload.
    rewrite (wf_load _ Hwf), Hbc, load_threshold in Hload by done.
    pose proof (wf_len_bounds m Hwf) as Hl.
    unfold f32_ge, f32_of_size, round24 in Hload.
    assert (Z.log2 (length (keys m)) - 23 ≤ 0) as Hlog.
    { destruct (decide (length (keys m) = 0)) as [->|]; [simpl; lia|].
      assert (Z.log2 (length (keys m)) < 24) by (apply Z.log2_lt_pow2; lia). lia. }
    destruct (Z.leb_spec (Z.log2 (length (keys m)) - 23) 0); [|lia].
    cbn [mant expo] in Hload. apply Z.leb_le in Hload.
    rewrite Hbc.
    destruct (Z.le_gt_cases k 24).
    + rewrite Z.min_r in Hload by lia.
      replace (k - 24 - (k - 24)) with 0 in Hload by lia.
      replace (0 - (k - 24)) with (24 - k) in Hload by lia.
      assert (2 ^ 24 = 2 ^ (24 - k) * 2 ^ k) as ->.
      { rewrite <- Z.pow_add_r by lia. f_equal. lia. }
      assert (0 < 2 ^ k) by (apply Z.pow_pos_nonneg; lia).
      rewrite Z.mul_assoc. apply Z.mul_le_mono_pos_r; [done|]. lia.
    + rewrite Z.min_l in Hload by lia.
      replace (k - 24 - 0) with (k - 24) in Hload by lia.
      assert (2 ^ k = 2 ^ (k - 24) * 2 ^ 24) as ->.
      { rewrite <- Z.pow_add_r by lia. f_equal. lia. }
      rewrite Z.mul_assoc. apply Z.mul_le_mono_pos_r; [lia|]. lia.
  - intros Hge. destruct (load_exceeded m) eqn:Hload; [done|].
    pose proof (load_exceeded_false_lt m Hwf Hload). lia.
Qed.

Lemma fm_resize_spec m nc fuel :
  map_wf m → table_size nc → length (keys m) < nc → nc ≤ Z.of_nat fuel →
  ∃ B', fm_resize fuel m nc = Some (set_buckets m B' nc (nc - 1)) ∧
        map_wf (set_buckets m B' nc (nc - 1)).
Proof.
  intros Hwf Hnc Hroom Hfuel. pose proof (table_size_bounds _ Hnc) as Hsz.
  pose proof (wf_len_bounds m Hwf) as Hlen.
  unfold fm_resize. cbv zeta. unfold wrap64. rewrite Z.mod_small by lia.
  destruct (fm_resize_loop_spec m nc Hnc) with
    (fuel := fuel) (steps := Z.to_nat (length (keys m)))
    (nb := replicate (Z.to_nat nc) FM_EMPTY_IDX) (i := 0)
    as (B' & -> & HlenB & Hocc & Hrh); try done; try lia.
  - intros p Hp. destruct (wf_key_cell m Hwf p Hp) as (kc & _ & _ & ->). eauto.
  - apply length_replicate.
  - by rewrite occupied_replicate_empty.
  - apply robin_hood_empty. lia.
  - simpl. exists B'. split; [done|].
    destruct Hwf. split; try done.
Qed.

(** The Robin Hood order only reads the digests of the entries in the
    table. *)
Lemma robin_hood_ext bc H H' B :
  (∀ i p, B !! i = Some p → p ≠ FM_EMPTY_IDX → hash_at H' p = hash_at H p) →
  robin_hood bc H B → robin_hood bc H' B.
Proof.
  intros Hext HB b Hb.
  assert (∀ x, dist_at bc H' B x = dist_at bc H B x) as Heq.
  { intros x. unfold dist_at. destruct (B !! Z.to_nat x) as [p|] eqn:Hp; [|done].
    destruct (Z.eqb_spec p FM_EMPTY_IDX); [done|].
    unfold ideal_slot. by rewrite (Hext _ _ Hp). }
  rewrite !Heq. by apply HB.
Qed.

(** ** [fm_put] *)

(** The map on which [fm_put] probes: the map itself, or the map with its
    bucket array rebuilt at twice the size. *)
Lemma fm_put_grow m fuel :
  map_wf m → bucket_count m ≤ 2 ^ 31 → 2 * bucket_count m ≤ Z.of_nat fuel →
  ∃ m1, (if load_exceeded m
         then fm_resize fuel m (wrap64 (bucket_count m * 2))
         else Some m) = Some m1 ∧
        map_wf m1 ∧
        keys m1 = keys m ∧ values m1 = values m ∧ hashes m1 = hashes m ∧
        key_size m1 = key_size m ∧ val_size m1 = val_size m ∧
        bucket_count m1 = (if load_exceeded m then 2 * bucket_count m else bucket_count m) ∧
        (load_exceeded m = false → m1 = m) ∧
        length (keys m) + 1 < bucket_count m1.
Proof.
  intros Hwf Hbc Hfuel. pose proof (wf_bc_bounds m Hwf) as Hsz.
  destruct (load_exceeded m) eqn:Hload.
  - unfold wrap64. rewrite Z.mod_small by lia.
    destruct (fm_resize_spec m (bucket_count m * 2) fuel Hwf) as (B' & -> & Hwf').
    + destruct (wf_size _ Hwf) as (k & Hk & Hk2). exists (k + 1).
      rewrite Hk2 in Hbc.
      assert (k < 32).
      { destruct (Z.lt_ge_cases k 32); [done|].
        assert (2 ^ 32 ≤ 2 ^ k) by (apply Z.pow_le_mono_r; lia). lia. }
      split; [lia|]. rewrite Z.pow_add_r, Hk2 by lia. lia.
    + pose proof (wf_room _ Hwf). lia.
    + lia.
    + eexists. split; [done|]. split_and!; try done; simpl; try lia.
      pose proof (wf_room _ Hwf). lia.
  - exists m. split_and!; try done.
    by apply load_exceeded_false_room.
Qed.

Lemma fm_put_existing m key value p fuel :
  map_wf m → bucket_count m ≤ 2 ^ 31 → 2 * bucket_count m ≤ Z.of_nat fuel →
  key_at m p key →
  ∃ m', fm_put fuel m key value = Some m' ∧ map_wf m' ∧
    keys m' = keys m ∧ hashes m' = hashes m ∧
    key_size m' = key_size m ∧ val_size m' = val_size m ∧
    length (values m') = length (values m) ∧
    fm_vec_at (values m') p = Some (read_bytes value (val_size m)) ∧
    (∀ q, 0 ≤ q → q ≠ p → fm_vec_at (values m') q = fm_vec_at (values m) q) ∧
    bucket_count m' = (if load_exceeded m then 2 * bucket_count m else bucket_count m) ∧
    (load_exceeded m = false → buckets m' = buckets m ∧ bucket_mask m' = bucket_mask m).
Proof.
  intros Hwf Hbc Hfuel Hk.
  destruct (fm_put_grow m fuel Hwf Hbc Hfuel)
    as (m1 & Hgrow & Hwf1 & Hkeys & Hvals & Hhash & Hks & Hvs & Hbc1 & Hsame & Hroom).
  unfold fm_put. rewrite Hgrow. simpl.
  assert (key_at m1 p key) as Hk1.
  { unfold key_at. by rewrite Hkeys, Hks. }
  destruct (probe_start m1 key p Hwf1 Hk1) as (t & Ht & Htp & Hd).
  pose proof (hash_slot_range m1 key Hwf1) as Hb.
  assert (bucket_count m1 ≤ Z.of_nat fuel) as Hfuel1.
  { rewrite Hbc1. case_match; lia. }
  rewrite (fm_put_probe_found m1 Hwf1 fuel key p t) by (try done; slots).
  simpl.
  destruct (fm_vec_write_spec (values m1) (val_size m1) p value)
    as (v' & -> & Hv' & Hlen' & Hcap' & Hat & Hoth).
  { apply Hwf1. }
  { destruct Hk1 as [Hp _]. pose proof (vec_len _ _ (wf_values _ Hwf1)).
    rewrite (wf_values_len _ Hwf1) in *. lia. }
  simpl. eexists. split; [done|]. rewrite Hvs in *.
  split_and!; simpl; try done; try congruence.
  - destruct Hwf1. split; simpl; try done; try congruence.
  - intros q Hq Hne. rewrite Hoth by done. by rewrite Hvals.
  - intros Hload. by rewrite (Hsame Hload).
Qed.

Lemma key_absent_ext m m1 key :
  keys m1 = keys m → key_size m1 = key_size m → key_absent m key → key_absent m1 key.
Proof. intros Hk Hs Habs p. unfold key_at. rewrite Hk, Hs. apply Habs. Qed.

Lemma fm_put_new m key value fuel :
  map_wf m → bucket_count m ≤ 2 ^ 31 → 2 * bucket_count m ≤ Z.of_nat fuel →
  key_absent m key →
  ∃ m', fm_put fuel m key value = Some m' ∧ map_wf m' ∧
    key_size m' = key_size m ∧ val_size m' = val_size m ∧
    length (keys m') = length (keys m) + 1 ∧
    fm_vec_at (keys m') (length (keys m)) = Some (read_bytes key (key_size m)) ∧
    fm_vec_at (values m') (length (keys m)) = Some (read_bytes value (val_size m)) ∧
    hash_at (hashes m') (length (keys m)) = Some (fm_hash key (key_size m)) ∧
    (∀ q, 0 ≤ q < length (keys m) →
       fm_vec_at (keys m') q = fm_vec_at (keys m) q ∧
       fm_vec_at (values m') q = fm_vec_at (values m) q ∧
       fm_vec_at (hashes m') q = fm_vec_at (hashes m) q) ∧
    bucket_count m' = (if load_exceeded m then 2 * bucket_count m else bucket_count m).
Proof.
  intros Hwf Hbc Hfuel Habs.
  destruct (fm_put_grow m fuel Hwf Hbc Hfuel)
    as (m1 & Hgrow & Hwf1 & Hkeys & Hvals & Hhash & Hks & Hvs & Hbc1 & Hsame & Hroom).
  unfold fm_put. rewrite Hgrow. simpl.
  assert (bucket_count m1 ≤ Z.of_nat fuel) as Hfuel1.
  { rewrite Hbc1. case_match; lia. }
  pose proof (key_absent_ext m m1 key Hkeys Hks Habs) as Habs1.
  destruct (wf_empty_slot m1 Hwf1) as (e & He & Hemp).
  pose proof (hash_slot_range m1 key Hwf1) as Hb.
  pose proof (wf_bc_bounds m1 Hwf1) as Hsz.
  pose proof (wf_len_bounds m1 Hwf1) as Hlen.
  rewrite (fm_put_probe_absent m1 Hwf1 fuel key e) by (try done; slots).
  simpl.
  rewrite <- Hkeys in Hroom.
  set (L := length (keys m1)) in *.
  set (hash := fm_hash key (key_size m1)) in *.
  destruct (fm_vec_push_spec (keys m1) (key_size m1) key)
    as (k' & Hpk & Hk' & Hkl & Hkat & Hkoth); [apply Hwf1|fold L; lia|].
  destruct (fm_vec_push_spec (values m1) (val_size m1) value)
    as (v' & Hpv & Hv' & Hvl & Hvat & Hvoth);
    [apply Hwf1|rewrite (wf_values_len _ Hwf1); fold L; lia|].
  destruct (fm_vec_push_spec (hashes m1) 8 (le_bytes 8 hash))
    as (h' & Hph & Hh' & Hhl & Hhat & Hhoth);
    [apply Hwf1|rewrite (wf_hashes_len _ Hwf1); fold L; lia|].
  rewrite Hpk; simpl; rewrite Hpv; simpl; rewrite Hph.
  rewrite (wf_values_len _ Hwf1) in *. rewrite (wf_hashes_len _ Hwf1) in *.
  fold L in Hkl, Hkat, Hkoth, Hvl, Hvat, Hvoth, Hhl, Hhat, Hhoth.
  simpl.
  assert (hash_at h' L = Some hash) as HhL.
  { unfold hash_at. rewrite Hhat. simpl.
    rewrite read_bytes_exact by (by rewrite length_le_bytes).
    rewrite load64_le_bytes; [done|]. apply fm_hash_range. }
  assert (∀ q, 0 ≤ q < L → hash_at h' q = hash_at (hashes m1) q) as Hhq.
  { intros q Hq. unfold hash_at. by rewrite Hhoth. }
  unfold fm_place_index, wrap32. rewrite Z.mod_small by lia.
  rewrite (wf_mask _ Hwf1).
  destruct (fm_place_index_loop_spec (bucket_count m1) (wf_size _ Hwf1) h'
              (L :: seqZ 0 L) fuel (buckets m1)
              (Z.land hash (bucket_count m1 - 1)) L 0 e)
    as (B' & -> & HlenB & Hrh & Hocc); try done.
  - apply Hwf1.
  - intros q [->|Hq%elem_of_seqZ]%elem_of_cons.
    + split; [unfold FM_EMPTY_IDX; lia|]. rewrite HhL. eauto.
    + split; [unfold FM_EMPTY_IDX; lia|]. rewrite Hhq by lia.
      destruct (wf_key_cell m1 Hwf1 q) as (kc & _ & _ & ->); [lia|]. eauto.
  - by rewrite (wf_bij _ Hwf1).
  - eapply robin_hood_ext; [|apply Hwf1].
    intros i q Hi Hq. apply Hhq. by eapply wf_slot_ref.
  - by rewrite <- (wf_mask _ Hwf1).
  - unfold ideal_slot. rewrite HhL. simpl. rewrite <- (wf_mask _ Hwf1). slots.
  - pose proof (dist_at_lower _ (wf_size _ Hwf1) h' (buckets m1)
                  (pred_slot (bucket_count m1) (Z.land hash (bucket_count m1 - 1)))).
    rewrite <- (wf_mask _ Hwf1) in *. slots.
  - rewrite <- (wf_mask _ Hwf1). slots.
  - simpl. eexists. split; [done|].
    rewrite <- Hkeys, <- Hvals, <- Hhash, <- Hks, <- Hvs. fold L. fold hash.
    split_and!; simpl; try done.
    + split; simpl; try done; try apply Hwf1; try lia.
      * rewrite Hocc, Hkl, seqZ_snoc by lia. apply Permutation_cons_append.
      * intros i kc Hi Hkc. destruct (decide (i = L)) as [->|Hne].
        -- rewrite Hkat in Hkc. injection Hkc as <-.
           unfold hash. by rewrite fm_hash_read_bytes.
        -- rewrite Hkoth in Hkc by lia. rewrite Hhq by lia.
           apply (wf_cache _ Hwf1); [lia|done].
      * intros i j kc Hi Hj Hci Hcj.
        destruct (decide (i = L)) as [->|Hni], (decide (j = L)) as [->|Hnj]; try done.
        -- exfalso. rewrite Hkat in Hci. injection Hci as <-.
           rewrite Hkoth in Hcj by lia. apply (Habs1 j). split; [lia|done].
        -- exfalso. rewrite Hkat in Hcj. injection Hcj as <-.
           rewrite Hkoth in Hci by lia. apply (Habs1 i). split; [lia|done].
        -- rewrite Hkoth in Hci, Hcj by lia. apply (wf_distinct _ Hwf1 i j kc); try done; lia.
    + intros q Hq. by rewrite Hkoth, Hvoth, Hhoth.
Qed.

(** ** The bucket repairs of [fm_erase] *)

Lemma fm_update_bucket_loop_spec bc fuel B t b old new :
  table_size bc → List.length B = Z.to_nat bc →
  0 ≤ t < bc → B !! Z.to_nat t = Some old →
  (∀ i j : nat, B !! i = Some old → B !! j = Some old → i = j) →
  0 ≤ b < bc →
  slot_dist bc t b < Z.of_nat fuel →
  fm_update_bucket_loop fuel B (bc - 1) b old new = Some (<[Z.to_nat t := new]> B).
Proof.
  intros Hbc Hlen Ht Hold Hinj. pose proof (table_size_bounds _ Hbc) as Hsz.
  revert b. induction fuel as [|fuel IH]; intros b Hb Hfuel.
  { slots. }
  simpl. destruct (lookup_lt_is_Some_2 B (Z.to_nat b)) as [cur Hcur]; [lia|].
  rewrite Hcur. simpl. destruct (Z.eqb_spec cur old) as [->|Hne].
  - assert (Z.to_nat b = Z.to_nat t) as -> by (by apply Hinj). done.
  - rewrite next_bucket_succ by done.
    assert (b ≠ t) by congruence.
    apply IH; slots.
Qed.

(** The distances of a table in which slot [hole] counts as holding an
    entry at distance [dh]. *)
Definition hole_dist (D : Z → Z) (hole dh : Z) : Z → Z :=
  λ x, if decide (x = hole) then dh else D x.

Section backshift.
Context (m : _FastMap).
Context (Hbc : table_size (bucket_count m)).
Context (Hmask : bucket_mask m = bucket_count m - 1).

#[local] Abbreviation bc := (bucket_count m).
#[local] Abbreviation DA := (dist_at (bucket_count m) (hashes m)).

Definition readable_except (B : list Z) (hole : Z) : Prop :=
  ∀ x p, 0 ≤ x → x ≠ hole → B !! Z.to_nat x = Some p → p ≠ FM_EMPTY_IDX →
         is_Some (hash_at (hashes m) p).

Lemma robin_hood_clear B hole dh :
  List.length B = Z.to_nat bc → 0 ≤ hole < bc →
  monotone_dist bc (hole_dist (DA B) hole dh) →
  DA B (succ_slot bc hole) ≤ 0 →
  robin_hood bc (hashes m) (<[Z.to_nat hole := FM_EMPTY_IDX]> B).
Proof.
  intros Hlen Hh Hmono Hnext x Hx. pose proof (table_size_bounds _ Hbc) as Hsz.
  rewrite !dist_at_insert by slots. simpl.
  specialize (Hmono x Hx). unfold hole_dist in Hmono.
  pose proof (dist_at_lower _ Hbc (hashes m) B x ltac:(lia)).
  repeat case_decide; subst; try lia; slots.
Qed.

(** Once an entry was left in place, nothing moves any more: the scan runs
    to the next empty slot and clears the hole. *)
Lemma fm_backshift_scan fuel B hole next e :
  List.length B = Z.to_nat bc →
  readable_except B hole →
  robin_hood bc (hashes m) (<[Z.to_nat hole := FM_EMPTY_IDX]> B) →
  0 ≤ hole < bc → 0 ≤ next < bc → 0 ≤ e < bc →
  B !! Z.to_nat e = Some FM_EMPTY_IDX →
  1 ≤ slot_dist bc next hole ≤ slot_dist bc e hole →
  slot_dist bc e hole - slot_dist bc next hole < Z.of_nat fuel →
  fm_backshift fuel m B hole next = Some (<[Z.to_nat hole := FM_EMPTY_IDX]> B).
Proof.
  intros Hlen Hread Hrh Hh. pose proof (table_size_bounds _ Hbc) as Hsz.
  revert next. induction fuel as [|fuel IH]; intros next Hn He Hemp Hg Hfuel.
  { lia. }
  simpl. destruct (lookup_lt_is_Some_2 B (Z.to_nat next)) as [nv Hnv]; [lia|].
  destruct (lookup_lt_is_Some_2 B (Z.to_nat hole)) as [hv Hhv]; [lia|].
  rewrite Hnv. simpl. destruct (Z.eqb_spec nv FM_EMPTY_IDX) as [->|Hne].
  { rewrite Hhv. done. }
  assert (next ≠ hole) as Hnh by (intros ->; slots).
  destruct (Hread next nv) as [h Hhash]; try done; try lia.
  rewrite Hhash. simpl. rewrite Hmask.
  pose proof (land_mask_range bc h Hbc) as Hi.
  rewrite !shift_dist_slot, next_bucket_succ by done.
  assert (next ≠ e) as Hne' by congruence.
  pose proof (monotone_dist_chain _ Hbc _ hole next Hrh Hh Hn) as Hchain.
  rewrite !dist_at_insert in Hchain by slots.
  rewrite decide_False, decide_True in Hchain by done. simpl in Hchain.
  rewrite (dist_at_occupied _ _ _ _ _ Hnv Hne) in Hchain.
  unfold ideal_slot in Hchain. rewrite Hhash in Hchain. simpl in Hchain.
  destruct (Z.ltb_spec (slot_dist bc hole (Z.land h (bc - 1)))
                       (slot_dist bc next (Z.land h (bc - 1)))) as [Hlt|Hge].
  { exfalso. slots. }
  apply IH; try done; slots.
Qed.

Lemma fm_backshift_spec fuel B hole dh e :
  List.length B = Z.to_nat bc →
  readable_except B hole →
  monotone_dist bc (hole_dist (DA B) hole dh) →
  0 ≤ hole < bc → 0 ≤ e < bc → e ≠ hole →
  B !! Z.to_nat e = Some FM_EMPTY_IDX →
  slot_dist bc e hole < Z.of_nat fuel →
  ∃ B', fm_backshift fuel m B hole (next_bucket hole (bucket_mask m)) = Some B' ∧
        List.length B' = Z.to_nat bc ∧
        robin_hood bc (hashes m) B' ∧
        occupied B' ≡ₚ occupied (<[Z.to_nat hole := FM_EMPTY_IDX]> B).
Proof.
  pose proof (table_size_bounds _ Hbc) as Hsz.
  revert B hole dh. induction fuel as [|fuel IH];
    intros B hole dh Hlen Hread Hmono Hh He Heh Hemp Hfuel.
  { slots. }
  rewrite Hmask, next_bucket_succ by done.
  remember (succ_slot bc hole) as next eqn:Hnext.
  assert (0 ≤ next < bc) as Hn by (rewrite Hnext; slots).
  assert (next ≠ hole) as Hnh by (rewrite Hnext; slots).
  simpl. destruct (lookup_lt_is_Some_2 B (Z.to_nat next)) as [nv Hnv]; [lia|].
  destruct (lookup_lt_is_Some_2 B (Z.to_nat hole)) as [hv Hhv]; [lia|].
  rewrite Hnv. simpl. destruct (Z.eqb_spec nv FM_EMPTY_IDX) as [->|Hne].
  { rewrite Hhv. simpl. eexists. split; [done|].
    split_and!; [by rewrite length_insert| |done].
    eapply robin_hood_clear; try done.
    rewrite <- Hnext, (dist_at_empty _ _ _ _ Hnv). lia. }
  destruct (Hread next nv) as [h Hhash]; try done; try lia.
  rewrite Hhash. simpl. rewrite Hmask.
  pose proof (land_mask_range bc h Hbc) as Hi.
  rewrite !shift_dist_slot, next_bucket_succ by done.
  assert (DA B next = slot_dist bc next (Z.land h (bc - 1))) as HDn.
  { rewrite (dist_at_occupied _ _ _ _ _ Hnv Hne). unfold ideal_slot. by rewrite Hhash. }
  assert (next ≠ e) as Hne' by congruence.
  destruct (Z.ltb_spec (slot_dist bc hole (Z.land h (bc - 1)))
                       (slot_dist bc next (Z.land h (bc - 1)))) as [Hlt|Hge].
  - (* the entry is away from home: it moves into the hole *)
    rewrite Hhv. simpl.
    destruct (IH (<[Z.to_nat hole := nv]> B) next (DA B next))
      as (B' & HB' & HlenB' & Hrh' & Hocc'); try done.
    + by rewrite length_insert.
    + intros x p Hx Hxn Hxp Hp.
      destruct (decide (x = hole)) as [->|Hxh].
      * rewrite list_lookup_insert_eq in Hxp by lia. injection Hxp as <-. eauto.
      * rewrite list_lookup_insert_ne in Hxp by lia. by eapply Hread.
    + intros x Hx. pose proof (Hmono x Hx) as Hmx. pose proof (Hmono hole Hh) as Hmh.
      rewrite <- Hnext in Hmh. unfold hole_dist in *.
      rewrite !dist_at_insert by slots.
      destruct (Z.eqb_spec nv FM_EMPTY_IDX); [done|].
      assert (ideal_slot bc (hashes m) nv = Z.land h (bc - 1)) as ->.
      { unfold ideal_slot. by rewrite Hhash. }
      rewrite decide_False in Hmh by done. rewrite decide_True in Hmh by done.
      clear IH Hread. repeat case_decide; subst; try lia; slots.
    + rewrite list_lookup_insert_ne by lia. done.
    + subst next. slots.
    + rewrite Hmask, next_bucket_succ in HB' by done.
      exists B'. split_and!; try done.
      rewrite Hocc'. apply Permutation_cons_inv with (a := nv).
      rewrite occupied_insert_clear; try done.
      2: { rewrite list_lookup_insert_ne by lia. done. }
      rewrite <- (list_insert_insert_eq B (Z.to_nat hole) nv FM_EMPTY_IDX).
      rewrite occupied_insert_empty; try done.
      apply list_lookup_insert_eq. lia.
  - (* the entry is at home: nothing moves from here on *)
    rewrite (fm_backshift_scan fuel B hole (succ_slot bc next) e); try done.
    + eexists. split; [done|]. split_and!; [by rewrite length_insert| |done].
      eapply robin_hood_clear; try done. rewrite <- Hnext, HDn. subst next. slots.
    + eapply robin_hood_clear; try done. rewrite <- Hnext, HDn. subst next. slots.
    + subst next. slots.
    + subst next. slots.
    + subst next. slots.
Qed.
End backshift.

(** ** [fm_erase] *)

(** Where the entry at position [q] of the dense store comes from when the
    entry at [p] is removed: the last entry fills the gap. *)
Definition moved_from (len p q : Z) : Z := if decide (q = p) then len - 1 else q.

(** The state between part A and the pop of [fm_erase]: the dense store with
    the last entry copied over position [p], and the bucket of the last
    entry redirected to [p]. *)
Record swapped (m m1 : _FastMap) (t p : Z) : Prop := {
  sw_key_size : key_size m1 = key_size m;
  sw_val_size : val_size m1 = val_size m;
  sw_load : max_load_factor m1 = max_load_factor m;
  sw_count : bucket_count m1 = bucket_count m;
  sw_mask : bucket_mask m1 = bucket_mask m;
  sw_keys : vec_wf (keys m1) (key_size m) ∧ length (keys m1) = length (keys m);
  sw_values : vec_wf (values m1) (val_size m) ∧ length (values m1) = length (keys m);
  sw_hashes : vec_wf (hashes m1) 8 ∧ length (hashes m1) = length (keys m);
  sw_cells : ∀ q, 0 ≤ q < length (keys m) - 1 →
    fm_vec_at (keys m1) q = fm_vec_at (keys m) (moved_from (length (keys m)) p q) ∧
    fm_vec_at (values m1) q = fm_vec_at (values m) (moved_from (length (keys m)) p q) ∧
    fm_vec_at (hashes m1) q = fm_vec_at (hashes m) (moved_from (length (keys m)) p q);
  sw_buckets_len : List.length (buckets m1) = Z.to_nat (bucket_count m);
  sw_hole : buckets m1 !! Z.to_nat t = Some p;
  sw_dist : ∀ x, 0 ≤ x < bucket_count m → x ≠ t →
    dist_at (bucket_count m) (hashes m1) (buckets m1) x =
    dist_at (bucket_count m) (hashes m) (buckets m) x;
  sw_refs : ∀ x q, 0 ≤ x → x ≠ t → buckets m1 !! Z.to_nat x = Some q →
    q ≠ FM_EMPTY_IDX → 0 ≤ q < length (keys m) - 1;
  sw_empty : ∀ e, buckets m !! e = Some FM_EMPTY_IDX →
    buckets m1 !! e = Some FM_EMPTY_IDX;
  sw_occupied : occupied (<[Z.to_nat t := FM_EMPTY_IDX]> (buckets m1))
                  ≡ₚ seqZ 0 (length (keys m) - 1)
}.

Section erase.
Context (m : _FastMap) (Hwf : map_wf m).
Context (t p : Z).
Context (Ht : 0 ≤ t < bucket_count m).
Context (Htp : buckets m !! Z.to_nat t = Some p).
Context (Hpne : p ≠ FM_EMPTY_IDX).

#[local] Abbreviation L := (length (keys m)).

Lemma erase_pos_range : 0 ≤ p < L.
Proof. by eapply wf_slot_ref. Qed.

Lemma seqZ_last_perm x (l : list Z) n :
  0 < n → x :: l ≡ₚ seqZ 0 n → x = n - 1 → l ≡ₚ seqZ 0 (n - 1).
Proof.
  intros Hn Hperm ->. replace n with ((n - 1) + 1) in Hperm at 2 by lia.
  rewrite seqZ_snoc in Hperm by lia.
  rewrite <- Permutation_cons_append in Hperm.
  by apply Permutation_cons_inv in Hperm.
Qed.

(** Part A when the removed entry is the last one: nothing is copied. *)
Lemma swapped_last : p = L - 1 → swapped m m t p.
Proof.
  intros Hp. pose proof erase_pos_range as Hpr.
  split; try done.
  - split; [apply Hwf|done].
  - split; [apply Hwf|apply Hwf].
  - split; [apply Hwf|apply Hwf].
  - intros q Hq. unfold moved_from. rewrite decide_False by lia. done.
  - apply Hwf.
  - intros x q Hx Hxt Hxq Hq.
    pose proof (wf_slot_ref m Hwf _ _ Hxq Hq) as Hr.
    assert (q ≠ p); [|lia]. intros ->.
    pose proof (wf_slot_inj m Hwf _ _ _ Hpne Hxq Htp). lia.
  - apply (seqZ_last_perm p); [lia| |done].
    rewrite occupied_insert_clear by done. apply Hwf.
Qed.

(** Part A when another entry is removed: the last entry is copied over it
    and its bucket is redirected. *)
Lemma swapped_move fuel :
  p ≠ L - 1 → bucket_count m ≤ Z.of_nat fuel →
  ∃ m1,
    (src_k ← fm_vec_at (keys m) (L - 1);
     k ← fm_vec_write (keys m) p src_k (key_size m);
     src_v ← fm_vec_at (values m) (L - 1);
     v ← fm_vec_write (values m) p src_v (val_size m);
     src_h ← fm_vec_at (hashes m) (L - 1);
     h ← fm_vec_write (hashes m) p src_h 8;
     fm_update_bucket_for_moved_item fuel (set_dense m k v h) (L - 1) p) = Some m1 ∧
    swapped m m1 t p.
Proof.
  intros Hp Hfuel. pose proof erase_pos_range as Hpr.
  pose proof (wf_bc_bounds m Hwf) as Hsz.
  pose proof (vec_len _ _ (wf_keys _ Hwf)) as Hkl.
  pose proof (vec_len _ _ (wf_values _ Hwf)) as Hvl.
  pose proof (vec_len _ _ (wf_hashes _ Hwf)) as Hhl.
  rewrite (wf_values_len _ Hwf) in Hvl. rewrite (wf_hashes_len _ Hwf) in Hhl.
  destruct (vec_wf_at _ _ (L - 1) (wf_keys _ Hwf)) as (ck & Hck & Hckl); [lia|].
  destruct (vec_wf_at _ _ (L - 1) (wf_values _ Hwf)) as (cv & Hcv & Hcvl); [lia|].
  destruct (vec_wf_at _ _ (L - 1) (wf_hashes _ Hwf)) as (ch & Hch & Hchl); [lia|].
  destruct (fm_vec_write_spec _ _ p ck (wf_keys _ Hwf))
    as (k' & Hwk & Hk' & Hkl' & _ & Hkp & Hko); [lia|].
  destruct (fm_vec_write_spec _ _ p cv (wf_values _ Hwf))
    as (v' & Hwv & Hv' & Hvl' & _ & Hvp & Hvo); [lia|].
  destruct (fm_vec_write_spec _ _ p ch (wf_hashes _ Hwf))
    as (h' & Hwh & Hh' & Hhl' & _ & Hhp & Hho); [lia|].
  rewrite read_bytes_exact in Hkp, Hvp, Hhp by done.
  rewrite Hck; simpl; rewrite Hwk; simpl; rewrite Hcv; simpl; rewrite Hwv; simpl.
  rewrite Hch; simpl; rewrite Hwh; simpl.
  destruct (wf_slot_of m Hwf (L - 1)) as (t2 & Ht2 & Ht2l & Hlne); [lia|].
  assert (t2 ≠ t) as Htt by (intros ->; congruence).
  unfold fm_update_bucket_for_moved_item, hash_at. simpl. rewrite Hhp. simpl.
  rewrite (wf_mask _ Hwf).
  rewrite (fm_update_bucket_loop_spec (bucket_count m) fuel (buckets m) t2); try done.
  2: apply Hwf. 2: apply Hwf.
  2: { intros i j. by apply wf_slot_inj. }
  2: { apply land_mask_range, Hwf. }
  2: { pose proof (land_mask_range (bucket_count m) (load64 ch) (wf_size _ Hwf)). slots. }
  simpl. eexists. split; [done|].
  assert (∀ q, 0 ≤ q → q ≠ p → hash_at h' q = hash_at (hashes m) q) as Hhq.
  { intros q Hq Hqp. unfold hash_at. by rewrite Hho. }
  assert (hash_at h' p = hash_at (hashes m) (L - 1)) as Hhpl.
  { unfold hash_at. by rewrite Hhp, Hch. }
  split; simpl; try done.
  - by rewrite (wf_mask _ Hwf).
  - split; [done|]. by rewrite Hvl', (wf_values_len _ Hwf).
  - split; [done|]. by rewrite Hhl', (wf_hashes_len _ Hwf).
  - intros q Hq. unfold moved_from. case_decide as Hqp.
    + subst q. by rewrite Hkp, Hvp, Hhp, Hck, Hcv, Hch.
    + by rewrite Hko, Hvo, Hho by lia.
  - rewrite length_insert. apply Hwf.
  - rewrite list_lookup_insert_ne by lia. done.
  - intros x Hx Hxt. unfold dist_at.
    destruct (decide (x = t2)) as [->|Hxt2].
    + rewrite list_lookup_insert_eq by (rewrite (wf_buckets_len _ Hwf); lia).
      rewrite Ht2l. destruct (Z.eqb_spec p FM_EMPTY_IDX); [done|].
      destruct (Z.eqb_spec (L - 1) FM_EMPTY_IDX); [done|].
      unfold ideal_slot. by rewrite Hhpl.
    + rewrite list_lookup_insert_ne by lia.
      destruct (buckets m !! Z.to_nat x) as [q|] eqn:Hxq; [|done].
      destruct (Z.eqb_spec q FM_EMPTY_IDX); [done|].
      unfold ideal_slot. rewrite Hhq; [done| |].
      * by eapply wf_slot_ref.
      * intros ->. pose proof (wf_slot_inj m Hwf _ _ _ Hpne Hxq Htp). lia.
  - intros x q Hx Hxt Hxq Hq.
    destruct (decide (x = t2)) as [->|Hxt2].
    + rewrite list_lookup_insert_eq in Hxq by (rewrite (wf_buckets_len _ Hwf); lia).
      injection Hxq as <-. lia.
    + rewrite list_lookup_insert_ne in Hxq by lia.
      pose proof (wf_slot_ref m Hwf _ _ Hxq Hq).
      assert (q ≠ L - 1); [|lia]. intros ->.
      pose proof (wf_slot_inj m Hwf _ _ _ Hlne Hxq Ht2l). lia.
  - intros e He. rewrite list_lookup_insert_ne; [done|].
    intros <-. congruence.
  - apply (seqZ_last_perm (L - 1)); [lia| |done].
    apply Permutation_cons_inv with (a := p).
    rewrite Permutation_swap.
    rewrite occupied_insert_clear; try done.
    2: { rewrite list_lookup_insert_ne by lia. done. }
    rewrite (occupied_insert_swap _ _ _ _ Ht2l Hlne Hpne).
    by rewrite (wf_bij _ Hwf).
Qed.

Lemma vec_wf_set_length v s n :
  vec_wf v s → 0 ≤ n ≤ capacity v → vec_wf (set_length v n) s.
Proof. intros [] Hn. split; simpl; try done. Qed.

Lemma fm_erase_found_spec fuel :
  bucket_count m ≤ Z.of_nat fuel →
  ∃ m', fm_erase_found fuel m t p = Some m' ∧ map_wf m' ∧
    key_size m' = key_size m ∧ val_size m' = val_size m ∧
    bucket_count m' = bucket_count m ∧
    length (keys m') = L - 1 ∧
    (∀ q, 0 ≤ q < L - 1 →
       fm_vec_at (keys m') q = fm_vec_at (keys m) (moved_from L p q) ∧
       fm_vec_at (values m') q = fm_vec_at (values m) (moved_from L p q)).
Proof.
  intros Hfuel. pose proof erase_pos_range as Hpr.
  pose proof (wf_bc_bounds m Hwf) as Hsz.
  pose proof (wf_len_bounds m Hwf) as Hlen.
  unfold fm_erase_found.
  assert (wrap32 (wrap32 L - 1) = L - 1) as ->.
  { unfold wrap32. rewrite (Z.mod_small L) by lia. apply Z.mod_small. lia. }
  assert (∃ m1, (if p =? L - 1 then Some m else
     src_k ← fm_vec_at (keys m) (L - 1);
     k ← fm_vec_write (keys m) p src_k (key_size m);
     src_v ← fm_vec_at (values m) (L - 1);
     v ← fm_vec_write (values m) p src_v (val_size m);
     src_h ← fm_vec_at (hashes m) (L - 1);
     h ← fm_vec_write (hashes m) p src_h 8;
     fm_update_bucket_for_moved_item fuel (set_dense m k v h) (L - 1) p) = Some m1 ∧
     swapped m m1 t p) as (m1 & -> & Hsw).
  { destruct (Z.eqb_spec p (L - 1)) as [Hp|Hp].
    - exists m. split; [done|]. by apply swapped_last.
    - by apply swapped_move. }
  destruct Hsw as [Hks Hvs Hld Hcnt Hmsk [Hkw Hkl] [Hvw Hvl] [Hhw Hhl]
                   Hcells HlenB Hhole Hdist Hrefs Hemp Hocc].
  simpl. rewrite Hkl, Hvl, Hhl.
  unfold wrap64. rewrite Z.mod_small by lia.
  set (m2 := set_dense m1 (set_length (keys m1) (L - 1))
               (set_length (values m1) (L - 1)) (set_length (hashes m1) (L - 1))).
  destruct (wf_empty_slot m Hwf) as (e & He & Hemp0).
  assert (e ≠ t) as Het by (intros ->; congruence).
  pose proof (vec_len _ _ Hkw) as Hkc. pose proof (vec_len _ _ Hvw) as Hvc.
  pose proof (vec_len _ _ Hhw) as Hhc.
  destruct (fm_backshift_spec m2) with
    (fuel := fuel) (B := buckets m1) (hole := t) (e := e)
    (dh := dist_at (bucket_count m) (hashes m) (buckets m) t)
    as (B' & HB' & HlenB' & Hrh' & Hocc').
  - simpl. rewrite Hcnt. apply Hwf.
  - simpl. rewrite Hcnt, Hmsk. apply Hwf.
  - simpl. by rewrite Hcnt.
  - intros x q Hx Hxt Hxq Hq. simpl.
    destruct (vec_wf_at _ _ q Hhw) as (c & Hc & _).
    { pose proof (Hrefs x q Hx Hxt Hxq Hq). lia. }
    unfold hash_at, fm_vec_at in *. simpl. rewrite Hc. simpl. eauto.
  - simpl. rewrite Hcnt. intros x Hx.
    assert (∀ y, 0 ≤ y < bucket_count m →
      hole_dist (dist_at (bucket_count m) (set_length (hashes m1) (L - 1)) (buckets m1))
        t (dist_at (bucket_count m) (hashes m) (buckets m) t) y =
      dist_at (bucket_count m) (hashes m) (buckets m) y) as Heq.
    { intros y Hy. unfold hole_dist. case_decide as Hyt; [by subst|].
      rewrite <- Hdist by done. done. }
    rewrite !Heq by slots. by apply (wf_rh _ Hwf).
  - simpl. by rewrite Hcnt.
  - simpl. by rewrite Hcnt.
  - done.
  - by apply Hemp.
  - simpl. rewrite Hcnt. slots.
  - simpl in HB'. rewrite HB'. simpl. eexists. split; [done|].
    simpl in HlenB', Hrh', Hocc'. rewrite Hcnt in *.
    split_and!; simpl; try done.
    + split; simpl; try done.
      * apply vec_wf_set_length; [by rewrite Hks|lia].
      * apply vec_wf_set_length; [by rewrite Hvs|lia].
      * apply vec_wf_set_length; [done|lia].
      * rewrite Hld. apply Hwf.
      * apply Hwf.
      * rewrite Hmsk. apply Hwf.
      * pose proof (wf_room _ Hwf). lia.
      * by rewrite Hocc'.
      * intros i kc Hi Hkci. destruct (Hcells i Hi) as (Hck & _ & Hch).
        unfold hash_at, fm_vec_at in *. simpl in *.
        rewrite Hck in Hkci. rewrite Hch, Hks.
        apply (wf_cache _ Hwf); [|done]. unfold moved_from. case_decide; lia.
      * intros i j kc Hi Hj Hci Hcj.
        destruct (Hcells i Hi) as (Hcki & _). destruct (Hcells j Hj) as (Hckj & _).
        unfold fm_vec_at in *. simpl in *. rewrite Hcki in Hci. rewrite Hckj in Hcj.
        assert (moved_from L p i = moved_from L p j) as Hmv.
        { apply (wf_distinct _ Hwf _ _ kc); try done; unfold moved_from; case_decide; lia. }
        unfold moved_from in Hmv. repeat case_decide; lia.
    + intros q Hq. destruct (Hcells q Hq) as (Hck & Hcv & _). done.
Qed.
End erase.

Lemma fm_erase_present m key p fuel :
  map_wf m → key_at m p key → bucket_count m ≤ Z.of_nat fuel →
  ∃ m', fm_erase fuel m key = Some (true, m') ∧ map_wf m' ∧
    key_size m' = key_size m ∧ val_size m' = val_size m ∧
    bucket_count m' = bucket_count m ∧
    length (keys m') = length (keys m) - 1 ∧
    (∀ q, 0 ≤ q < length (keys m) - 1 →
       fm_vec_at (keys m') q = fm_vec_at (keys m) (moved_from (length (keys m)) p q) ∧
       fm_vec_at (values m') q = fm_vec_at (values m) (moved_from (length (keys m)) p q)).
Proof.
  intros Hwf Hk Hfuel. destruct (probe_start m key p Hwf Hk) as (t & Ht & Htp & Hd).
  pose proof (hash_slot_range m key Hwf) as Hb.
  pose proof (key_at_not_empty m p key Hwf Hk) as Hpne.
  unfold fm_erase.
  rewrite (fm_erase_loop_found m Hwf fuel fuel key p t) by (try done; slots).
  destruct (fm_erase_found_spec m Hwf t p Ht Htp Hpne fuel Hfuel) as (m' & -> & Hrest).
  simpl. eauto.
Qed.

Lemma fm_erase_absent m key fuel :
  map_wf m → key_absent m key → bucket_count m ≤ Z.of_nat fuel →
  fm_erase fuel m key = Some (false, m).
Proof.
  intros Hwf Hk Hfuel. destruct (wf_empty_slot m Hwf) as (e & He & Hemp).
  pose proof (hash_slot_range m key Hwf) as Hb.
  unfold fm_erase. apply (fm_erase_loop_absent m Hwf fuel fuel key e); try done; slots.
Qed.

(** ** More fuel never changes a result *)

Lemma fm_place_index_loop_mono fuel fuel' B mask H b c d r :
  fm_place_index_loop fuel B mask H b c d = Some r → (fuel ≤ fuel')%nat →
  fm_place_index_loop fuel' B mask H b c d = Some r.
Proof.
  revert fuel' B b c d. induction fuel as [|fuel IH]; intros fuel' B b c d Hr Hle; [done|].
  destruct fuel' as [|fuel']; [lia|]. simpl in *.
  destruct (B !! Z.to_nat b) as [p|]; simpl in *; [|done].
  destruct (p =? FM_EMPTY_IDX); [done|].
  destruct (hash_at H p) as [h|]; simpl in *; [|done].
  destruct (probe_dist b mask (Z.land h mask) <? d); apply IH; try done; lia.
Qed.

Lemma fm_resize_loop_mono fuel fuel' steps m nb mask i r :
  fm_resize_loop fuel steps m nb mask i = Some r → (fuel ≤ fuel')%nat →
  fm_resize_loop fuel' steps m nb mask i = Some r.
Proof.
  revert nb i. induction steps as [|steps IH]; intros nb i Hr Hle; [done|].
  simpl in *. destruct (i <? length (keys m)); [|done].
  destruct (hash_at (hashes m) i) as [h|]; simpl in *; [|done].
  unfold fm_place_index in *.
  destruct (fm_place_index_loop fuel _ _ _ _ _ _) as [B|] eqn:HB; simpl in *; [|done].
  rewrite (fm_place_index_loop_mono _ _ _ _ _ _ _ _ _ HB Hle). simpl. by apply IH.
Qed.

Lemma fm_resize_mono fuel fuel' m nc r :
  fm_resize fuel m nc = Some r → (fuel ≤ fuel')%nat → fm_resize fuel' m nc = Some r.
Proof.
  unfold fm_resize. intros Hr Hle.
  destruct (fm_resize_loop fuel _ _ _ _ _) as [B|] eqn:HB; simpl in *; [|done].
  by rewrite (fm_resize_loop_mono _ _ _ _ _ _ _ _ HB Hle).
Qed.

Lemma fm_put_probe_mono fuel fuel' m key b d r :
  fm_put_probe fuel m key b d = Some r → (fuel ≤ fuel')%nat →
  fm_put_probe fuel' m key b d = Some r.
Proof.
  revert fuel' b d. induction fuel as [|fuel IH]; intros fuel' b d Hr Hle; [done|].
  destruct fuel' as [|fuel']; [lia|]. simpl in *.
  destruct (buckets m !! Z.to_nat b) as [p|]; simpl in *; [|done].
  destruct (p =? FM_EMPTY_IDX); [done|].
  destruct (hash_at (hashes m) p) as [h|]; simpl in *; [|done].
  destruct (_ <? d); [done|].
  destruct (fm_vec_at (keys m) p) as [kc|]; simpl in *; [|done].
  destruct (memcmp_eq kc key (key_size m)); [done|]. apply IH; [done|lia].
Qed.

Lemma fm_get_loop_mono fuel fuel' m key b d r :
  fm_get_loop fuel m key b d = Some r → (fuel ≤ fuel')%nat →
  fm_get_loop fuel' m key b d = Some r.
Proof.
  revert fuel' b d. induction fuel as [|fuel IH]; intros fuel' b d Hr Hle; [done|].
  destruct fuel' as [|fuel']; [lia|]. simpl in *.
  destruct (buckets m !! Z.to_nat b) as [p|]; simpl in *; [|done].
  destruct (p =? FM_EMPTY_IDX); [done|].
  destruct (fm_vec_at (keys m) p) as [kc|]; simpl in *; [|done].
  destruct (memcmp_eq kc key (key_size m)); [done|].
  destruct (hash_at (hashes m) p) as [h|]; simpl in *; [|done].
  destruct (_ <? d); [done|]. apply IH; [done|lia].
Qed.

Lemma fm_get_mono fuel fuel' m key r :
  fm_get fuel m key = Some r → (fuel ≤ fuel')%nat → fm_get fuel' m key = Some r.
Proof. apply fm_get_loop_mono. Qed.

Lemma fm_update_bucket_loop_mono fuel fuel' B mask b old new r :
  fm_update_bucket_loop fuel B mask b old new = Some r → (fuel ≤ fuel')%nat →
  fm_update_bucket_loop fuel' B mask b old new = Some r.
Proof.
  revert fuel' b. induction fuel as [|fuel IH]; intros fuel' b Hr Hle; [done|].
  destruct fuel' as [|fuel']; [lia|]. simpl in *.
  destruct (B !! Z.to_nat b) as [p|]; simpl in *; [|done].
  destruct (p =? old); [done|]. apply IH; [done|lia].
Qed.

Lemma fm_backshift_mono fuel fuel' m B hole next r :
  fm_backshift fuel m B hole next = Some r → (fuel ≤ fuel')%nat →
  fm_backshift fuel' m B hole next = Some r.
Proof.
  revert fuel' B hole next. induction fuel as [|fuel IH];
    intros fuel' B hole next Hr Hle; [done|].
  destruct fuel' as [|fuel']; [lia|]. simpl in *.
  destruct (B !! Z.to_nat next) as [p|]; simpl in *; [|done].
  destruct (p =? FM_EMPTY_IDX); [done|].
  destruct (hash_at (hashes m) p) as [h|]; simpl in *; [|done].
  destruct (_ <? _).
  - destruct (B !! Z.to_nat hole); simpl in *; [|done]. apply IH; [done|lia].
  - apply IH; [done|lia].
Qed.

Lemma fm_erase_found_mono fuel fuel' m t p r :
  fm_erase_found fuel m t p = Some r → (fuel ≤ fuel')%nat →
  fm_erase_found fuel' m t p = Some r.
Proof.
  unfold fm_erase_found. intros Hr Hle.
  destruct (p =? _).
  - simpl in *.
    destruct (fm_backshift fuel _ _ _ _) as [B|] eqn:HB; simpl in *; [|done].
    by rewrite (fm_backshift_mono _ _ _ _ _ _ _ HB Hle).
  - destruct (fm_vec_at (keys m) _) as [ck|]; simpl in *; [|done].
    destruct (fm_vec_write (keys m) _ _ _) as [k|]; simpl in *; [|done].
    destruct (fm_vec_at (values m) _) as [cv|]; simpl in *; [|done].
    destruct (fm_vec_write (values m) _ _ _) as [v|]; simpl in *; [|done].
    destruct (fm_vec_at (hashes m) _) as [ch|]; simpl in *; [|done].
    destruct (fm_vec_write (hashes m) _ _ _) as [h|]; simpl in *; [|done].
    unfold fm_update_bucket_for_moved_item in *.
    destruct (hash_at _ _) as [hv|]; simpl in *; [|done].
    destruct (fm_update_bucket_loop fuel _ _ _ _ _) as [B1|] eqn:HB1; simpl in *; [|done].
    rewrite (fm_update_bucket_loop_mono _ _ _ _ _ _ _ _ HB1 Hle). simpl.
    destruct (fm_backshift fuel _ _ _ _) as [B|] eqn:HB; simpl in *; [|done].
    by rewrite (fm_backshift_mono _ _ _ _ _ _ _ HB Hle).
Qed.

Lemma fm_erase_loop_mono fuel fuel' inner inner' m key b d r :
  fm_erase_loop fuel inner m key b d = Some r →
  (fuel ≤ fuel')%nat → (inner ≤ inner')%nat →
  fm_erase_loop fuel' inner' m key b d = Some r.
Proof.
  revert fuel' b d. induction fuel as [|fuel IH]; intros fuel' b d Hr Hle Hle'; [done|].
  destruct fuel' as [|fuel']; [lia|]. simpl in *.
  destruct (buckets m !! Z.to_nat b) as [p|]; simpl in *; [|done].
  destruct (p =? FM_EMPTY_IDX); [done|].
  destruct (hash_at (hashes m) p) as [h|]; simpl in *; [|done].
  destruct (_ <? d); [done|].
  destruct (fm_vec_at (keys m) p) as [kc|]; simpl in *; [|done].
  destruct (memcmp_eq kc key (key_size m)).
  - destruct (fm_erase_found inner m b p) as [m'|] eqn:Hm'; simpl in *; [|done].
    by rewrite (fm_erase_found_mono _ _ _ _ _ _ Hm' Hle').
  - apply IH; [done|lia|done].
Qed.

Lemma fm_erase_mono fuel fuel' m key r :
  fm_erase fuel m key = Some r → (fuel ≤ fuel')%nat → fm_erase fuel' m key = Some r.
Proof. intros Hr Hle. by apply (fm_erase_loop_mono fuel fuel' fuel fuel'). Qed.

Lemma fm_put_mono fuel fuel' m key value r :
  fm_put fuel m key value = Some r → (fuel ≤ fuel')%nat →
  fm_put fuel' m key value = Some r.
Proof.
  unfold fm_put. intros Hr Hle.
  assert (∀ m1, (if load_exceeded m then fm_resize fuel m (wrap64 (bucket_count m * 2))
                 else Some m) = Some m1 →
                (if load_exceeded m then fm_resize fuel' m (wrap64 (bucket_count m * 2))
                 else Some m) = Some m1) as Hgrow.
  { intros m1. destruct (load_exceeded m); [|done]. intros Hm1.
    by apply (fm_resize_mono fuel). }
  destruct (if load_exceeded m then _ else _) as [m1|] eqn:Hm1; simpl in *; [|done].
  rewrite (Hgrow m1 eq_refl). simpl.
  destruct (fm_put_probe fuel m1 key _ 0) as [found|] eqn:Hp; simpl in *; [|done].
  rewrite (fm_put_probe_mono _ _ _ _ _ _ _ Hp Hle). simpl.
  destruct found as [idx|]; [done|].
  destruct (fm_vec_push (keys m1) key) as [k|]; simpl in *; [|done].
  destruct (fm_vec_push (values m1) value) as [v|]; simpl in *; [|done].
  destruct (fm_vec_push (hashes m1) _) as [h|]; simpl in *; [|done].
  unfold fm_place_index in *.
  destruct (fm_place_index_loop fuel _ _ _ _ _ _) as [B|] eqn:HB; simpl in *; [|done].
  by rewrite (fm_place_index_loop_mono _ _ _ _ _ _ _ _ _ HB Hle).
Qed.

(** * The states of a map

    A state is reachable when it is the result of [fm_init] followed by
    calls of [fm_put], [fm_erase] and [fm_resize] (at twice the current size,
    as [fm_put] calls it).  Bucket indices and probe distances are
    [uint32_t]: the calls that may grow the table are made on tables of at
    most [2 ^ 31] buckets. *)

Inductive reachable : _FastMap → Prop :=
| reach_init key_size val_size :
    reachable (fm_init key_size val_size)
| reach_put m fuel key value m' :
    reachable m → bucket_count m ≤ 2 ^ 31 →
    fm_put fuel m key value = Some m' → reachable m'
| reach_erase m fuel key found m' :
    reachable m →
    fm_erase fuel m key = Some (found, m') → reachable m'
| reach_resize m fuel m' :
    reachable m → bucket_count m ≤ 2 ^ 31 →
    fm_resize fuel m (wrap64 (bucket_count m * 2)) = Some m' → reachable m'.

Lemma fm_put_wf m fuel key value m' :
  map_wf m → bucket_count m ≤ 2 ^ 31 →
  fm_put fuel m key value = Some m' → map_wf m'.
Proof.
  intros Hwf Hbc Hput.
  set (fuel' := (fuel `max` Z.to_nat (2 * bucket_count m))%nat).
  apply (fm_put_mono fuel fuel') in Hput; [|lia].
  destruct (key_at_dec m key) as [[p Hk]|Habs].
  - destruct (fm_put_existing m key value p fuel' Hwf Hbc) as (m1 & Hm1 & Hwf1 & _);
      [lia|done|]. congruence.
  - destruct (fm_put_new m key value fuel' Hwf Hbc) as (m1 & Hm1 & Hwf1 & _);
      [lia|done|]. congruence.
Qed.

Lemma fm_erase_wf m fuel key found m' :
  map_wf m → fm_erase fuel m key = Some (found, m') → map_wf m'.
Proof.
  intros Hwf Her.
  set (fuel' := (fuel `max` Z.to_nat (bucket_count m))%nat).
  apply (fm_erase_mono fuel fuel') in Her; [|lia].
  destruct (key_at_dec m key) as [[p Hk]|Habs].
  - destruct (fm_erase_present m key p fuel' Hwf Hk) as (m1 & Hm1 & Hwf1 & _); [lia|].
    congruence.
  - rewrite (fm_erase_absent m key fuel' Hwf Habs) in Her by lia. congruence.
Qed.

Lemma fm_resize_double_wf m fuel m' :
  map_wf m → bucket_count m ≤ 2 ^ 31 →
  fm_resize fuel m (wrap64 (bucket_count m * 2)) = Some m' → map_wf m'.
Proof.
  intros Hwf Hbc Hr. pose proof (wf_bc_bounds m Hwf) as Hsz.
  unfold wrap64 in Hr. rewrite Z.mod_small in Hr by lia.
  set (fuel' := (fuel `max` Z.to_nat (bucket_count m * 2))%nat).
  apply (fm_resize_mono fuel fuel') in Hr; [|lia].
  destruct (fm_resize_spec m (bucket_count m * 2) fuel' Hwf) as (B' & HB' & Hwf'); try lia.
  - destruct (wf_size _ Hwf) as (k & Hk & Hk2). exists (k + 1).
    rewrite Hk2 in Hbc.
    assert (k < 32).
    { destruct (Z.lt_ge_cases k 32); [done|].
      assert (2 ^ 32 ≤ 2 ^ k) by (apply Z.pow_le_mono_r; lia). lia. }
    split; [lia|]. rewrite Z.pow_add_r, Hk2 by lia. lia.
  - pose proof (wf_room _ Hwf). lia.
  - congruence.
Qed.

(** Every reachable state satisfies the representation invariant. *)
Lemma reachable_wf m : reachable m → map_wf m.
Proof.
  induction 1 as [ks vs|m fuel key value m' _ IH Hbc Hput
                 |m fuel key found m' _ IH Her|m fuel m' _ IH Hbc Hr].
  - apply fm_init_wf.
  - by eapply fm_put_wf.
  - by eapply fm_erase_wf.
  - by eapply fm_resize_double_wf.
Qed.

(** ** Lookups report stored keys only *)

Lemma fm_get_loop_sound fuel m key b d p :
  fm_get_loop fuel m key b d = Some (Some p) →
  p ≠ FM_EMPTY_IDX ∧ (∃ i, buckets m !! i = Some p) ∧
  ∃ kc, fm_vec_at (keys m) p = Some kc ∧
        read_bytes kc (key_size m) = read_bytes key (key_size m).
Proof.
  revert b d. induction fuel as [|fuel IH]; intros b d Hr; [done|].
  simpl in Hr.
  destruct (buckets m !! Z.to_nat b) as [q|] eqn:Hq; simpl in Hr; [|done].
  destruct (Z.eqb_spec q FM_EMPTY_IDX); [done|].
  destruct (fm_vec_at (keys m) q) as [kc|] eqn:Hkc; simpl in Hr; [|done].
  destruct (memcmp_eq kc key (key_size m)) eqn:Hcmp.
  - injection Hr as <-. apply memcmp_eq_true in Hcmp. eauto 10.
  - destruct (hash_at (hashes m) q); simpl in Hr; [|done].
    destruct (_ <? d); [done|]. by eapply IH.
Qed.

Lemma fm_get_sound m fuel key p :
  map_wf m → fm_get fuel m key = Some (Some p) → key_at m p key.
Proof.
  intros Hwf Hget. apply fm_get_loop_sound in Hget as (Hne & [i Hi] & kc & Hkc & Heq).
  pose proof (wf_slot_ref m Hwf _ _ Hi Hne) as Hp.
  destruct (wf_key_cell m Hwf p Hp) as (kc' & Hkc' & Hlen & _).
  assert (kc' = kc) as -> by congruence.
  rewrite read_bytes_exact in Heq by done. split; [done|]. by rewrite <- Heq.
Qed.

(** The bijection between occupied slots and dense positions. *)
Definition index_bijection (m : _FastMap) : Prop :=
  (∀ p, 0 ≤ p < length (keys m) ↔
        p ≠ FM_EMPTY_IDX ∧ ∃ b, buckets m !! b = Some p) ∧
  (∀ b1 b2 p, p ≠ FM_EMPTY_IDX →
        buckets m !! b1 = Some p → buckets m !! b2 = Some p → b1 = b2).

Lemma wf_index_bijection m : map_wf m → index_bijection m.
Proof.
  intros Hwf. split.
  - intros p. rewrite <- elem_of_occupied, (wf_bij _ Hwf), elem_of_seqZ. lia.
  - intros b1 b2 p Hp. by apply wf_slot_inj.
Qed.

(** ** The operations read the key through its first [key_size] bytes *)

Lemma memcmp_eq_ext kc key1 key2 n :
  read_bytes key1 n = read_bytes key2 n → memcmp_eq kc key1 n = memcmp_eq kc key2 n.
Proof. unfold memcmp_eq. by intros ->. Qed.

Lemma fm_hash_ext key1 key2 n :
  read_bytes key1 n = read_bytes key2 n → fm_hash key1 n = fm_hash key2 n.
Proof. intros Heq. by rewrite <- (fm_hash_read_bytes key1), Heq, fm_hash_read_bytes. Qed.

Lemma fm_vec_push_ext vec key1 key2 :
  read_bytes key1 (stride vec) = read_bytes key2 (stride vec) →
  fm_vec_push vec key1 = fm_vec_push vec key2.
Proof.
  intros Heq. unfold fm_vec_push, fm_vec_write, memcpy.
  destruct (capacity vec <=? length vec); simpl; by rewrite Heq.
Qed.

Lemma fm_put_probe_ext fuel m key1 key2 b d :
  read_bytes key1 (key_size m) = read_bytes key2 (key_size m) →
  fm_put_probe fuel m key1 b d = fm_put_probe fuel m key2 b d.
Proof.
  intros Heq. revert b d. induction fuel as [|fuel IH]; intros b d; [done|].
  simpl. destruct (buckets m !! Z.to_nat b) as [p|]; simpl; [|done].
  destruct (p =? FM_EMPTY_IDX); [done|].
  destruct (hash_at (hashes m) p); simpl; [|done].
  destruct (_ <? d); [done|].
  destruct (fm_vec_at (keys m) p) as [kc|]; simpl; [|done].
  rewrite (memcmp_eq_ext kc key1 key2) by done.
  destruct (memcmp_eq kc key2 (key_size m)); [done|]. apply IH.
Qed.

Lemma fm_get_loop_ext fuel m key1 key2 b d :
  read_bytes key1 (key_size m) = read_bytes key2 (key_size m) →
  fm_get_loop fuel m key1 b d = fm_get_loop fuel m key2 b d.
Proof.
  intros Heq. revert b d. induction fuel as [|fuel IH]; intros b d; [done|].
  simpl. destruct (buckets m !! Z.to_nat b) as [p|]; simpl; [|done].
  destruct (p =? FM_EMPTY_IDX); [done|].
  destruct (fm_vec_at (keys m) p) as [kc|]; simpl; [|done].
  rewrite (memcmp_eq_ext kc key1 key2) by done.
  destruct (memcmp_eq kc key2 (key_size m)); [done|].
  destruct (hash_at (hashes m) p); simpl; [|done].
  destruct (_ <? d); [done|]. apply IH.
Qed.

Lemma fm_erase_loop_ext fuel inner m key1 key2 b d :
  read_bytes key1 (key_size m) = read_bytes key2 (key_size m) →
  fm_erase_loop fuel inner m key1 b d = fm_erase_loop fuel inner m key2 b d.
Proof.
  intros Heq. revert b d. induction fuel as [|fuel IH]; intros b d; [done|].
  simpl. destruct (buckets m !! Z.to_nat b) as [p|]; simpl; [|done].
  destruct (p =? FM_EMPTY_IDX); [done|].
  destruct (hash_at (hashes m) p); simpl; [|done].
  destruct (_ <? d); [done|].
  destruct (fm_vec_at (keys m) p) as [kc|]; simpl; [|done].
  rewrite (memcmp_eq_ext kc key1 key2) by done.
  destruct (memcmp_eq kc key2 (key_size m)); [done|]. apply IH.
Qed.

Lemma fm_get_ext fuel m key1 key2 :
  read_bytes key1 (key_size m) = read_bytes key2 (key_size m) →
  fm_get fuel m key1 = fm_get fuel m key2.
Proof.
  intros Heq. unfold fm_get. rewrite (fm_hash_ext key1 key2) by done.
  by apply fm_get_loop_ext.
Qed.

Lemma fm_erase_ext fuel m key1 key2 :
  read_bytes key1 (key_size m) = read_bytes key2 (key_size m) →
  fm_erase fuel m key1 = fm_erase fuel m key2.
Proof.
  intros Heq. unfold fm_erase. rewrite (fm_hash_ext key1 key2) by done.
  by apply fm_erase_loop_ext.
Qed.

Lemma fm_resize_dense fuel m nc m1 :
  fm_resize fuel m nc = Some m1 →
  keys m1 = keys m ∧ values m1 = values m ∧ hashes m1 = hashes m ∧
  key_size m1 = key_size m ∧ val_size m1 = val_size m.
Proof.
  unfold fm_resize. destruct (fm_resize_loop _ _ _ _ _ _); simpl; [|done].
  by intros [= <-].
Qed.

Lemma fm_put_ext fuel m key1 key2 value :
  stride (keys m) = key_size m →
  read_bytes key1 (key_size m) = read_bytes key2 (key_size m) →
  fm_put fuel m key1 value = fm_put fuel m key2 value.
Proof.
  intros Hstride Heq. unfold fm_put.
  destruct (if load_exceeded m then _ else _) as [m1|] eqn:Hm1; simpl; [|done].
  assert (keys m1 = keys m ∧ key_size m1 = key_size m) as [Hk Hs].
  { destruct (load_exceeded m).
    - by destruct (fm_resize_dense _ _ _ _ Hm1) as (? & _ & _ & ? & _).
    - by injection Hm1 as <-. }
  rewrite Hs. rewrite (fm_hash_ext key1 key2) by done.
  rewrite (fm_put_probe_ext fuel m1 key1 key2) by (by rewrite Hs).
  destruct (fm_put_probe fuel m1 key2 _ 0) as [[idx|]|]; simpl; try done.
  rewrite (fm_vec_push_ext (keys m1) key1 key2); [done|].
  by rewrite Hk, Hstride.
Qed.

(** The object representation of distinct 64-bit values differs. *)
Lemma le_bytes_8_inj a1 a2 :
  0 ≤ a1 < 2 ^ 64 → 0 ≤ a2 < 2 ^ 64 → le_bytes 8 a1 = le_bytes 8 a2 → a1 = a2.
Proof.
  intros H1 H2 Heq. rewrite <- (load64_le_bytes a1), <- (load64_le_bytes a2) by done.
  by rewrite Heq.
Qed.

(** ** Equality of floating-point values *)

Section ieee.
Context (mw ew : Z) (Hmw : 0 < mw) (Hew : 0 < ew).

Lemma ieee_fields bits :
  0 ≤ bits < 2 ^ (mw + ew + 1) →
  let q := bits / 2 ^ (mw + ew) in
  let e := (bits / 2 ^ mw) mod 2 ^ ew in
  let m := bits mod 2 ^ mw in
  bits = q * 2 ^ (mw + ew) + e * 2 ^ mw + m ∧
  0 ≤ q ≤ 1 ∧ 0 ≤ e < 2 ^ ew ∧ 0 ≤ m < 2 ^ mw.
Proof.
  intros Hb. cbv zeta.
  assert (0 < 2 ^ mw) as HP by (apply Z.pow_pos_nonneg; lia).
  assert (0 < 2 ^ ew) as HE by (apply Z.pow_pos_nonneg; lia).
  assert (2 ^ (mw + ew) = 2 ^ mw * 2 ^ ew) as Hpe by (apply Z.pow_add_r; lia).
  assert (2 ^ (mw + ew + 1) = 2 ^ (mw + ew) * 2) as Hpe1.
  { rewrite Z.pow_add_r by lia. done. }
  assert (0 ≤ bits / 2 ^ (mw + ew) ≤ 1) as Hq.
  { split; [apply Z.div_pos; lia|].
    apply Z.lt_succ_r. apply Z.div_lt_upper_bound; lia. }
  pose proof (Z.mod_pos_bound bits (2 ^ mw) HP) as Hm.
  pose proof (Z.mod_pos_bound (bits / 2 ^ mw) (2 ^ ew) HE) as He.
  split_and!; try lia.
  rewrite Hpe, <- Z.div_div by lia.
  pose proof (Z.div_mod bits (2 ^ mw) ltac:(lia)) as H1.
  pose proof (Z.div_mod (bits / 2 ^ mw) (2 ^ ew) ltac:(lia)) as H2.
  set (x := bits / 2 ^ mw) in *. set (y := x / 2 ^ ew) in *.
  set (e := x mod 2 ^ ew) in *. set (m := bits mod 2 ^ mw) in *.
  clearbody x y e m. rewrite H2 in H1. rewrite H1. ring.
Qed.

(** Two bit patterns that compare equal are the same pattern, unless both
    are zeros. *)
Lemma decode_ieee_eq a b :
  0 ≤ a < 2 ^ (mw + ew + 1) → 0 ≤ b < 2 ^ (mw + ew + 1) →
  SFeqb (decode_ieee mw ew a) (decode_ieee mw ew b) = true →
  a = b ∨ (∃ sa sb, decode_ieee mw ew a = S754_zero sa ∧
                    decode_ieee mw ew b = S754_zero sb).
Proof.
  intros Ha Hb.
  destruct (ieee_fields a Ha) as (Ea & Hqa & Hea & Hma).
  destruct (ieee_fields b Hb) as (Eb & Hqb & Heb & Hmb).
  unfold decode_ieee.
  set (qa := a / 2 ^ (mw + ew)) in *. set (ea := (a / 2 ^ mw) mod 2 ^ ew) in *.
  set (ma := a mod 2 ^ mw) in *.
  set (qb := b / 2 ^ (mw + ew)) in *. set (eb := (b / 2 ^ mw) mod 2 ^ ew) in *.
  set (mb := b mod 2 ^ mw) in *.
  assert (0 < 2 ^ mw) as HP by (apply Z.pow_pos_nonneg; lia).
  assert (qa = qb → ea = eb → ma = mb → a = b) as Hrec by (intros; congruence).
  assert (Z.odd qa = Z.odd qb → qa = qb) as Hsign.
  { assert (qa = 0 ∨ qa = 1) as [->| ->] by lia;
    assert (qb = 0 ∨ qb = 1) as [->| ->] by lia; simpl; done. }
  clearbody qa ea ma qb eb mb. clear Ea Eb.
  assert (∀ sa sb, Z.odd qa = sa → Z.odd qb = sb → sa = sb → qa = qb) as Hs
    by (intros; apply Hsign; congruence).
  clear Hsign.
  unfold SFeqb, SFcompare. intros Heq.
  destruct (Z.eqb_spec ea 0), (Z.eqb_spec eb 0),
    (Z.eqb_spec ea (2 ^ ew - 1)), (Z.eqb_spec eb (2 ^ ew - 1)); try lia;
  destruct ma as [|pa|pa] eqn:Ema, mb as [|pb|pb] eqn:Emb; try lia;
  simpl in Heq; try discriminate; try (right; eauto; fail);
  repeat match type of Heq with
  | context [Z.eqb ?x ?y] => destruct (Z.eqb_spec x y)
  end; try discriminate; try lia;
  try (destruct (Z.pos pa + 2 ^ mw) as [|pa'|pa'] eqn:Epa; try lia);
  try (destruct (Z.pos pb + 2 ^ mw) as [|pb'|pb'] eqn:Epb; try lia);
  try (destruct (0 + 2 ^ mw) as [|pa'|pa'] eqn:Epa; try lia);
  try (destruct (0 + 2 ^ mw) as [|pb'|pb'] eqn:Epb; try lia);
  try discriminate.
  all: left.
  all: destruct (Z.odd qa) eqn:Hsa, (Z.odd qb) eqn:Hsb; try discriminate.
  all: try match type of Heq with
       | context [Z.compare ?x ?y] =>
           destruct (Z.compare x y) eqn:Hce; try discriminate;
           apply Z.compare_eq in Hce
       end.
  all: try match type of Heq with
       | context [Pos.compare_cont Eq ?x ?y] =>
           destruct (Pos.compare_cont Eq x y) eqn:Hcm; try discriminate;
           apply Pos.compare_eq in Hcm
       end.
  all: apply Hrec; [by eapply Hs|lia|lia].
Qed.
End ieee.

(** * Example maps

    The maps of the test client: [int] keys and values, stored as their
    four-byte object representation. *)

Definition int_bytes (n : Z) : list byte := le_bytes 4 n.

Fixpoint put_all (fuel : nat) (m : _FastMap) (kvs : list (Z * Z)) : option _FastMap :=
  match kvs with
  | [] => Some m
  | (k, v) :: rest =>
      if bucket_count m <=? 2 ^ 31 then
        m' ← fm_put fuel m (int_bytes k) (int_bytes v);
        put_all fuel m' rest
      else None
  end.

Lemma put_all_reachable fuel m kvs m' :
  reachable m → put_all fuel m kvs = Some m' → reachable m'.
Proof.
  revert m. induction kvs as [|[k v] kvs IH]; intros m Hm Hput; simpl in Hput.
  - by injection Hput as <-.
  - destruct (Z.leb_spec (bucket_count m) (2 ^ 31)); [|done].
    destruct (fm_put fuel m (int_bytes k) (int_bytes v)) as [m1|] eqn:Hm1;
      simpl in Hput; [|done].
    apply (IH m1); [|done]. by eapply reach_put.
Qed.

(** Scenario A: put(10→100), put(20→200), put(30→300). *)
Definition scenario_a : _FastMap :=
  default (fm_init 4 4)
    (put_all 64 (fm_init 4 4) [(10, 100); (20, 200); (30, 300)]).

(** Thirteen entries, keys 0..12 with values 0, 10, .., 120: the fullest a
    table of 16 buckets gets. *)
Definition full_16 : _FastMap :=
  default (fm_init 4 4)
    (put_all 64 (fm_init 4 4) ((λ i, (i, 10 * i)) <$> seqZ 0 13)).

Lemma scenario_a_reachable : reachable scenario_a.
Proof.
  unfold scenario_a.
  destruct (put_all 64 (fm_init 4 4) [(10, 100); (20, 200); (30, 300)]) as [m|] eqn:Hm.
  - simpl. eapply put_all_reachable; [apply reach_init|done].
  - vm_compute in Hm. done.
Qed.

Lemma full_16_reachable : reachable full_16.
Proof.
  unfold full_16.
  destruct (put_all 64 (fm_init 4 4) ((λ i, (i, 10 * i)) <$> seqZ 0 13)) as [m|] eqn:Hm.
  - simpl. eapply put_all_reachable; [apply reach_init|done].
  - vm_compute in Hm. done.
Qed.

(** The scenarios of the specification, run on the model. *)

Definition get_int (fuel : nat) (m : _FastMap) (k : Z) : option (option Z) :=
  r ← fm_get fuel m (int_bytes k);
  Some (ptr ← r; cell ← deref_value m ptr; Some (load64 cell)).

Example scenario_a_lookups :
  get_int 64 scenario_a 10 = Some (Some 100) ∧
  get_int 64 scenario_a 20 = Some (Some 200) ∧
  get_int 64 scenario_a 99 = Some None.
Proof. vm_compute. done. Qed.

(** Scenarios B and C: after A, put(10→999), then erase(20). *)
Definition scenario_b : _FastMap :=
  default scenario_a (fm_put 64 scenario_a (int_bytes 10) (int_bytes 999)).

Definition scenario_c : _FastMap :=
  default scenario_b (snd <$> fm_erase 64 scenario_b (int_bytes 20)).

Example scenario_b_c :
  fm_put 64 scenario_a (int_bytes 10) (int_bytes 999) = Some scenario_b ∧
  get_int 64 scenario_b 10 = Some (Some 999) ∧ length (keys scenario_b) = 3 ∧
  fm_erase 64 scenario_b (int_bytes 20) = Some (true, scenario_c) ∧
  length (keys scenario_c) = 2 ∧
  get_int 64 scenario_c 20 = Some None ∧
  get_int 64 scenario_c 10 = Some (Some 999) ∧
  get_int 64 scenario_c 30 = Some (Some 300).
Proof. vm_compute. done. Qed.

(** Scenario D: keys 0..4 with values 0, 10, .., 40, then erase(0). *)
Definition five : _FastMap :=
  default (fm_init 4 4)
    (put_all 64 (fm_init 4 4) ((λ i, (i, 10 * i)) <$> seqZ 0 5)).

Definition scenario_d : _FastMap :=
  default five (snd <$> fm_erase 64 five (int_bytes 0)).

Example scenario_d_lookups :
  fm_erase 64 five (int_bytes 0) = Some (true, scenario_d) ∧
  length (keys scenario_d) = 4 ∧
  get_int 64 scenario_d 4 = Some (Some 40) ∧
  get_int 64 scenario_d 0 = Some None ∧
  get_int 64 scenario_d 2 = Some (Some 20).
Proof. vm_compute. done. Qed.

(** * The claims *)

(** C1. Round trip: on every reachable map (in particular after any
    sequence of puts with pairwise distinct keys), [fm_put] returns and a
    [fm_get] of the same key right after it returns a non-NULL pointer to
    exactly the [val_size] value bytes that were passed to [fm_put]. *)
Theorem fm_put_get_roundtrip m key value fuel :
  reachable m → bucket_count m ≤ 2 ^ 31 → 2 * bucket_count m ≤ Z.of_nat fuel →
  ∃ m' ptr,
    fm_put fuel m key value = Some m' ∧
    fm_get fuel m' key = Some (Some ptr) ∧
    deref_value m' ptr = Some (read_bytes value (val_size m)).
Proof.
  intros Hm Hbc Hfuel. pose proof (reachable_wf m Hm) as Hwf.
  pose proof (wf_bc_bounds m Hwf) as Hsz.
  destruct (key_at_dec m key) as [[p Hk]|Habs].
  - destruct (fm_put_existing m key value p fuel Hwf Hbc Hfuel Hk)
      as (m' & Hput & Hwf' & Hkeys & _ & Hks & _ & _ & Hval & _ & Hbc' & _).
    exists m', p. split_and!; try done.
    apply fm_get_found; try done.
    + unfold key_at. by rewrite Hkeys, Hks.
    + rewrite Hbc'. case_match; lia.
  - destruct (fm_put_new m key value fuel Hwf Hbc Hfuel Habs)
      as (m' & Hput & Hwf' & Hks & _ & Hlen & Hkey & Hval & _ & _ & Hbc').
    exists m', (length (keys m)). split_and!; try done.
    apply fm_get_found; try done.
    + pose proof (wf_len_bounds m Hwf). split; [lia|]. by rewrite Hks.
    + rewrite Hbc'. case_match; lia.
Qed.

Lemma fm_put_get_roundtrip_witness :
  reachable scenario_a ∧ bucket_count scenario_a ≤ 2 ^ 31 ∧
  2 * bucket_count scenario_a ≤ Z.of_nat 64 ∧
  ∃ m' ptr,
    fm_put 64 scenario_a (int_bytes 40) (int_bytes 400) = Some m' ∧
    fm_get 64 m' (int_bytes 40) = Some (Some ptr) ∧
    deref_value m' ptr = Some (read_bytes (int_bytes 400) (val_size scenario_a)).
Proof.
  split; [exact scenario_a_reachable|].
  split; [vm_compute; discriminate|].
  split; [vm_compute; discriminate|].
  apply (fm_put_get_roundtrip scenario_a (int_bytes 40) (int_bytes 400) 64).
  - exact scenario_a_reachable.
  - vm_compute; discriminate.
  - vm_compute; discriminate.
Defined.

(** C2. Erasing a key that is present returns true, decrements the length
    by exactly one and keeps every other key retrievable with its value;
    the backward shift leaves the bucket index a bijection onto the live
    dense positions, in Robin Hood order, with every slot either empty or
    referencing a live position (no tombstone), so that lookups stay exact:
    a stored key is found at its position, any other key (the erased one
    included) is reported absent. *)
Theorem fm_erase_present_correct m key p fuel :
  reachable m → key_at m p key → bucket_count m ≤ Z.of_nat fuel →
  ∃ m',
    fm_erase fuel m key = Some (true, m') ∧
    length (keys m') = length (keys m) - 1 ∧
    (∀ key' ptr v,
       read_bytes key' (key_size m) ≠ read_bytes key (key_size m) →
       fm_get fuel m key' = Some (Some ptr) → deref_value m ptr = Some v →
       ∃ ptr', fm_get fuel m' key' = Some (Some ptr') ∧
               deref_value m' ptr' = Some v) ∧
    index_bijection m' ∧
    robin_hood (bucket_count m') (hashes m') (buckets m') ∧
    (∀ b q, buckets m' !! b = Some q →
       q = FM_EMPTY_IDX ∨ 0 ≤ q < length (keys m')) ∧
    fm_get fuel m' key = Some None ∧
    (∀ key' q, key_at m' q key' → fm_get fuel m' key' = Some (Some q)) ∧
    (∀ key', key_absent m' key' → fm_get fuel m' key' = Some None).
Proof.
  intros Hm Hk Hfuel. pose proof (reachable_wf m Hm) as Hwf.
  destruct (fm_erase_present m key p fuel Hwf Hk Hfuel)
    as (m' & Her & Hwf' & Hks & Hvs & Hbc & Hlen & Hcells).
  assert (∀ key' q, key_at m' q key' →
            key_at m (moved_from (length (keys m)) p q) key') as Hback.
  { intros key' q [Hq Hc]. rewrite Hlen in Hq.
    destruct (Hcells q Hq) as [Hkq _]. rewrite Hkq, Hks in Hc.
    split; [|done]. unfold moved_from. case_decide; lia. }
  assert (key_absent m' key) as Habs.
  { intros q Hq. pose proof (Hback _ _ Hq) as Hq'.
    pose proof (key_at_inj m Hwf _ _ _ Hq' Hk) as Heq.
    destruct Hq as [Hq _]. rewrite Hlen in Hq.
    unfold moved_from in Heq. case_decide; lia. }
  exists m'. split_and!; try done.
  - intros key' ptr v Hne Hget Hv.
    pose proof (fm_get_sound m fuel key' ptr Hwf Hget) as [Hptr Hc].
    destruct Hk as [Hp Hkc].
    assert (ptr ≠ p) as Hpp by (intros ->; congruence).
    set (q := if decide (ptr = length (keys m) - 1) then p else ptr).
    assert (0 ≤ q < length (keys m) - 1) as Hq by (unfold q; case_decide; lia).
    assert (moved_from (length (keys m)) p q = ptr) as Hmv.
    { unfold moved_from, q. repeat case_decide; lia. }
    destruct (Hcells q Hq) as [Hkq Hvq]. rewrite Hmv in Hkq, Hvq.
    exists q. split.
    + apply fm_get_found; [done| |lia].
      split; [lia|]. by rewrite Hkq, Hks.
    + unfold deref_value in *. by rewrite Hvq.
  - by apply wf_index_bijection.
  - apply Hwf'.
  - intros b q Hb. destruct (decide (q = FM_EMPTY_IDX)); [by left|right].
    by eapply wf_slot_ref.
  - apply fm_get_absent; [done|done|lia].
  - intros key' q Hq. apply fm_get_found; [done|done|lia].
  - intros key' Hq. apply fm_get_absent; [done|done|lia].
Qed.

Lemma scenario_a_key_20 : key_at scenario_a 1 (int_bytes 20).
Proof. split; [split; vm_compute; [discriminate|reflexivity]|vm_compute; reflexivity]. Qed.

Lemma fm_erase_present_correct_witness :
  reachable scenario_a ∧ key_at scenario_a 1 (int_bytes 20) ∧
  bucket_count scenario_a ≤ Z.of_nat 64 ∧
  ∃ m',
    fm_erase 64 scenario_a (int_bytes 20) = Some (true, m') ∧
    length (keys m') = length (keys scenario_a) - 1 ∧
    (∀ key' ptr v,
       read_bytes key' (key_size scenario_a) ≠ read_bytes (int_bytes 20) (key_size scenario_a) →
       fm_get 64 scenario_a key' = Some (Some ptr) → deref_value scenario_a ptr = Some v →
       ∃ ptr', fm_get 64 m' key' = Some (Some ptr') ∧
               deref_value m' ptr' = Some v) ∧
    index_bijection m' ∧
    robin_hood (bucket_count m') (hashes m') (buckets m') ∧
    (∀ b q, buckets m' !! b = Some q →
       q = FM_EMPTY_IDX ∨ 0 ≤ q < length (keys m')) ∧
    fm_get 64 m' (int_bytes 20) = Some None ∧
    (∀ key' q, key_at m' q key' → fm_get 64 m' key' = Some (Some q)) ∧
    (∀ key', key_absent m' key' → fm_get 64 m' key' = Some None).
Proof.
  split; [exact scenario_a_reachable|].
  split; [exact scenario_a_key_20|].
  split; [vm_compute; discriminate|].
  apply (fm_erase_present_correct scenario_a (int_bytes 20) 1 64).
  - exact scenario_a_reachable.
  - exact scenario_a_key_20.
  - vm_compute; discriminate.
Defined.

(** C5. In every reachable state the occupied bucket slots reference
    exactly the dense positions [0 .. length-1], each from one slot only. *)
Theorem reachable_index_bijection m : reachable m → index_bijection m.
Proof. intros Hm. by apply wf_index_bijection, reachable_wf. Qed.

Lemma reachable_index_bijection_witness :
  reachable full_16 ∧ index_bijection full_16.
Proof.
  split; [exact full_16_reachable|].
  apply (reachable_index_bijection full_16). exact full_16_reachable.
Defined.

(** C6. Erasing a key that is not stored returns false and returns the map
    it was given: dense storage, bucket index, lengths and capacities are
    all as before the call. *)
Theorem fm_erase_absent_unchanged m key fuel :
  reachable m → key_absent m key → bucket_count m ≤ Z.of_nat fuel →
  fm_erase fuel m key = Some (false, m).
Proof. intros Hm Habs Hfuel. apply fm_erase_absent; [by apply reachable_wf|done|done]. Qed.

Lemma scenario_a_key_99 : key_absent scenario_a (int_bytes 99).
Proof.
  intros p [Hp Hc].
  assert (length (keys scenario_a) = 3) as Hlen by (vm_compute; reflexivity).
  rewrite Hlen in Hp. clear Hlen.
  assert (p = 0 ∨ p = 1 ∨ p = 2) as [->|[->| ->]] by lia;
    vm_compute in Hc; discriminate Hc.
Qed.

Lemma fm_erase_absent_unchanged_witness :
  reachable scenario_a ∧ key_absent scenario_a (int_bytes 99) ∧
  bucket_count scenario_a ≤ Z.of_nat 64 ∧
  fm_erase 64 scenario_a (int_bytes 99) = Some (false, scenario_a).
Proof.
  split; [exact scenario_a_reachable|].
  split; [exact scenario_a_key_99|].
  split; [vm_compute; discriminate|].
  apply (fm_erase_absent_unchanged scenario_a (int_bytes 99) 64).
  - exact scenario_a_reachable.
  - exact scenario_a_key_99.
  - vm_compute; discriminate.
Defined.

(** C10. In every reachable state the three dense vectors have the same
    length, and below that length every position holds a key cell whose
    cached digest is [fm_hash] of the [key_size] bytes of that cell. *)
Theorem reachable_lockstep_digests m :
  reachable m →
  length (values m) = length (keys m) ∧
  length (hashes m) = length (keys m) ∧
  ∀ i, 0 ≤ i < length (keys m) →
    ∃ kc, fm_vec_at (keys m) i = Some kc ∧
          hash_at (hashes m) i = Some (fm_hash kc (key_size m)).
Proof.
  intros Hm. pose proof (reachable_wf m Hm) as Hwf.
  split_and!; try apply Hwf.
  intros i Hi. destruct (wf_key_cell m Hwf i Hi) as (kc & Hkc & _ & Hh). eauto.
Qed.

Lemma reachable_lockstep_digests_witness :
  reachable full_16 ∧
  length (values full_16) = length (keys full_16) ∧
  length (hashes full_16) = length (keys full_16) ∧
  ∀ i, 0 ≤ i < length (keys full_16) →
    ∃ kc, fm_vec_at (keys full_16) i = Some kc ∧
          hash_at (hashes full_16) i = Some (fm_hash kc (key_size full_16)).
Proof.
  split; [exact full_16_reachable|].
  apply (reachable_lockstep_digests full_16). exact full_16_reachable.
Defined.

(** C3 as stated fails: [fm_put] tests the load factor before it probes, so
    a put of a key that is already present rebuilds the bucket index at
    twice the size when the table is at its threshold.  Here the key 5 is
    stored in a table of 16 buckets holding 13 entries. *)
Lemma fm_put_existing_grows :
  reachable full_16 ∧ key_at full_16 5 (int_bytes 5) ∧
  ∃ m', fm_put 64 full_16 (int_bytes 5) (int_bytes 77) = Some m' ∧
        bucket_count full_16 = 16 ∧ bucket_count m' = 32 ∧
        buckets m' ≠ buckets full_16.
Proof.
  split; [exact full_16_reachable|].
  split; [split; [split; vm_compute; [discriminate|reflexivity]|vm_compute; reflexivity]|].
  eexists. split; [vm_compute; reflexivity|].
  split; [vm_compute; reflexivity|]. split; [reflexivity|].
  intros Heq. apply (f_equal List.length) in Heq. vm_compute in Heq. discriminate.
Qed.

(** C3, amended.  A put of a key that is already present overwrites the
    value of that key in place: keys, cached digests, length and the dense
    position of the key are unchanged and every other value cell is
    unchanged.  When the load test of step 1 is false on entry there is no
    growth and no bucket-index change; when it is true the bucket index is
    first rebuilt at twice the size. *)
Theorem fm_put_existing_frame m key value p fuel :
  reachable m → key_at m p key →
  bucket_count m ≤ 2 ^ 31 → 2 * bucket_count m ≤ Z.of_nat fuel →
  ∃ m',
    fm_put fuel m key value = Some m' ∧
    keys m' = keys m ∧ hashes m' = hashes m ∧
    length (values m') = length (values m) ∧
    key_at m' p key ∧
    deref_value m' p = Some (read_bytes value (val_size m)) ∧
    (∀ q, 0 ≤ q → q ≠ p → fm_vec_at (values m') q = fm_vec_at (values m) q) ∧
    (load_exceeded m = false →
       buckets m' = buckets m ∧ bucket_count m' = bucket_count m ∧
       bucket_mask m' = bucket_mask m) ∧
    (load_exceeded m = true → bucket_count m' = 2 * bucket_count m).
Proof.
  intros Hm Hk Hbc Hfuel. pose proof (reachable_wf m Hm) as Hwf.
  destruct (fm_put_existing m key value p fuel Hwf Hbc Hfuel Hk)
    as (m' & Hput & Hwf' & Hkeys & Hhash & Hks & Hvs & Hlen & Hval & Hoth & Hbc' & Hsame).
  exists m'. split_and!; try done.
  - unfold key_at. by rewrite Hkeys, Hks.
  - intros Hload. rewrite Hload in Hbc'. destruct (Hsame Hload). done.
  - intros Hload. by rewrite Hload in Hbc'.
Qed.

Lemma fm_put_existing_frame_witness :
  reachable scenario_a ∧ key_at scenario_a 1 (int_bytes 20) ∧
  bucket_count scenario_a ≤ 2 ^ 31 ∧ 2 * bucket_count scenario_a ≤ Z.of_nat 64 ∧
  ∃ m',
    fm_put 64 scenario_a (int_bytes 20) (int_bytes 999) = Some m' ∧
    keys m' = keys scenario_a ∧ hashes m' = hashes scenario_a ∧
    length (values m') = length (values scenario_a) ∧
    key_at m' 1 (int_bytes 20) ∧
    deref_value m' 1 = Some (read_bytes (int_bytes 999) (val_size scenario_a)) ∧
    (∀ q, 0 ≤ q → q ≠ 1 → fm_vec_at (values m') q = fm_vec_at (values scenario_a) q) ∧
    (load_exceeded scenario_a = false →
       buckets m' = buckets scenario_a ∧ bucket_count m' = bucket_count scenario_a ∧
       bucket_mask m' = bucket_mask scenario_a) ∧
    (load_exceeded scenario_a = true → bucket_count m' = 2 * bucket_count scenario_a).
Proof.
  split; [exact scenario_a_reachable|].
  split; [exact scenario_a_key_20|].
  split; [vm_compute; discriminate|].
  split; [vm_compute; discriminate|].
  apply (fm_put_existing_frame scenario_a (int_bytes 20) (int_bytes 999) 1 64).
  - exact scenario_a_reachable.
  - exact scenario_a_key_20.
  - vm_compute; discriminate.
  - vm_compute; discriminate.
Defined.

(** Twelve entries, keys 0..11. *)
Definition twelve : _FastMap :=
  default (fm_init 4 4)
    (put_all 64 (fm_init 4 4) ((λ i, (i, 10 * i)) <$> seqZ 0 12)).

Lemma twelve_reachable : reachable twelve.
Proof.
  unfold twelve.
  destruct (put_all 64 (fm_init 4 4) ((λ i, (i, 10 * i)) <$> seqZ 0 12)) as [m|] eqn:Hm.
  - simpl. eapply put_all_reachable; [apply reach_init|done].
  - vm_compute in Hm. done.
Qed.

(** C4 as stated fails: the load is tested before the insertion only.  The
    thirteenth put into a table of 16 buckets inserts without growing, and
    13 exceeds 16 × 0.80 = 12.8 (for the exact 4/5 as for the binary32
    constant 13421773 / 2^24). *)
Lemma fm_put_exceeds_load_factor :
  reachable twelve ∧
  ∃ m', fm_put 64 twelve (int_bytes 12) (int_bytes 120) = Some m' ∧
        length (keys m') = 13 ∧ bucket_count m' = 16 ∧
        ¬ (5 * length (keys m') ≤ 4 * bucket_count m') ∧
        ¬ (length (keys m') * 2 ^ 24 ≤ 13421773 * bucket_count m').
Proof.
  split; [exact twelve_reachable|].
  eexists. split; [vm_compute; reflexivity|].
  split; [reflexivity|]. split; [reflexivity|].
  split; vm_compute; intros Hle; by apply Hle.
Qed.

(** C4, amended.  After every [fm_put] the length is below the threshold
    [bucket_count × max_load_factor] by all but the entry just inserted:
    [length - 1 < bucket_count × 0.80f], where [0.80f] is the binary32
    constant 13421773 / 2^24; for tables of at most [2 ^ 24] buckets also
    [length - 1 ≤ bucket_count × 4/5]. *)
Theorem fm_put_load_bound m key value fuel :
  reachable m → bucket_count m ≤ 2 ^ 31 → 2 * bucket_count m ≤ Z.of_nat fuel →
  ∃ m',
    fm_put fuel m key value = Some m' ∧
    (length (keys m') - 1) * 2 ^ 24 < 13421773 * bucket_count m' ∧
    (bucket_count m' ≤ 2 ^ 24 → 5 * (length (keys m') - 1) ≤ 4 * bucket_count m').
Proof.
  intros Hm Hbc Hfuel. pose proof (reachable_wf m Hm) as Hwf.
  pose proof (wf_bc_bounds m Hwf) as Hsz. pose proof (wf_room _ Hwf) as Hroom.
  pose proof (wf_len_bounds m Hwf) as Hlen.
  assert (∀ m', (length (keys m') = length (keys m) ∨
                 length (keys m') = length (keys m) + 1) →
    bucket_count m' = (if load_exceeded m then 2 * bucket_count m else bucket_count m) →
    (length (keys m') - 1) * 2 ^ 24 < 13421773 * bucket_count m') as Hbound.
  { intros m' Hl Hb. rewrite Hb. destruct (load_exceeded m) eqn:Hload.
    - lia.
    - pose proof (load_exceeded_false_lt m Hwf Hload). lia. }
  assert (∃ m', fm_put fuel m key value = Some m' ∧
                (length (keys m') - 1) * 2 ^ 24 < 13421773 * bucket_count m')
    as (m' & Hput & Hlt).
  { destruct (key_at_dec m key) as [[p Hk]|Habs].
    - destruct (fm_put_existing m key value p fuel Hwf Hbc Hfuel Hk)
        as (m' & Hput & _ & Hkeys & _ & _ & _ & _ & _ & _ & Hbc' & _).
      exists m'. split; [done|]. apply Hbound; [left; by rewrite Hkeys|done].
    - destruct (fm_put_new m key value fuel Hwf Hbc Hfuel Habs)
        as (m' & Hput & _ & _ & _ & Hl & _ & _ & _ & _ & Hbc').
      exists m'. split; [done|]. apply Hbound; [by right|done]. }
  exists m'. split_and!; try done. intros Hsmall. lia.
Qed.

Lemma fm_put_load_bound_witness :
  reachable twelve ∧ bucket_count twelve ≤ 2 ^ 31 ∧
  2 * bucket_count twelve ≤ Z.of_nat 64 ∧
  ∃ m',
    fm_put 64 twelve (int_bytes 12) (int_bytes 120) = Some m' ∧
    (length (keys m') - 1) * 2 ^ 24 < 13421773 * bucket_count m' ∧
    (bucket_count m' ≤ 2 ^ 24 → 5 * (length (keys m') - 1) ≤ 4 * bucket_count m').
Proof.
  split; [exact twelve_reachable|].
  split; [vm_compute; discriminate|].
  split; [vm_compute; discriminate|].
  apply (fm_put_load_bound twelve (int_bytes 12) (int_bytes 120) 64).
  - exact twelve_reachable.
  - vm_compute; discriminate.
  - vm_compute; discriminate.
Defined.

(** The rebuild of the bucket index in the words of the specification: a
    fresh index of the new size, into which every live entry is placed from
    its cached digest, in dense-storage order.  Key bytes are no input. *)
Definition rebuild_step (fuel : nat) (digests : fm_vector) (new_capacity : Z)
    (index : option (list Z)) (position : Z) : option (list Z) :=
  B ← index;
  digest ← hash_at digests position;
  fm_place_index fuel B (new_capacity - 1) digest position digests.

Definition rebuild_index_spec (fuel : nat) (digests : fm_vector)
    (len new_capacity : Z) : option (list Z) :=
  foldl (rebuild_step fuel digests new_capacity)
        (Some (replicate (Z.to_nat new_capacity) FM_EMPTY_IDX))
        (seqZ 0 len).

Lemma rebuild_step_None fuel digests nc l :
  foldl (rebuild_step fuel digests nc) None l = None.
Proof. induction l as [|i l IH]; [done|]. simpl. apply IH. Qed.

Lemma fm_resize_loop_fold fuel steps m nb nc i :
  0 ≤ i → i + Z.of_nat steps = length (keys m) → length (keys m) ≤ 2 ^ 32 →
  fm_resize_loop fuel steps m nb (nc - 1) i =
  foldl (rebuild_step fuel (hashes m) nc) (Some nb) (seqZ i (Z.of_nat steps)).
Proof.
  revert nb i. induction steps as [|steps IH]; intros nb i Hi Hsteps Hlen.
  - simpl. destruct (Z.ltb_spec i (length (keys m))); [lia|done].
  - rewrite seqZ_cons by lia. cbn [fm_resize_loop foldl].
    destruct (Z.ltb_spec i (length (keys m))); [|lia].
    unfold rebuild_step at 2. cbn [mbind option_bind].
    unfold wrap32, wrap64. rewrite !Z.mod_small by lia.
    destruct (hash_at (hashes m) i) as [h|]; cbn [mbind option_bind];
      [|by rewrite rebuild_step_None].
    destruct (fm_place_index fuel nb (nc - 1) h i (hashes m)) as [nb'|];
      cbn [mbind option_bind]; [|by rewrite rebuild_step_None].
    rewrite IH by lia. f_equal. f_equal; lia.
Qed.

Lemma fm_resize_fold fuel m nc :
  0 ≤ length (keys m) ≤ 2 ^ 32 → 0 < nc < 2 ^ 64 →
  fm_resize fuel m nc =
  (B ← rebuild_index_spec fuel (hashes m) (length (keys m)) nc;
   Some (set_buckets m B nc (nc - 1))).
Proof.
  intros Hlen Hnc. unfold fm_resize, rebuild_index_spec, wrap64.
  rewrite Z.mod_small by lia.
  rewrite fm_resize_loop_fold by lia.
  by rewrite Z2Nat.id by lia.
Qed.

(** C7. [fm_resize] returns the map with the bucket array that the rebuild
    of the specification produces from the cached digests alone, in dense
    order, and with the keys, values and hashes vectors it was given; the
    same bucket array results whatever bytes the keys vector holds. *)
Theorem fm_resize_rebuilds_from_digests m new_capacity fuel :
  reachable m → table_size new_capacity →
  length (keys m) < new_capacity → new_capacity ≤ Z.of_nat fuel →
  ∃ B m',
    rebuild_index_spec fuel (hashes m) (length (keys m)) new_capacity = Some B ∧
    fm_resize fuel m new_capacity = Some m' ∧
    buckets m' = B ∧ bucket_count m' = new_capacity ∧
    bucket_mask m' = new_capacity - 1 ∧
    keys m' = keys m ∧ values m' = values m ∧ hashes m' = hashes m ∧
    key_size m' = key_size m ∧ val_size m' = val_size m ∧
    (∀ other_keys, length other_keys = length (keys m) →
       ∃ m2, fm_resize fuel (set_dense m other_keys (values m) (hashes m))
               new_capacity = Some m2 ∧
             buckets m2 = B).
Proof.
  intros Hm Hnc Hroom Hfuel. pose proof (reachable_wf m Hm) as Hwf.
  pose proof (wf_len_bounds m Hwf) as Hlen.
  pose proof (table_size_bounds _ Hnc) as Hsz.
  destruct (fm_resize_spec m new_capacity fuel Hwf Hnc Hroom Hfuel) as (B & HB & _).
  pose proof HB as HB'. rewrite fm_resize_fold in HB' by lia.
  destruct (rebuild_index_spec fuel (hashes m) (length (keys m)) new_capacity)
    as [B0|] eqn:Hspec; simpl in HB'; [|done].
  injection HB' as ->.
  exists B, (set_buckets m B new_capacity (new_capacity - 1)).
  split_and!; try done.
  intros other_keys Hother. eexists.
  rewrite fm_resize_fold by (simpl; lia). simpl. rewrite Hother, Hspec. simpl.
  split; reflexivity.
Qed.

Lemma fm_resize_rebuilds_from_digests_witness :
  reachable full_16 ∧ table_size 32 ∧
  length (keys full_16) < 32 ∧ 32 ≤ Z.of_nat 64 ∧
  ∃ B m',
    rebuild_index_spec 64 (hashes full_16) (length (keys full_16)) 32 = Some B ∧
    fm_resize 64 full_16 32 = Some m' ∧
    buckets m' = B ∧ bucket_count m' = 32 ∧
    bucket_mask m' = 32 - 1 ∧
    keys m' = keys full_16 ∧ values m' = values full_16 ∧ hashes m' = hashes full_16 ∧
    key_size m' = key_size full_16 ∧ val_size m' = val_size full_16 ∧
    (∀ other_keys, length other_keys = length (keys full_16) →
       ∃ m2, fm_resize 64 (set_dense full_16 other_keys (values full_16) (hashes full_16))
               32 = Some m2 ∧
             buckets m2 = B).
Proof.
  assert (table_size 32) as Hts by (exists 5; split; [lia|reflexivity]).
  split; [exact full_16_reachable|].
  split; [exact Hts|].
  split; [vm_compute; reflexivity|].
  split; [vm_compute; discriminate|].
  apply (fm_resize_rebuilds_from_digests full_16 32 64).
  - exact full_16_reachable.
  - exact Hts.
  - vm_compute; reflexivity.
  - vm_compute; discriminate.
Defined.

(** A [char*] key.  The map is handed the address of the pointer variable:
    the key bytes are the eight bytes of the pointer value, and the text
    it points to is no part of them. *)
Record c_string := { address : Z; text : list byte }.

Definition string_key (s : c_string) : list byte := le_bytes 8 (address s).

(** C8. Put, get and erase see the key argument through its first
    [key_size] bytes only.  The digest is [fm_hash] over those bytes: the
    probes of a lookup and of an erase start at the home slot of that
    digest and a new entry caches it.  Keys are matched by equality of
    those bytes and by nothing else: a lookup returns the cell of a
    position exactly when the key cell there holds those bytes and NULL
    exactly when no key cell does, an erase returns true exactly when some
    key cell holds them and false (leaving the map as it is) exactly when
    none does, a put on a stored cell with those bytes overwrites the value
    of that cell, and a new entry stores those bytes.  Two arguments with
    the same [key_size] bytes give the same results.  For a pointer-typed
    key these are the bits of the pointer: after a put under one address,
    a lookup under another address fails even when both point to the same
    text. *)
Theorem fm_key_is_raw_bytes m key1 key2 value fuel :
  reachable m →
  read_bytes key1 (key_size m) = read_bytes key2 (key_size m) →
  (fm_hash key1 (key_size m) = fm_hash key2 (key_size m) ∧
   fm_put fuel m key1 value = fm_put fuel m key2 value ∧
   fm_get fuel m key1 = fm_get fuel m key2 ∧
   fm_erase fuel m key1 = fm_erase fuel m key2) ∧
  (fm_get fuel m key1 =
     fm_get_loop fuel m key1
       (Z.land (fm_hash (read_bytes key1 (key_size m)) (key_size m)) (bucket_mask m)) 0 ∧
   fm_erase fuel m key1 =
     fm_erase_loop fuel fuel m key1
       (Z.land (fm_hash (read_bytes key1 (key_size m)) (key_size m)) (bucket_mask m)) 0) ∧
  (bucket_count m ≤ Z.of_nat fuel →
   (∀ ptr, fm_get fuel m key1 = Some (Some ptr) ↔
      0 ≤ ptr < length (keys m) ∧
      fm_vec_at (keys m) ptr = Some (read_bytes key2 (key_size m))) ∧
   (fm_get fuel m key1 = Some None ↔
      ∀ p, 0 ≤ p < length (keys m) →
           fm_vec_at (keys m) p ≠ Some (read_bytes key2 (key_size m))) ∧
   ((∃ m', fm_erase fuel m key1 = Some (true, m')) ↔
      ∃ p, 0 ≤ p < length (keys m) ∧
           fm_vec_at (keys m) p = Some (read_bytes key2 (key_size m))) ∧
   (fm_erase fuel m key1 = Some (false, m) ↔
      ∀ p, 0 ≤ p < length (keys m) →
           fm_vec_at (keys m) p ≠ Some (read_bytes key2 (key_size m)))) ∧
  (∀ ptr, fm_get fuel m key1 = Some (Some ptr) →
     fm_vec_at (keys m) ptr = Some (read_bytes key1 (key_size m))) ∧
  (∀ m', fm_erase fuel m key1 = Some (true, m') → ∃ p, key_at m p key1) ∧
  (bucket_count m ≤ 2 ^ 31 → 2 * bucket_count m ≤ Z.of_nat fuel →
   ∀ p, 0 ≤ p < length (keys m) →
        fm_vec_at (keys m) p = Some (read_bytes key2 (key_size m)) →
   ∃ m', fm_put fuel m key1 value = Some m' ∧
         keys m' = keys m ∧ hashes m' = hashes m ∧
         fm_vec_at (values m') p = Some (read_bytes value (val_size m))) ∧
  (bucket_count m ≤ 2 ^ 31 → 2 * bucket_count m ≤ Z.of_nat fuel →
   key_absent m key1 →
   ∃ m', fm_put fuel m key1 value = Some m' ∧
         fm_vec_at (keys m') (length (keys m)) = Some (read_bytes key1 (key_size m)) ∧
         hash_at (hashes m') (length (keys m)) = Some (fm_hash key1 (key_size m))) ∧
  (∀ s1 s2,
     key_size m = 8 → text s1 = text s2 →
     0 ≤ address s1 < 2 ^ 64 → 0 ≤ address s2 < 2 ^ 64 →
     address s1 ≠ address s2 →
     bucket_count m ≤ 2 ^ 31 → 2 * bucket_count m ≤ Z.of_nat fuel →
     key_absent m (string_key s2) →
     ∃ m', fm_put fuel m (string_key s1) value = Some m' ∧
           fm_get fuel m' (string_key s2) = Some None).
Proof.
  intros Hm Heq. pose proof (reachable_wf m Hm) as Hwf.
  pose proof (wf_bc_bounds m Hwf) as Hsz.
  assert (∀ p, key_at m p key1 ↔
               0 ≤ p < length (keys m) ∧
               fm_vec_at (keys m) p = Some (read_bytes key2 (key_size m))) as Hat.
  { intros p. unfold key_at. by rewrite Heq. }
  assert (key_absent m key1 ↔
          ∀ p, 0 ≤ p < length (keys m) →
               fm_vec_at (keys m) p ≠ Some (read_bytes key2 (key_size m))) as Habsent.
  { split.
    - intros Habs p Hp Hc. apply (Habs p), Hat. done.
    - intros Hno p [Hp Hc]%Hat. by apply (Hno p). }
  split_and!.
  - by apply fm_hash_ext.
  - apply fm_put_ext; [apply Hwf|done].
  - by apply fm_get_ext.
  - by apply fm_erase_ext.
  - unfold fm_get. by rewrite fm_hash_read_bytes.
  - unfold fm_erase. by rewrite fm_hash_read_bytes.
  - intros Hfuel. split_and!.
    + intros ptr. rewrite <- Hat. split.
      * by apply fm_get_sound.
      * intros Hk. by apply fm_get_found.
    + rewrite <- Habsent. split.
      * intros Hget p Hk. rewrite (fm_get_found m key1 p fuel Hwf Hk Hfuel) in Hget. done.
      * intros Habs. by apply fm_get_absent.
    + split.
      * intros [m' Her]. destruct (key_at_dec m key1) as [[p Hk]|Habs].
        -- exists p. by apply Hat.
        -- rewrite (fm_erase_absent m key1 fuel Hwf Habs Hfuel) in Her. done.
      * intros (p & Hk%Hat).
        destruct (fm_erase_present m key1 p fuel Hwf Hk Hfuel) as (m' & Her & _).
        by exists m'.
    + rewrite <- Habsent. split.
      * intros Her p Hk.
        destruct (fm_erase_present m key1 p fuel Hwf Hk Hfuel) as (m' & Her' & _).
        rewrite Her in Her'. done.
      * intros Habs. by apply fm_erase_absent.
  - intros ptr Hget. by destruct (fm_get_sound m fuel key1 ptr Hwf Hget).
  - intros m' Her. destruct (key_at_dec m key1) as [?|Habs]; [done|].
    set (fuel' := (fuel `max` Z.to_nat (bucket_count m))%nat).
    apply (fm_erase_mono fuel fuel') in Her; [|lia].
    rewrite (fm_erase_absent m key1 fuel' Hwf Habs) in Her by lia. done.
  - intros Hbc Hfuel p Hp Hc.
    assert (key_at m p key1) as Hk by (by apply Hat).
    destruct (fm_put_existing m key1 value p fuel Hwf Hbc Hfuel Hk)
      as (m' & Hput & _ & Hkeys & Hhash & _ & _ & _ & Hvp & _).
    by exists m'.
  - intros Hbc Hfuel Habs.
    destruct (fm_put_new m key1 value fuel Hwf Hbc Hfuel Habs)
      as (m' & Hput & _ & _ & _ & _ & Hkey & _ & Hhash & _).
    eauto.
  - intros s1 s2 Hks Htext Ha1 Ha2 Hne Hbc Hfuel Habs2.
    assert (read_bytes (string_key s1) 8 ≠ read_bytes (string_key s2) 8) as Hbytes.
    { unfold string_key. rewrite !read_bytes_exact by (by rewrite length_le_bytes).
      intros Hb. by apply Hne, le_bytes_8_inj. }
    destruct (key_at_dec m (string_key s1)) as [[p Hk]|Habs1].
    + destruct (fm_put_existing m (string_key s1) value p fuel Hwf Hbc Hfuel Hk)
        as (m' & Hput & Hwf' & Hkeys & _ & Hks' & _ & _ & _ & _ & Hbc' & _).
      exists m'. split; [done|]. apply fm_get_absent; [done| |].
      * eapply key_absent_ext; [| |exact Habs2]; done.
      * rewrite Hbc'. case_match; lia.
    + destruct (fm_put_new m (string_key s1) value fuel Hwf Hbc Hfuel Habs1)
        as (m' & Hput & Hwf' & Hks' & _ & Hlen & Hkey & _ & _ & Hcells & Hbc').
      exists m'. split; [done|]. apply fm_get_absent; [done| |].
      * intros q [Hq Hc]. rewrite Hks' in Hc.
        destruct (decide (q = length (keys m))) as [->|Hql].
        -- rewrite Hkey in Hc. injection Hc as Hc. rewrite Hks in Hc. done.
        -- destruct (Hcells q) as [Hkq _]; [lia|]. rewrite Hkq in Hc.
           apply (Habs2 q). split; [lia|done].
      * rewrite Hbc'. case_match; lia.
Qed.

(** The keys of the string test of the client: the literals ["apple"],
    ["banana"] and ["cherry"], and a buffer holding the text of the first,
    at four addresses. *)
Definition apple : list byte := [x61; x70; x70; x6c; x65; x00].
Definition banana : list byte := [x62; x61; x6e; x61; x6e; x61; x00].
Definition cherry : list byte := [x63; x68; x65; x72; x72; x79; x00].
Definition apple_literal : c_string := {| address := 0x402010; text := apple |}.
Definition banana_literal : c_string := {| address := 0x402016; text := banana |}.
Definition cherry_literal : c_string := {| address := 0x40201d; text := cherry |}.
Definition apple_buffer : c_string := {| address := 0x7ffc0010; text := apple |}.

(** The map of that test after its three puts. *)
Definition string_map_1 : _FastMap :=
  default (fm_init 8 4)
    (fm_put 64 (fm_init 8 4) (string_key apple_literal) (int_bytes 1)).

Definition string_map_2 : _FastMap :=
  default string_map_1 (fm_put 64 string_map_1 (string_key banana_literal) (int_bytes 2)).

Definition string_map : _FastMap :=
  default string_map_2 (fm_put 64 string_map_2 (string_key cherry_literal) (int_bytes 3)).

Lemma string_map_reachable : reachable string_map.
Proof.
  assert (fm_put 64 (fm_init 8 4) (string_key apple_literal) (int_bytes 1)
          = Some string_map_1) as H1 by (vm_compute; reflexivity).
  assert (fm_put 64 string_map_1 (string_key banana_literal) (int_bytes 2)
          = Some string_map_2) as H2 by (vm_compute; reflexivity).
  assert (fm_put 64 string_map_2 (string_key cherry_literal) (int_bytes 3)
          = Some string_map) as H3 by (vm_compute; reflexivity).
  apply (reach_put string_map_2 64 (string_key cherry_literal) (int_bytes 3));
    [|vm_compute; discriminate|exact H3].
  apply (reach_put string_map_1 64 (string_key banana_literal) (int_bytes 2));
    [|vm_compute; discriminate|exact H2].
  apply (reach_put (fm_init 8 4) 64 (string_key apple_literal) (int_bytes 1));
    [|vm_compute; discriminate|exact H1].
  apply reach_init.
Qed.

(** On that map the lookup under the address of the literal finds the
    entry and the lookup under the address of the buffer does not. *)
Example string_map_lookups :
  length (keys string_map) = 3 ∧
  fm_get 64 string_map (string_key apple_literal) = Some (Some 0) ∧
  fm_get 64 string_map (string_key cherry_literal) = Some (Some 2) ∧
  fm_get 64 string_map (string_key apple_buffer) = Some None ∧
  (fst <$> fm_erase 64 string_map (string_key apple_buffer)) = Some false ∧
  (fst <$> fm_erase 64 string_map (string_key apple_literal)) = Some true.
Proof. vm_compute. done. Qed.

Lemma fm_key_is_raw_bytes_witness :
  reachable string_map ∧
  read_bytes (string_key apple_literal) (key_size string_map) =
  read_bytes (string_key apple_literal ++ [x00]) (key_size string_map) ∧
  (bucket_count string_map ≤ Z.of_nat 64 →
   (∀ ptr, fm_get 64 string_map (string_key apple_literal) = Some (Some ptr) ↔
      0 ≤ ptr < length (keys string_map) ∧
      fm_vec_at (keys string_map) ptr =
        Some (read_bytes (string_key apple_literal ++ [x00]) (key_size string_map))) ∧
   (fm_get 64 string_map (string_key apple_literal) = Some None ↔
      ∀ p, 0 ≤ p < length (keys string_map) →
           fm_vec_at (keys string_map) p ≠
             Some (read_bytes (string_key apple_literal ++ [x00]) (key_size string_map))) ∧
   ((∃ m', fm_erase 64 string_map (string_key apple_literal) = Some (true, m')) ↔
      ∃ p, 0 ≤ p < length (keys string_map) ∧
           fm_vec_at (keys string_map) p =
             Some (read_bytes (string_key apple_literal ++ [x00]) (key_size string_map))) ∧
   (fm_erase 64 string_map (string_key apple_literal) = Some (false, string_map) ↔
      ∀ p, 0 ≤ p < length (keys string_map) →
           fm_vec_at (keys string_map) p ≠
             Some (read_bytes (string_key apple_literal ++ [x00]) (key_size string_map)))) ∧
  (∀ s1 s2,
     key_size string_map = 8 → text s1 = text s2 →
     0 ≤ address s1 < 2 ^ 64 → 0 ≤ address s2 < 2 ^ 64 →
     address s1 ≠ address s2 →
     bucket_count string_map ≤ 2 ^ 31 → 2 * bucket_count string_map ≤ Z.of_nat 64 →
     key_absent string_map (string_key s2) →
     ∃ m', fm_put 64 string_map (string_key s1) (int_bytes 1) = Some m' ∧
           fm_get 64 m' (string_key s2) = Some None).
Proof.
  split; [exact string_map_reachable|]. split; [vm_compute; reflexivity|].
  pose proof (fm_key_is_raw_bytes string_map (string_key apple_literal)
                (string_key apple_literal ++ [x00]) (int_bytes 1) 64
                string_map_reachable) as Hthm.
  destruct Hthm as (_ & _ & Hmatch & _ & _ & _ & _ & Hstr).
  - vm_compute; reflexivity.
  - split; [exact Hmatch|exact Hstr].
Defined.

(** C9. The float and double hash helpers replace a value that compares
    equal to zero by positive zero before hashing, so values that compare
    equal hash equal; in particular negative zero hashes as positive
    zero. *)
Theorem float_keys_hash_equal :
  (∀ a b, 0 ≤ a < 2 ^ 32 → 0 ≤ b < 2 ^ 32 →
     float_eq a b = true → fm_hash_float a = fm_hash_float b) ∧
  (∀ a b, 0 ≤ a < 2 ^ 64 → 0 ≤ b < 2 ^ 64 →
     double_eq a b = true → fm_hash_double a = fm_hash_double b) ∧
  fm_hash_float 0x80000000 = fm_hash_float 0 ∧
  fm_hash_double 0x8000000000000000 = fm_hash_double 0.
Proof.
  split_and!.
  - intros a b Ha Hb Heq. unfold float_eq in Heq.
    destruct (decode_ieee_eq 23 8 ltac:(lia) ltac:(lia) a b Ha Hb Heq)
      as [->|(sa & sb & Hza & Hzb)]; [done|].
    unfold fm_hash_float, float_eq. rewrite Hza, Hzb. done.
  - intros a b Ha Hb Heq. unfold double_eq in Heq.
    destruct (decode_ieee_eq 52 11 ltac:(lia) ltac:(lia) a b Ha Hb Heq)
      as [->|(sa & sb & Hza & Hzb)]; [done|].
    unfold fm_hash_double, double_eq. rewrite Hza, Hzb. done.
  - reflexivity.
  - reflexivity.
Qed.

Lemma float_keys_hash_equal_witness :
  float_eq 0x80000000 0 = true ∧ fm_hash_float 0x80000000 = fm_hash_float 0.
Proof.
  split; [reflexivity|].
  apply (proj1 float_keys_hash_equal); [lia|lia|reflexivity].
Defined.

(** * The contents of a map

    The entries of a map in dense order: the key cell and the value cell of
    every position below [length]. *)

Definition entries (m : _FastMap) : list (list byte * list byte) :=
  zip (take (Z.to_nat (length (keys m))) (data (keys m)))
      (take (Z.to_nat (length (keys m))) (data (values m))).

(** Insert-or-update on a list of entries: the value of the first entry
    with key [k] is replaced, and an entry is appended when there is none. *)
Fixpoint upsert (k v : list byte) (l : list (list byte * list byte))
  : list (list byte * list byte) :=
  match l with
  | [] => [(k, v)]
  | (k', v') :: l' =>
      if decide (k' = k) then (k, v) :: l' else (k', v') :: upsert k v l'
  end.

(** Removal of position [p] by moving the last element into its place. *)
Definition swap_remove {A} (p : nat) (l : list A) : list A :=
  match last l with
  | Some x => take (List.length l - 1) (<[p := x]> l)
  | None => l
  end.

Lemma list_eq_Some {A} (l k : list A) :
  (∀ i x, l !! i = Some x ↔ k !! i = Some x) → l = k.
Proof.
  intros H. apply list_eq. intros i. destruct (l !! i) as [x|] eqn:E.
  - symmetry. by apply H.
  - destruct (k !! i) as [y|] eqn:E2; [|done]. apply H in E2. congruence.
Qed.

Lemma entries_lookup m (i : nat) k v :
  entries m !! i = Some (k, v) ↔
  Z.of_nat i < length (keys m) ∧
  fm_vec_at (keys m) (Z.of_nat i) = Some k ∧
  fm_vec_at (values m) (Z.of_nat i) = Some v.
Proof.
  unfold entries, fm_vec_at. rewrite Nat2Z.id.
  rewrite lookup_zip_with_Some. setoid_rewrite lookup_take_Some. split.
  - intros (x & y & [= -> ->] & [Hx Hi] & [Hy _]). split_and!; [lia|done|done].
  - intros (Hi & Hk & Hv). exists k, v. split_and!; try done; lia.
Qed.

Lemma length_entries m :
  map_wf m → List.length (entries m) = Z.to_nat (length (keys m)).
Proof.
  intros Hwf. unfold entries. rewrite length_zip_with, !length_take.
  pose proof (vec_len _ _ (wf_keys _ Hwf)).
  pose proof (vec_len _ _ (wf_values _ Hwf)).
  pose proof (wf_values_len _ Hwf).
  rewrite (vec_data_len _ _ (wf_keys _ Hwf)), (vec_data_len _ _ (wf_values _ Hwf)).
  lia.
Qed.

Lemma entries_key_at m p key :
  map_wf m →
  key_at m p key ↔
  0 ≤ p ∧ ∃ v, entries m !! Z.to_nat p = Some (read_bytes key (key_size m), v) ∧
               deref_value m p = Some v.
Proof.
  intros Hwf. unfold deref_value. split.
  - intros [Hp Hk].
    destruct (vec_wf_at (values m) (val_size m) p (wf_values _ Hwf)) as (v & Hv & _).
    { pose proof (vec_len _ _ (wf_values _ Hwf)). pose proof (wf_values_len _ Hwf). lia. }
    split; [lia|]. exists v. split; [|done].
    apply entries_lookup. rewrite Z2Nat.id by lia. split_and!; [lia|done|done].
  - intros (Hp & v & He & _). apply entries_lookup in He.
    rewrite Z2Nat.id in He by lia. destruct He as (Hlt & Hk & _). by split.
Qed.

Lemma entries_key_absent m key :
  map_wf m →
  key_absent m key ↔ read_bytes key (key_size m) ∉ (entries m).*1.
Proof.
  intros Hwf. split.
  - intros Habs [i Hi]%list_elem_of_lookup.
    apply list_lookup_fmap_Some in Hi as ([k v] & Hk & He). simpl in Hk. subst k.
    apply entries_lookup in He as (Hlt & Hk & _).
    apply (Habs (Z.of_nat i)). split; [lia|done].
  - intros Hnin p Hk. apply (entries_key_at m p key Hwf) in Hk as (Hp & v & He & _).
    apply Hnin. apply list_elem_of_lookup. exists (Z.to_nat p).
    by rewrite list_lookup_fmap, He.
Qed.

Lemma entries_NoDup m : map_wf m → NoDup (entries m).*1.
Proof.
  intros Hwf. apply NoDup_alt. intros i j k Hi Hj.
  apply list_lookup_fmap_Some in Hi as ([k1 v1] & Hk1 & Hi).
  apply list_lookup_fmap_Some in Hj as ([k2 v2] & Hk2 & Hj).
  simpl in *. subst k1 k2.
  apply entries_lookup in Hi as (Hi & Hki & _).
  apply entries_lookup in Hj as (Hj & Hkj & _).
  assert (Z.of_nat i = Z.of_nat j); [|lia].
  eapply (wf_distinct _ Hwf); [| |done|done]; lia.
Qed.

Lemma upsert_absent k v l : k ∉ l.*1 → upsert k v l = l ++ [(k, v)].
Proof.
  induction l as [|[k' v'] l IH]; intros Hk; simpl; [done|].
  rewrite fmap_cons, not_elem_of_cons in Hk. simpl in Hk. destruct Hk as [Hne Hk].
  rewrite decide_False by done. by rewrite IH.
Qed.

Lemma upsert_present k v l (p : nat) :
  NoDup l.*1 → l.*1 !! p = Some k → upsert k v l = <[p := (k, v)]> l.
Proof.
  revert p. induction l as [|[k' v'] l IH]; intros p Hnd Hp; [done|].
  rewrite fmap_cons in Hnd, Hp. simpl in Hnd, Hp.
  apply NoDup_cons in Hnd as [Hnin Hnd]. simpl.
  destruct p as [|p]; simpl in Hp.
  - injection Hp as ->. by rewrite decide_True.
  - rewrite decide_False.
    + simpl. f_equal. by apply IH.
    + intros ->. apply Hnin. by eapply list_elem_of_lookup_2.
Qed.

Lemma fm_get_None_absent m key fuel :
  map_wf m → bucket_count m ≤ Z.of_nat fuel →
  fm_get fuel m key = Some None → key_absent m key.
Proof.
  intros Hwf Hfuel Hget p Hk.
  rewrite (fm_get_found m key p fuel Hwf Hk Hfuel) in Hget. done.
Qed.

Lemma fm_get_cases m key fuel :
  map_wf m → bucket_count m ≤ Z.of_nat fuel →
  (∃ p, key_at m p key ∧ fm_get fuel m key = Some (Some p)) ∨
  (key_absent m key ∧ fm_get fuel m key = Some None).
Proof.
  intros Hwf Hfuel. destruct (key_at_dec m key) as [[p Hk]|Habs].
  - left. exists p. split; [done|]. by apply fm_get_found.
  - right. split; [done|]. by apply fm_get_absent.
Qed.

(** * Lookups *)

(** X1. On a reachable map [fm_get] is an exact lookup in the list of
    entries: it returns a pointer to the value cell of dense position [p]
    exactly when the entry at position [p] has the [key_size] bytes of the
    key argument, and it returns NULL exactly when no entry has them.  The
    probe loop ends within [bucket_count] iterations. *)
Theorem fm_get_refines_lookup m key fuel :
  reachable m → bucket_count m ≤ Z.of_nat fuel →
  (∀ p, fm_get fuel m key = Some (Some p) ↔
        0 ≤ p ∧ ∃ v, entries m !! Z.to_nat p = Some (read_bytes key (key_size m), v) ∧
                     deref_value m p = Some v) ∧
  (fm_get fuel m key = Some None ↔ read_bytes key (key_size m) ∉ (entries m).*1).
Proof.
  intros Hm Hfuel. pose proof (reachable_wf m Hm) as Hwf. split.
  - intros p. rewrite <- (entries_key_at m p key Hwf). split.
    + by apply fm_get_sound.
    + intros Hk. by apply fm_get_found.
  - rewrite <- (entries_key_absent m key Hwf). split.
    + by apply fm_get_None_absent.
    + intros Habs. by apply fm_get_absent.
Qed.

Lemma fm_get_refines_lookup_witness :
  reachable scenario_a ∧ bucket_count scenario_a ≤ Z.of_nat 64 ∧
  (∀ p, fm_get 64 scenario_a (int_bytes 20) = Some (Some p) ↔
        0 ≤ p ∧ ∃ v, entries scenario_a !! Z.to_nat p =
                       Some (read_bytes (int_bytes 20) (key_size scenario_a), v) ∧
                     deref_value scenario_a p = Some v) ∧
  (fm_get 64 scenario_a (int_bytes 20) = Some None ↔
   read_bytes (int_bytes 20) (key_size scenario_a) ∉ (entries scenario_a).*1).
Proof.
  split; [exact scenario_a_reachable|].
  split; [vm_compute; discriminate|].
  apply (fm_get_refines_lookup scenario_a (int_bytes 20) 64).
  - exact scenario_a_reachable.
  - vm_compute; discriminate.
Defined.

(** X2. A map as [fm_init] leaves it is empty: it has no entry and 16
    buckets, all of them empty; every lookup returns NULL and every erase
    returns false and leaves the map as it is, whatever the key and the key
    and value sizes, after one probe. *)
Theorem fm_init_empty ks vs key fuel :
  (0 < fuel)%nat →
  entries (fm_init ks vs) = [] ∧
  bucket_count (fm_init ks vs) = 16 ∧
  (∀ b, (b < 16)%nat → buckets (fm_init ks vs) !! b = Some FM_EMPTY_IDX) ∧
  fm_get fuel (fm_init ks vs) key = Some None ∧
  fm_erase fuel (fm_init ks vs) key = Some (false, fm_init ks vs).
Proof.
  intros Hfuel. destruct fuel as [|fuel]; [lia|].
  assert (∀ b, (b < 16)%nat → replicate 16 FM_EMPTY_IDX !! b = Some FM_EMPTY_IDX) as Hb.
  { intros b Hb. by apply lookup_replicate_2. }
  pose proof (land_mask_range 16 (fm_hash key ks) ltac:(by exists 4)) as Hr.
  split_and!; [done|done|exact Hb| |].
  - unfold fm_get. cbn [fm_get_loop fm_init buckets bucket_mask key_size].
    change 15 with (16 - 1). by rewrite Hb by lia.
  - unfold fm_erase. cbn [fm_erase_loop].
    cbn [fm_init buckets bucket_mask key_size].
    change 15 with (16 - 1). by rewrite Hb by lia.
Qed.

Lemma fm_init_empty_witness :
  (0 < 1)%nat ∧
  entries (fm_init 4 4) = [] ∧
  bucket_count (fm_init 4 4) = 16 ∧
  (∀ b, (b < 16)%nat → buckets (fm_init 4 4) !! b = Some FM_EMPTY_IDX) ∧
  fm_get 1 (fm_init 4 4) (int_bytes 7) = Some None ∧
  fm_erase 1 (fm_init 4 4) (int_bytes 7) = Some (false, fm_init 4 4).
Proof.
  split; [lia|]. apply (fm_init_empty 4 4 (int_bytes 7) 1). lia.
Defined.

(** * Updates as operations on the list of entries *)

Lemma fm_put_entries m key value fuel :
  map_wf m → bucket_count m ≤ 2 ^ 31 → 2 * bucket_count m ≤ Z.of_nat fuel →
  ∃ m', fm_put fuel m key value = Some m' ∧ map_wf m' ∧
    key_size m' = key_size m ∧ val_size m' = val_size m ∧
    entries m' = upsert (read_bytes key (key_size m))
                        (read_bytes value (val_size m)) (entries m) ∧
    bucket_count m' = (if load_exceeded m then 2 * bucket_count m else bucket_count m).
Proof.
  intros Hwf Hbc Hfuel. pose proof (wf_len_bounds m Hwf) as Hlen.
  destruct (key_at_dec m key) as [[p Hk]|Habs].
  - destruct (fm_put_existing m key value p fuel Hwf Hbc Hfuel Hk)
      as (m' & Hput & Hwf' & Hkeys & Hhash & Hks & Hvs & Hvlen & Hvp & Hvq & Hbc' & _).
    exists m'. split_and!; try done.
    pose proof Hk as Hk'.
    apply (entries_key_at m p key Hwf) in Hk' as (Hp & v & He & _).
    rewrite (upsert_present _ _ _ (Z.to_nat p)).
    2: { by apply entries_NoDup. }
    2: { by rewrite list_lookup_fmap, He. }
    apply list_eq_Some. intros i [k x].
    rewrite entries_lookup, list_lookup_insert_Some, entries_lookup, Hkeys.
    rewrite (length_entries m Hwf).
    destruct Hk as [Hpr Hkc].
    destruct (decide (Z.of_nat i = p)) as [<-|Hne].
    + rewrite Nat2Z.id, Hvp, Hkc. split.
      * intros (Hi & [= <-] & [= <-]). left. split_and!; [done|done|lia].
      * intros [(_ & [= <- <-] & Hi)|[Hi _]]; [|done]. split_and!; [lia|done|done].
    + rewrite (Hvq (Z.of_nat i)) by lia. split.
      * intros (Hi & Hkc' & Hvc). right. split; [lia|done].
      * intros [(Hi & _)|[_ Hr]]; [lia|done].
  - destruct (fm_put_new m key value fuel Hwf Hbc Hfuel Habs)
      as (m' & Hput & Hwf' & Hks & Hvs & Hlen' & Hkl & Hvl & _ & Hq & Hbc').
    exists m'. split_and!; try done.
    rewrite upsert_absent by (by apply entries_key_absent).
    apply list_eq_Some. intros i [k x].
    rewrite entries_lookup, lookup_snoc_Some, entries_lookup, Hlen'.
    rewrite (length_entries m Hwf).
    destruct (decide (Z.of_nat i = length (keys m))) as [Hi|Hne].
    + rewrite Hi, Hkl, Hvl. split.
      * intros (_ & [= <-] & [= <-]). right. split; [lia|done].
      * intros [[Hlt _]|[_ [= <- <-]]]; [lia|]. split_and!; [lia|done|done].
    + split.
      * intros (Hlt & Hkc & Hvc). left.
        destruct (Hq (Z.of_nat i)) as (Hqk & Hqv & _); [lia|].
        rewrite <- Hqk, <- Hqv. split_and!; try done; lia.
      * intros [(Hlt & Hlt' & Hkc & Hvc)|[Hi _]]; [|lia].
        destruct (Hq (Z.of_nat i)) as (Hqk & Hqv & _); [lia|].
        rewrite Hqk, Hqv. split_and!; try done; lia.
Qed.

Lemma swap_remove_lookup {A} (l : list A) (p i : nat) x y :
  (p < List.length l)%nat → last l = Some x →
  swap_remove p l !! i = Some y ↔
  (i < List.length l - 1)%nat ∧ (if decide (i = p) then y = x else l !! i = Some y).
Proof.
  intros Hp Hlast. unfold swap_remove. rewrite Hlast.
  rewrite lookup_take_Some, list_lookup_insert_Some. case_decide as Hi.
  - subst i. split.
    + intros [[(_ & -> & _)|[? _]] Hlt]; done.
    + intros [Hlt ->]. split; [|done]. left. split_and!; [done|done|lia].
  - split.
    + intros [[(-> & _)|[_ Hl]] Hlt]; done.
    + intros [Hlt Hl]. split; [|done]. right. split; [done|done].
Qed.

Lemma fm_erase_entries m key p fuel :
  map_wf m → key_at m p key → bucket_count m ≤ Z.of_nat fuel →
  ∃ m', fm_erase fuel m key = Some (true, m') ∧ map_wf m' ∧
    key_size m' = key_size m ∧ val_size m' = val_size m ∧
    bucket_count m' = bucket_count m ∧
    entries m' = swap_remove (Z.to_nat p) (entries m).
Proof.
  intros Hwf Hk Hfuel.
  destruct (fm_erase_present m key p fuel Hwf Hk Hfuel)
    as (m' & Her & Hwf' & Hks & Hvs & Hbc & Hlen & Hcells).
  exists m'. split_and!; try done.
  destruct Hk as [Hp Hkc].
  assert (∃ x, last (entries m) = Some x) as [[kl vl] Hlast].
  { apply last_is_Some. intros Hnil. pose proof (length_entries m Hwf) as Hl.
    rewrite Hnil in Hl. simpl in Hl. lia. }
  pose proof Hlast as Hl. rewrite last_lookup, (length_entries m Hwf) in Hl.
  apply entries_lookup in Hl as (_ & Hkl & Hvl).
  replace (Z.of_nat (Init.Nat.pred (Z.to_nat (length (keys m)))))
    with (length (keys m) - 1) in Hkl, Hvl by lia.
  apply list_eq_Some. intros i [k x].
  rewrite (swap_remove_lookup _ _ _ (kl, vl)); [|rewrite (length_entries m Hwf); lia|done].
  rewrite (length_entries m Hwf), entries_lookup, Hlen.
  destruct (decide (Z.of_nat i < length (keys m) - 1)) as [Hi|Hi].
  2: { split; intros [? _]; lia. }
  destruct (Hcells (Z.of_nat i)) as [Hck Hcv]; [lia|]. rewrite Hck, Hcv.
  unfold moved_from. case_decide as Hip; case_decide as Hip'; try lia.
  - rewrite Hkl, Hvl. split.
    + intros (_ & [= <-] & [= <-]). split; [lia|done].
    + intros [_ [= -> ->]]. done.
  - rewrite entries_lookup. split.
    + intros (_ & ? & ?). split_and!; try done; lia.
    + intros (_ & _ & ? & ?). done.
Qed.

(** X3. [fm_put] is insert-or-update on the list of entries: when an entry
    has the [key_size] bytes of the key argument, its value becomes the
    [val_size] bytes of the value argument and it keeps its position;
    otherwise the pair is appended at the end.  Nothing else changes in the
    list, whether or not the call grows the table. *)
Theorem fm_put_refines_upsert m key value fuel :
  reachable m → bucket_count m ≤ 2 ^ 31 → 2 * bucket_count m ≤ Z.of_nat fuel →
  ∃ m', fm_put fuel m key value = Some m' ∧
    entries m' = upsert (read_bytes key (key_size m))
                        (read_bytes value (val_size m)) (entries m) ∧
    key_size m' = key_size m ∧ val_size m' = val_size m.
Proof.
  intros Hm Hbc Hfuel.
  destruct (fm_put_entries m key value fuel (reachable_wf m Hm) Hbc Hfuel)
    as (m' & Hput & _ & Hks & Hvs & He & _).
  by exists m'.
Qed.

Lemma fm_put_refines_upsert_witness :
  reachable scenario_a ∧ bucket_count scenario_a ≤ 2 ^ 31 ∧
  2 * bucket_count scenario_a ≤ Z.of_nat 64 ∧
  ∃ m', fm_put 64 scenario_a (int_bytes 20) (int_bytes 7) = Some m' ∧
    entries m' = upsert (read_bytes (int_bytes 20) (key_size scenario_a))
                        (read_bytes (int_bytes 7) (val_size scenario_a))
                        (entries scenario_a) ∧
    key_size m' = key_size scenario_a ∧ val_size m' = val_size scenario_a.
Proof.
  split; [exact scenario_a_reachable|].
  split; [vm_compute; discriminate|].
  split; [vm_compute; discriminate|].
  apply (fm_put_refines_upsert scenario_a (int_bytes 20) (int_bytes 7) 64).
  - exact scenario_a_reachable.
  - vm_compute; discriminate.
  - vm_compute; discriminate.
Defined.

(** X4. [fm_erase] of a key stored at dense position [p] is a swap-remove
    on the list of entries: the last entry moves to position [p], the list
    loses its last position and every other entry keeps its position.  The
    number of buckets is unchanged: the table never shrinks. *)
Theorem fm_erase_refines_swap_remove m key p v fuel :
  reachable m → bucket_count m ≤ Z.of_nat fuel →
  entries m !! p = Some (read_bytes key (key_size m), v) →
  ∃ m', fm_erase fuel m key = Some (true, m') ∧
    entries m' = swap_remove p (entries m) ∧
    bucket_count m' = bucket_count m ∧
    key_size m' = key_size m ∧ val_size m' = val_size m.
Proof.
  intros Hm Hfuel He. pose proof (reachable_wf m Hm) as Hwf.
  assert (key_at m (Z.of_nat p) key) as Hk.
  { apply entries_lookup in He as (Hp & Hk & _). split; [lia|done]. }
  destruct (fm_erase_entries m key (Z.of_nat p) fuel Hwf Hk Hfuel)
    as (m' & Her & _ & Hks & Hvs & Hbc & He').
  rewrite Nat2Z.id in He'. by exists m'.
Qed.

Lemma fm_erase_refines_swap_remove_witness :
  reachable scenario_a ∧ bucket_count scenario_a ≤ Z.of_nat 64 ∧
  entries scenario_a !! 0%nat =
    Some (read_bytes (int_bytes 10) (key_size scenario_a), int_bytes 100) ∧
  ∃ m', fm_erase 64 scenario_a (int_bytes 10) = Some (true, m') ∧
    entries m' = swap_remove 0 (entries scenario_a) ∧
    bucket_count m' = bucket_count scenario_a ∧
    key_size m' = key_size scenario_a ∧ val_size m' = val_size scenario_a.
Proof.
  split; [exact scenario_a_reachable|].
  split; [vm_compute; discriminate|].
  split; [vm_compute; reflexivity|].
  apply (fm_erase_refines_swap_remove scenario_a (int_bytes 10) 0 (int_bytes 100) 64).
  - exact scenario_a_reachable.
  - vm_compute; discriminate.
  - vm_compute; reflexivity.
Defined.

(** * How the operations compose *)

(** X5. A put leaves every other key as it was: for a key whose [key_size]
    bytes differ from those of the key put, a lookup after the put returns
    what it returned before (the same value cell, or NULL), and the bytes
    of that value cell are unchanged, also when the put grew the table. *)
Theorem fm_put_other_keys m key value key' fuel :
  reachable m → bucket_count m ≤ 2 ^ 31 → 2 * bucket_count m ≤ Z.of_nat fuel →
  read_bytes key' (key_size m) ≠ read_bytes key (key_size m) →
  ∃ m', fm_put fuel m key value = Some m' ∧
    fm_get fuel m' key' = fm_get fuel m key' ∧
    (∀ ptr, fm_get fuel m key' = Some (Some ptr) →
            deref_value m' ptr = deref_value m ptr).
Proof.
  intros Hm Hbc Hfuel Hne. pose proof (reachable_wf m Hm) as Hwf.
  pose proof (wf_bc_bounds m Hwf) as Hsz.
  assert (bucket_count m ≤ Z.of_nat fuel) as Hfuel0 by lia.
  destruct (key_at_dec m key) as [[p Hk]|Habs].
  - destruct (fm_put_existing m key value p fuel Hwf Hbc Hfuel Hk)
      as (m' & Hput & Hwf' & Hkeys & Hhash & Hks & Hvs & Hvlen & Hvp & Hvq & Hbc' & _).
    assert (bucket_count m' ≤ Z.of_nat fuel) as Hfuel' by (rewrite Hbc'; case_match; lia).
    exists m'. split; [done|].
    assert (∀ q, key_at m q key' → q ≠ p) as Hqp.
    { intros q [_ Hq] ->. destruct Hk as [_ Hk]. congruence. }
    split.
    + destruct (fm_get_cases m key' fuel Hwf Hfuel0) as [(q & Hq & ->)|[Hq ->]].
      * apply fm_get_found; try done. unfold key_at. by rewrite Hkeys, Hks.
      * apply fm_get_absent; try done. by apply (key_absent_ext m).
    + intros ptr Hget. apply (fm_get_sound m fuel key' ptr Hwf) in Hget.
      unfold deref_value. apply Hvq; [destruct Hget; lia|by apply Hqp].
  - destruct (fm_put_new m key value fuel Hwf Hbc Hfuel Habs)
      as (m' & Hput & Hwf' & Hks & Hvs & Hlen' & Hkl & Hvl & _ & Hq & Hbc').
    assert (bucket_count m' ≤ Z.of_nat fuel) as Hfuel' by (rewrite Hbc'; case_match; lia).
    exists m'. split; [done|]. split.
    + destruct (fm_get_cases m key' fuel Hwf Hfuel0) as [(q & [Hqr Hqk] & ->)|[Hq' ->]].
      * apply fm_get_found; try done. split; [lia|].
        destruct (Hq q Hqr) as (-> & _). by rewrite Hks.
      * apply fm_get_absent; try done. intros q [Hqr Hqk]. rewrite Hks in Hqk.
        destruct (decide (q = length (keys m))) as [->|Hql].
        -- rewrite Hkl in Hqk. congruence.
        -- apply (Hq' q). split; [lia|]. destruct (Hq q) as (<- & _); [lia|done].
    + intros ptr Hget. apply (fm_get_sound m fuel key' ptr Hwf) in Hget as [Hr _].
      unfold deref_value. by destruct (Hq ptr Hr) as (_ & -> & _).
Qed.

Lemma fm_put_other_keys_witness :
  reachable scenario_a ∧ bucket_count scenario_a ≤ 2 ^ 31 ∧
  2 * bucket_count scenario_a ≤ Z.of_nat 64 ∧
  read_bytes (int_bytes 10) (key_size scenario_a) ≠
    read_bytes (int_bytes 40) (key_size scenario_a) ∧
  ∃ m', fm_put 64 scenario_a (int_bytes 40) (int_bytes 400) = Some m' ∧
    fm_get 64 m' (int_bytes 10) = fm_get 64 scenario_a (int_bytes 10) ∧
    (∀ ptr, fm_get 64 scenario_a (int_bytes 10) = Some (Some ptr) →
            deref_value m' ptr = deref_value scenario_a ptr).
Proof.
  split; [exact scenario_a_reachable|].
  split; [vm_compute; discriminate|].
  split; [vm_compute; discriminate|].
  split; [vm_compute; discriminate|].
  apply (fm_put_other_keys scenario_a (int_bytes 40) (int_bytes 400) (int_bytes 10) 64).
  - exact scenario_a_reachable.
  - vm_compute; discriminate.
  - vm_compute; discriminate.
  - vm_compute; discriminate.
Defined.

Lemma fm_erase_entries_absent m key p fuel m' :
  map_wf m → key_at m p key → bucket_count m ≤ Z.of_nat fuel →
  fm_erase fuel m key = Some (true, m') → key_absent m' key.
Proof.
  intros Hwf Hk Hfuel Her.
  destruct (fm_erase_present m key p fuel Hwf Hk Hfuel)
    as (m1 & Her1 & Hwf' & Hks & Hvs & Hbc & Hlen & Hcells).
  assert (m1 = m') as -> by congruence.
  intros q [Hq Hqk]. rewrite Hlen in Hq. rewrite Hks in Hqk.
  destruct (Hcells q Hq) as [Hck _]. rewrite Hck in Hqk.
  pose proof Hk as [Hp _].
  assert (key_at m (moved_from (length (keys m)) p q) key) as Hk2.
  { split; [|done]. unfold moved_from. destruct Hk. case_decide; lia. }
  pose proof (key_at_inj m Hwf _ _ _ Hk Hk2) as Heq.
  unfold moved_from in Heq. case_decide; lia.
Qed.

(** X6. After [fm_erase], whatever it returned, the key is not in the map:
    a lookup of the key returns NULL and a second erase returns false and
    leaves the map as the first erase left it. *)
Theorem fm_erase_twice m key fuel :
  reachable m → bucket_count m ≤ Z.of_nat fuel →
  ∃ found m', fm_erase fuel m key = Some (found, m') ∧
    fm_get fuel m' key = Some None ∧
    fm_erase fuel m' key = Some (false, m').
Proof.
  intros Hm Hfuel. pose proof (reachable_wf m Hm) as Hwf.
  destruct (key_at_dec m key) as [[p Hk]|Habs].
  - destruct (fm_erase_present m key p fuel Hwf Hk Hfuel)
      as (m' & Her & Hwf' & Hks & Hvs & Hbc & Hlen & Hcells).
    pose proof (fm_erase_entries_absent m key p fuel m' Hwf Hk Hfuel Her) as Habs.
    exists true, m'. split; [done|]. rewrite <- Hbc in Hfuel. split.
    + by apply fm_get_absent.
    + by apply fm_erase_absent.
  - exists false, m. split_and!.
    + by apply fm_erase_absent.
    + by apply fm_get_absent.
    + by apply fm_erase_absent.
Qed.

Lemma fm_erase_twice_witness :
  reachable scenario_a ∧ bucket_count scenario_a ≤ Z.of_nat 64 ∧
  ∃ found m', fm_erase 64 scenario_a (int_bytes 20) = Some (found, m') ∧
    fm_get 64 m' (int_bytes 20) = Some None ∧
    fm_erase 64 m' (int_bytes 20) = Some (false, m').
Proof.
  split; [exact scenario_a_reachable|].
  split; [vm_compute; discriminate|].
  apply (fm_erase_twice scenario_a (int_bytes 20) 64).
  - exact scenario_a_reachable.
  - vm_compute; discriminate.
Defined.

Lemma swap_remove_snoc {A} (l : list A) x :
  swap_remove (List.length l) (l ++ [x]) = l.
Proof.
  unfold swap_remove. rewrite last_snoc, length_app. simpl.
  replace (List.length l + 1 - 1)%nat with (List.length l) by lia.
  rewrite take_insert_ge by lia. apply take_app_length.
Qed.

(** X7. Putting a key that is not in the map and erasing it again gives
    back the list of entries there was: the erase finds the key (it
    returns true) at the last position and no entry moves.  The table keeps
    the size the put gave it. *)
Theorem fm_put_erase_cancel m key value fuel :
  reachable m → bucket_count m ≤ 2 ^ 31 → 2 * bucket_count m ≤ Z.of_nat fuel →
  read_bytes key (key_size m) ∉ (entries m).*1 →
  ∃ m1 m2, fm_put fuel m key value = Some m1 ∧
    fm_erase fuel m1 key = Some (true, m2) ∧
    entries m2 = entries m ∧
    bucket_count m2 = bucket_count m1.
Proof.
  intros Hm Hbc Hfuel Hnin. pose proof (reachable_wf m Hm) as Hwf.
  pose proof (wf_bc_bounds m Hwf) as Hsz. pose proof (wf_len_bounds m Hwf) as Hlen.
  destruct (fm_put_entries m key value fuel Hwf Hbc Hfuel)
    as (m1 & Hput & Hwf1 & Hks & Hvs & He & Hbc1).
  rewrite upsert_absent in He by done.
  assert (bucket_count m1 ≤ Z.of_nat fuel) as Hfuel1 by (rewrite Hbc1; case_match; lia).
  assert (key_at m1 (length (keys m)) key) as Hk.
  { apply (entries_key_at m1 _ key Hwf1). split; [lia|].
    assert (entries m1 !! Z.to_nat (length (keys m)) =
            Some (read_bytes key (key_size m), read_bytes value (val_size m))) as Hl.
    { rewrite He, <- (length_entries m Hwf). apply lookup_snoc_Some. by right. }
    pose proof Hl as Hl'. apply entries_lookup in Hl' as (_ & _ & Hv).
    rewrite Z2Nat.id in Hv by lia.
    eexists. rewrite Hks. split; [exact Hl|exact Hv]. }
  destruct (fm_erase_entries m1 key _ fuel Hwf1 Hk Hfuel1)
    as (m2 & Her & _ & _ & _ & Hbc2 & He2).
  exists m1, m2. split_and!; try done.
  rewrite He2, He, <- (length_entries m Hwf). apply swap_remove_snoc.
Qed.

Lemma scenario_a_no_key_99 :
  read_bytes (int_bytes 99) (key_size scenario_a) ∉ (entries scenario_a).*1.
Proof.
  apply entries_key_absent; [apply reachable_wf, scenario_a_reachable|].
  exact scenario_a_key_99.
Qed.

Lemma fm_put_erase_cancel_witness :
  reachable scenario_a ∧ bucket_count scenario_a ≤ 2 ^ 31 ∧
  2 * bucket_count scenario_a ≤ Z.of_nat 64 ∧
  (read_bytes (int_bytes 99) (key_size scenario_a) ∉ (entries scenario_a).*1) ∧
  ∃ m1 m2, fm_put 64 scenario_a (int_bytes 99) (int_bytes 400) = Some m1 ∧
    fm_erase 64 m1 (int_bytes 99) = Some (true, m2) ∧
    entries m2 = entries scenario_a ∧
    bucket_count m2 = bucket_count m1.
Proof.
  split; [exact scenario_a_reachable|].
  split; [vm_compute; discriminate|].
  split; [vm_compute; discriminate|].
  split; [exact scenario_a_no_key_99|].
  apply (fm_put_erase_cancel scenario_a (int_bytes 99) (int_bytes 400) 64).
  - exact scenario_a_reachable.
  - vm_compute; discriminate.
  - vm_compute; discriminate.
  - exact scenario_a_no_key_99.
Defined.

Lemma upsert_upsert k v1 v2 l : upsert k v2 (upsert k v1 l) = upsert k v2 l.
Proof.
  induction l as [|[k' v'] l IH]; simpl.
  - by rewrite decide_True.
  - case_decide as Hk; simpl.
    + by rewrite decide_True.
    + rewrite decide_False by done. by rewrite IH.
Qed.

(** X8. The last write wins: two puts of the same key leave the list of
    entries that the second put alone would have left. *)
Theorem fm_put_last_write_wins m key value1 value2 fuel :
  reachable m → bucket_count m ≤ 2 ^ 30 → 4 * bucket_count m ≤ Z.of_nat fuel →
  ∃ m1 m2 m2', fm_put fuel m key value1 = Some m1 ∧
    fm_put fuel m1 key value2 = Some m2 ∧
    fm_put fuel m key value2 = Some m2' ∧
    entries m2 = entries m2'.
Proof.
  intros Hm Hbc Hfuel. pose proof (reachable_wf m Hm) as Hwf.
  pose proof (wf_bc_bounds m Hwf) as Hsz.
  destruct (fm_put_entries m key value1 fuel Hwf) as (m1 & Hput1 & Hwf1 & Hks & Hvs & He1 & Hbc1);
    [lia|lia|].
  assert (bucket_count m1 ≤ 2 * bucket_count m) as Hle by (rewrite Hbc1; case_match; lia).
  destruct (fm_put_entries m1 key value2 fuel Hwf1) as (m2 & Hput2 & _ & _ & _ & He2 & _);
    [lia|lia|].
  destruct (fm_put_entries m key value2 fuel Hwf) as (m2' & Hput2' & _ & _ & _ & He2' & _);
    [lia|lia|].
  exists m1, m2, m2'. split_and!; try done.
  by rewrite He2, He1, Hks, Hvs, upsert_upsert, He2'.
Qed.

Lemma fm_put_last_write_wins_witness :
  reachable scenario_a ∧ bucket_count scenario_a ≤ 2 ^ 30 ∧
  4 * bucket_count scenario_a ≤ Z.of_nat 64 ∧
  ∃ m1 m2 m2', fm_put 64 scenario_a (int_bytes 20) (int_bytes 1) = Some m1 ∧
    fm_put 64 m1 (int_bytes 20) (int_bytes 2) = Some m2 ∧
    fm_put 64 scenario_a (int_bytes 20) (int_bytes 2) = Some m2' ∧
    entries m2 = entries m2'.
Proof.
  split; [exact scenario_a_reachable|].
  split; [vm_compute; discriminate|].
  split; [vm_compute; discriminate|].
  apply (fm_put_last_write_wins scenario_a (int_bytes 20) (int_bytes 1) (int_bytes 2) 64).
  - exact scenario_a_reachable.
  - vm_compute; discriminate.
  - vm_compute; discriminate.
Defined.

(** X9. Growing the table is invisible to lookups: [fm_resize] to twice the
    number of buckets, as [fm_put] calls it, returns a map with the same
    dense vectors in which every key is looked up with the same result,
    the same value cell or NULL. *)
Theorem fm_resize_preserves_lookups m fuel :
  reachable m → bucket_count m ≤ 2 ^ 31 → 2 * bucket_count m ≤ Z.of_nat fuel →
  ∃ m', fm_resize fuel m (wrap64 (bucket_count m * 2)) = Some m' ∧
    bucket_count m' = 2 * bucket_count m ∧
    keys m' = keys m ∧ values m' = values m ∧ hashes m' = hashes m ∧
    ∀ key, fm_get fuel m' key = fm_get fuel m key.
Proof.
  intros Hm Hbc Hfuel. pose proof (reachable_wf m Hm) as Hwf.
  pose proof (wf_bc_bounds m Hwf) as Hsz.
  unfold wrap64. rewrite Z.mod_small by lia.
  destruct (fm_resize_spec m (bucket_count m * 2) fuel Hwf) as (B' & HB' & Hwf'); try lia.
  - destruct (wf_size _ Hwf) as (k & Hk & Hk2). exists (k + 1).
    rewrite Hk2 in Hbc.
    assert (k < 32).
    { destruct (Z.lt_ge_cases k 32); [done|].
      assert (2 ^ 32 ≤ 2 ^ k) by (apply Z.pow_le_mono_r; lia). lia. }
    split; [lia|]. rewrite Z.pow_add_r, Hk2 by lia. lia.
  - pose proof (wf_room _ Hwf). lia.
  - eexists. split; [exact HB'|]. split_and!; try done.
    + simpl. lia.
    + intros key.
      destruct (fm_get_cases m key fuel Hwf ltac:(lia)) as [(q & Hq & ->)|[Hq ->]].
      * apply fm_get_found; [done|done|simpl; lia].
      * apply fm_get_absent; [done|done|simpl; lia].
Qed.

Lemma fm_resize_preserves_lookups_witness :
  reachable scenario_a ∧ bucket_count scenario_a ≤ 2 ^ 31 ∧
  2 * bucket_count scenario_a ≤ Z.of_nat 64 ∧
  ∃ m', fm_resize 64 scenario_a (wrap64 (bucket_count scenario_a * 2)) = Some m' ∧
    bucket_count m' = 2 * bucket_count scenario_a ∧
    keys m' = keys scenario_a ∧ values m' = values scenario_a ∧
    hashes m' = hashes scenario_a ∧
    ∀ key, fm_get 64 m' key = fm_get 64 scenario_a key.
Proof.
  split; [exact scenario_a_reachable|].
  split; [vm_compute; discriminate|].
  split; [vm_compute; discriminate|].
  apply (fm_resize_preserves_lookups scenario_a 64).
  - exact scenario_a_reachable.
  - vm_compute; discriminate.
  - vm_compute; discriminate.
Defined.

(** * Sequences of operations

    A client's calls, run one after the other from [fm_init].  Every loop
    of a call on [m] is given [2 * bucket_count m] iterations. *)

Inductive operation :=
| Put (key value : list byte)
| Erase (key : list byte).

Definition iterations (m : _FastMap) : nat := Z.to_nat (2 * bucket_count m).

Definition run_operation (m : _FastMap) (o : operation) : option _FastMap :=
  match o with
  | Put key value => fm_put (iterations m) m key value
  | Erase key => snd <$> fm_erase (iterations m) m key
  end.

Fixpoint run (m : _FastMap) (ops : list operation) : option _FastMap :=
  match ops with
  | [] => Some m
  | o :: ops => m' ← run_operation m o; run m' ops
  end.

(** The same calls on a list of entries, for keys of [ks] and values of
    [vs] bytes. *)
Definition find_key (k : list byte) (l : list (list byte * list byte)) : option nat :=
  fst <$> list_find (λ e, e.1 = k) l.

Definition apply_operation (ks vs : Z) (l : list (list byte * list byte))
    (o : operation) : list (list byte * list byte) :=
  match o with
  | Put key value => upsert (read_bytes key ks) (read_bytes value vs) l
  | Erase key =>
      match find_key (read_bytes key ks) l with
      | Some p => swap_remove p l
      | None => l
      end
  end.

Lemma length_upsert k v l :
  (List.length (upsert k v l) ≤ S (List.length l))%nat.
Proof.
  induction l as [|[k' v'] l IH]; simpl; [lia|]. case_decide; simpl; lia.
Qed.

(** The state after [n] calls: the table has 16 buckets, or it has grown
    at a length of at most [n]. *)
Record run_inv (ks vs : Z) (m : _FastMap) (n : Z) : Prop := {
  inv_reachable : reachable m;
  inv_key_size : key_size m = ks;
  inv_val_size : val_size m = vs;
  inv_length : length (keys m) ≤ n;
  inv_buckets : bucket_count m = 16 ∨ 13421773 * bucket_count m ≤ 2 * n * 2 ^ 24
}.

Lemma run_operation_spec ks vs m n o :
  run_inv ks vs m n → n < 2 ^ 24 →
  ∃ m', run_operation m o = Some m' ∧ run_inv ks vs m' (n + 1) ∧
        entries m' = apply_operation ks vs (entries m) o.
Proof.
  intros [Hm Hks Hvs Hlen Hb] Hn. pose proof (reachable_wf m Hm) as Hwf.
  pose proof (wf_bc_bounds m Hwf) as Hsz. pose proof (wf_len_bounds m Hwf) as Hl.
  change (2 ^ 24) with 16777216 in *.
  assert (bucket_count m ≤ 2 ^ 31) as Hbc.
  { change (2 ^ 31) with 2147483648. lia. }
  assert (2 * bucket_count m ≤ Z.of_nat (iterations m)) as Hfuel.
  { unfold iterations. lia. }
  destruct o as [key value|key]; simpl.
  - destruct (fm_put_entries m key value (iterations m) Hwf Hbc Hfuel)
      as (m' & Hput & Hwf' & Hks' & Hvs' & He & Hbc').
    exists m'. split; [done|]. split; [|by rewrite He, Hks, Hvs].
    split.
    + by eapply reach_put.
    + congruence.
    + congruence.
    + pose proof (length_entries m' Hwf') as Hl'. rewrite He in Hl'.
      pose proof (length_upsert (read_bytes key (key_size m))
                    (read_bytes value (val_size m)) (entries m)) as Hu.
      rewrite (length_entries m Hwf) in Hu.
      pose proof (wf_len_bounds m' Hwf'). lia.
    + rewrite Hbc'. destruct (load_exceeded m) eqn:Hload; [|lia].
      apply (load_exceeded_exact m Hwf) in Hload; [|change (2 ^ 24) with 16777216; lia].
      change (2 ^ 24) with 16777216 in Hload. lia.
  - unfold find_key.
    destruct (list_find (λ e, e.1 = read_bytes key ks) (entries m)) as [[p [k x]]|] eqn:Hfind;
      simpl.
    + apply list_find_Some in Hfind as (He & Hk & _). simpl in Hk. subst k.
      assert (key_at m (Z.of_nat p) key) as Hkat.
      { apply entries_lookup in He as (Hp & Hk & _). split; [lia|by rewrite Hks]. }
      destruct (fm_erase_entries m key (Z.of_nat p) (iterations m) Hwf Hkat)
        as (m' & Her & Hwf' & Hks' & Hvs' & Hbc' & He'); [lia|].
      rewrite Nat2Z.id in He'. rewrite Her. simpl.
      exists m'. split; [done|]. split; [|done]. split.
      * by eapply reach_erase.
      * congruence.
      * congruence.
      * pose proof (length_entries m' Hwf') as Hl'. rewrite He' in Hl'.
        pose proof (wf_len_bounds m' Hwf').
        assert (List.length (swap_remove p (entries m)) ≤ List.length (entries m))%nat as Hs.
        { unfold swap_remove. destruct (last (entries m)); [|done].
          rewrite length_take, length_insert. lia. }
        rewrite (length_entries m Hwf) in Hs. lia.
      * rewrite Hbc'. lia.
    + apply list_find_None in Hfind.
      assert (key_absent m key) as Habs.
      { intros q Hq. apply (entries_key_at m q key Hwf) in Hq as (Hq & v & He & _).
        rewrite Forall_forall in Hfind. apply (Hfind _ (list_elem_of_lookup_2 _ _ _ He)).
        simpl. by rewrite Hks. }
      rewrite (fm_erase_absent m key (iterations m) Hwf Habs) by lia. simpl.
      exists m. split; [done|]. split; [|done]. split; try done; lia.
Qed.

Lemma run_spec ks vs ops m n :
  run_inv ks vs m n → n + Z.of_nat (List.length ops) ≤ 2 ^ 24 →
  ∃ m', run m ops = Some m' ∧ reachable m' ∧ map_wf m' ∧
        key_size m' = ks ∧ val_size m' = vs ∧
        entries m' = foldl (apply_operation ks vs) (entries m) ops.
Proof.
  revert m n. induction ops as [|o ops IH]; intros m n Hinv Hn.
  - exists m. destruct Hinv. split_and!; try done. by apply reachable_wf.
  - simpl in Hn. destruct (run_operation_spec ks vs m n o Hinv) as (m1 & Hm1 & Hinv1 & He1);
      [lia|].
    destruct (IH m1 (n + 1) Hinv1) as (m' & Hrun & Hrest); [lia|].
    exists m'. cbn [run foldl]. rewrite Hm1. simpl. by rewrite <- He1.
Qed.

Lemma run_inv_init ks vs : run_inv ks vs (fm_init ks vs) 0.
Proof. split; try done. - apply reach_init. - by left. Qed.

(** X10. Any sequence of fewer than [2 ^ 24] puts and erases on a fresh
    map runs to the end, each call within [2 * bucket_count] iterations of
    its loops, and leaves the list of entries that the same sequence of
    insert-or-update and swap-remove operations builds from the empty
    list. *)
Theorem run_refines_entries ks vs ops :
  Z.of_nat (List.length ops) < 2 ^ 24 →
  ∃ m, run (fm_init ks vs) ops = Some m ∧
       reachable m ∧ key_size m = ks ∧ val_size m = vs ∧
       entries m = foldl (apply_operation ks vs) [] ops.
Proof.
  intros Hn.
  destruct (run_spec ks vs ops (fm_init ks vs) 0 (run_inv_init ks vs))
    as (m & Hrun & Hm & _ & Hks & Hvs & He); [lia|].
  by exists m.
Qed.

Lemma run_refines_entries_witness :
  Z.of_nat (List.length [Put (int_bytes 10) (int_bytes 100);
                         Put (int_bytes 20) (int_bytes 200);
                         Erase (int_bytes 10)]) < 2 ^ 24 ∧
  ∃ m, run (fm_init 4 4) [Put (int_bytes 10) (int_bytes 100);
                          Put (int_bytes 20) (int_bytes 200);
                          Erase (int_bytes 10)] = Some m ∧
       reachable m ∧ key_size m = 4 ∧ val_size m = 4 ∧
       entries m = foldl (apply_operation 4 4) []
                     [Put (int_bytes 10) (int_bytes 100);
                      Put (int_bytes 20) (int_bytes 200);
                      Erase (int_bytes 10)].
Proof.
  split; [simpl; lia|].
  apply (run_refines_entries 4 4). simpl; lia.
Defined.

Lemma foldl_put_distinct ks vs (kvs : list (list byte * list byte)) l :
  NoDup (l.*1 ++ ((λ kv, read_bytes kv.1 ks) <$> kvs)) →
  foldl (apply_operation ks vs) l ((λ kv, Put kv.1 kv.2) <$> kvs) =
  l ++ ((λ kv, (read_bytes kv.1 ks, read_bytes kv.2 vs)) <$> kvs).
Proof.
  revert l. induction kvs as [|[k v] kvs IH]; intros l Hnd; simpl.
  - by rewrite app_nil_r.
  - simpl in Hnd. rewrite upsert_absent.
    + rewrite IH.
      * by rewrite <- app_assoc.
      * rewrite fmap_app. simpl. rewrite <- app_assoc. done.
    + apply NoDup_app in Hnd as (_ & Hnd & _). intros Hin.
      apply (Hnd _ Hin). by left.
Qed.

(** X11. Puts of pairwise distinct keys, fewer than [2 ^ 24] of them, on a
    fresh map: the length is the number of puts, the entries are the pairs
    in the order of the calls, and a lookup of the key of the [i]-th put
    returns the value cell of position [i], which holds the value of that
    put, whatever number of times the table has grown in between. *)
Theorem run_puts_distinct ks vs (kvs : list (list byte * list byte)) :
  Z.of_nat (List.length kvs) < 2 ^ 24 →
  NoDup ((λ kv, read_bytes kv.1 ks) <$> kvs) →
  ∃ m, run (fm_init ks vs) ((λ kv, Put kv.1 kv.2) <$> kvs) = Some m ∧
       length (keys m) = Z.of_nat (List.length kvs) ∧
       entries m = (λ kv, (read_bytes kv.1 ks, read_bytes kv.2 vs)) <$> kvs ∧
       ∀ (i : nat) k v, kvs !! i = Some (k, v) →
         fm_get (iterations m) m k = Some (Some (Z.of_nat i)) ∧
         deref_value m (Z.of_nat i) = Some (read_bytes v vs).
Proof.
  intros Hn Hnd.
  destruct (run_spec ks vs ((λ kv, Put kv.1 kv.2) <$> kvs) (fm_init ks vs) 0
              (run_inv_init ks vs)) as (m & Hrun & Hm & Hwf & Hks & Hvs & He).
  { rewrite length_fmap. lia. }
  change (entries (fm_init ks vs)) with (@nil (list byte * list byte)) in He.
  rewrite foldl_put_distinct in He by done. simpl in He.
  pose proof (wf_len_bounds m Hwf) as Hl. pose proof (wf_bc_bounds m Hwf) as Hsz.
  exists m. split; [done|]. split; [|split; [done|]].
  - pose proof (length_entries m Hwf) as Hle. rewrite He, length_fmap in Hle. lia.
  - intros i k v Hi.
    assert (entries m !! i = Some (read_bytes k ks, read_bytes v vs)) as Hei.
    { by rewrite He, list_lookup_fmap, Hi. }
    apply entries_lookup in Hei as (Hlt & Hk & Hv). split; [|done].
    apply fm_get_found; [done| |unfold iterations; lia].
    split; [lia|by rewrite Hks].
Qed.

Lemma run_puts_distinct_witness :
  Z.of_nat (List.length [(int_bytes 1, int_bytes 10); (int_bytes 2, int_bytes 20)])
    < 2 ^ 24 ∧
  NoDup ((λ kv, read_bytes kv.1 4) <$>
         [(int_bytes 1, int_bytes 10); (int_bytes 2, int_bytes 20)]) ∧
  ∃ m, run (fm_init 4 4) ((λ kv, Put kv.1 kv.2) <$>
         [(int_bytes 1, int_bytes 10); (int_bytes 2, int_bytes 20)]) = Some m ∧
       length (keys m) =
         Z.of_nat (List.length [(int_bytes 1, int_bytes 10); (int_bytes 2, int_bytes 20)]) ∧
       entries m = (λ kv, (read_bytes kv.1 4, read_bytes kv.2 4)) <$>
                     [(int_bytes 1, int_bytes 10); (int_bytes 2, int_bytes 20)] ∧
       ∀ (i : nat) k v,
         [(int_bytes 1, int_bytes 10); (int_bytes 2, int_bytes 20)] !! i = Some (k, v) →
         fm_get (iterations m) m k = Some (Some (Z.of_nat i)) ∧
         deref_value m (Z.of_nat i) = Some (read_bytes v 4).
Proof.
  assert (NoDup ((λ kv, read_bytes kv.1 4) <$>
                 [(int_bytes 1, int_bytes 10); (int_bytes 2, int_bytes 20)])) as Hnd.
  { vm_compute. apply NoDup_cons. split.
    - intros [Heq|Hin]%elem_of_cons; [discriminate Heq|]. by apply elem_of_nil in Hin.
    - apply NoDup_singleton. }
  split; [simpl; lia|]. split; [exact Hnd|].
  apply (run_puts_distinct 4 4). - simpl; lia. - exact Hnd.
Defined.

(** * The hash *)

Lemma lor_disjoint_add t b k :
  0 ≤ k → 0 ≤ b < 256 → t mod 2 ^ (k + 8) = 0 →
  Z.lor t (Z.shiftl b k) = t + 2 ^ k * b.
Proof.
  intros Hk Hb Hmod.
  assert (Z.land t (Z.shiftl b k) = 0) as Hland.
  { apply Z.bits_inj'. intros n Hn.
    rewrite Z.land_spec, Z.bits_0, Z.shiftl_spec by lia.
    destruct (Z.lt_ge_cases n (k + 8)) as [Hlt|Hge].
    - rewrite (Z.div_mod t (2 ^ (k + 8))), Hmod, Z.add_0_r by lia.
      rewrite Z.mul_comm, Z.mul_pow2_bits_low by lia. done.
    - destruct (decide (b = 0)) as [->|Hb0].
      + rewrite Z.bits_0. apply andb_false_r.
      + rewrite (Z.bits_above_log2 b); [apply andb_false_r|lia|].
        assert (Z.log2 b < 8); [|lia].
        apply Z.log2_lt_pow2; lia. }
  rewrite <- Z.lxor_lor by done. rewrite <- Z.add_nocarry_lxor by done.
  rewrite Z.shiftl_mul_pow2 by lia. lia.
Qed.

Lemma lor_bytes c0 c1 c2 c3 c4 c5 c6 :
  0 ≤ c0 < 256 → 0 ≤ c1 < 256 → 0 ≤ c2 < 256 → 0 ≤ c3 < 256 →
  0 ≤ c4 < 256 → 0 ≤ c5 < 256 → 0 ≤ c6 < 256 →
  Z.lor (Z.lor (Z.lor (Z.lor (Z.lor (Z.lor (Z.lor 0 (Z.shiftl c6 48)) (Z.shiftl c5 40))
    (Z.shiftl c4 32)) (Z.shiftl c3 24)) (Z.shiftl c2 16)) (Z.shiftl c1 8)) c0 =
  c0 + 2 ^ 8 * c1 + 2 ^ 16 * c2 + 2 ^ 24 * c3 + 2 ^ 32 * c4 + 2 ^ 40 * c5 + 2 ^ 48 * c6.
Proof.
  intros H0 H1 H2 H3 H4 H5 H6.
  assert (∀ q k, 0 ≤ k → (q * 2 ^ k) mod 2 ^ k = 0) as Hm.
  { intros q k Hk. apply Z.mod_mul. apply Z.pow_nonzero; lia. }
  rewrite <- (Z.shiftl_0_r c0).
  rewrite (lor_disjoint_add 0 c6 48); [|lia|lia|reflexivity].
  rewrite (lor_disjoint_add _ c5 40); [|lia|lia|].
  2: { match goal with |- ?t mod _ = 0 => replace t with ((c6) * 2 ^ (40 + 8)) by lia end.
       apply Hm. lia. }
  rewrite (lor_disjoint_add _ c4 32); [|lia|lia|].
  2: { match goal with |- ?t mod _ = 0 => replace t with (((2 ^ 8 * c6 + c5)) * 2 ^ (32 + 8)) by lia end.
       apply Hm. lia. }
  rewrite (lor_disjoint_add _ c3 24); [|lia|lia|].
  2: { match goal with |- ?t mod _ = 0 => replace t with (((2 ^ 16 * c6 + 2 ^ 8 * c5 + c4)) * 2 ^ (24 + 8)) by lia end.
       apply Hm. lia. }
  rewrite (lor_disjoint_add _ c2 16); [|lia|lia|].
  2: { match goal with |- ?t mod _ = 0 => replace t with (((2 ^ 24 * c6 + 2 ^ 16 * c5 + 2 ^ 8 * c4 + c3)) * 2 ^ (16 + 8)) by lia end.
       apply Hm. lia. }
  rewrite (lor_disjoint_add _ c1 8); [|lia|lia|].
  2: { match goal with |- ?t mod _ = 0 => replace t with (((2 ^ 32 * c6 + 2 ^ 24 * c5 + 2 ^ 16 * c4 + 2 ^ 8 * c3 + c2)) * 2 ^ (8 + 8)) by lia end.
       apply Hm. lia. }
  rewrite (lor_disjoint_add _ c0 0); [|lia|lia|].
  2: { match goal with |- ?t mod _ = 0 => replace t with (((2 ^ 40 * c6 + 2 ^ 32 * c5 + 2 ^ 24 * c4 + 2 ^ 16 * c3 + 2 ^ 8 * c2 + c1)
                     ) * 2 ^ (0 + 8)) by lia end.
       apply Hm. lia. }
  rewrite Z.shiftl_0_r. lia.
Qed.

(** The [switch] on the remaining length assembles the remaining bytes, the
    first one lowest: the value a [memcpy] of them into a zeroed
    [uint64_t] gives. *)
Lemma fm_hash_tail_little_endian p len :
  0 ≤ len < 8 → fm_hash_tail p len = load64 (read_bytes p len).
Proof.
  intros Hlen.
  assert (∀ i : nat, byte_at (read_bytes p len) i =
                     if Z.of_nat i <? len then byte_at p i else 0) as Hb.
  { intros i. destruct (Z.ltb_spec (Z.of_nat i) len).
    - apply byte_at_read_bytes. lia.
    - unfold byte_at. rewrite lookup_read_bytes, decide_False by lia. done. }
  assert (∀ t (i : nat) c k, c = Z.of_nat i + 1 →
            (if c <=? len then Z.lor t (Z.shiftl (byte_at p i) k) else t) =
            Z.lor t (Z.shiftl (byte_at (read_bytes p len) i) k)) as Hstep.
  { intros t i c k ->. rewrite Hb.
    destruct (Z.leb_spec (Z.of_nat i + 1) len); destruct (Z.ltb_spec (Z.of_nat i) len);
      first [lia|done|by rewrite Z.shiftl_0_l, Z.lor_0_r]. }
  unfold fm_hash_tail.
  rewrite <- (Z.shiftl_0_r (byte_at p 0)).
  rewrite (Hstep _ 6%nat 7 48), (Hstep _ 5%nat 6 40), (Hstep _ 4%nat 5 32),
    (Hstep _ 3%nat 4 24), (Hstep _ 2%nat 3 16), (Hstep _ 1%nat 2 8),
    (Hstep _ 0%nat 1 0) by done.
  rewrite Z.shiftl_0_r.
  rewrite lor_bytes by apply byte_at_range.
  unfold load64. rewrite (Hb 7%nat).
  destruct (Z.ltb_spec (Z.of_nat 7) len); lia.
Qed.

(** X12. The digest of a key of fewer than eight bytes: one mixing round
    over the little-endian value of the key bytes, and the final round with
    the length.  Bytes after the first [len] are not read. *)
Theorem fm_hash_short_key key len :
  0 < len < 8 →
  fm_hash key len =
    fm_wymix (fm_wymix (Z.lxor 0x9E3779B97F4A7C15 (load64 (read_bytes key len)))
                       0x94d049bb133111eb) len.
Proof.
  intros Hlen. unfold fm_hash.
  assert (fm_hash_chunks (Z.to_nat len) key len 0x9E3779B97F4A7C15 =
          (key, len, 0x9E3779B97F4A7C15)) as ->.
  { destruct (Z.to_nat len); simpl; [done|].
    destruct (Z.leb_spec 8 len); [lia|done]. }
  destruct (Z.ltb_spec 0 len); [|lia].
  by rewrite fm_hash_tail_little_endian by lia.
Qed.

Lemma fm_hash_short_key_witness :
  0 < 4 < 8 ∧
  fm_hash (int_bytes 10) 4 =
    fm_wymix (fm_wymix (Z.lxor 0x9E3779B97F4A7C15 (load64 (read_bytes (int_bytes 10) 4)))
                       0x94d049bb133111eb) 4.
Proof.
  split; [lia|]. apply (fm_hash_short_key (int_bytes 10) 4). lia.
Defined.

(** X13. Every digest is a 64-bit value; the digest of the empty key is 0
    whatever the pointer; the digest of an eight-byte key is one mixing
    round over its little-endian value and the final round with the
    length. *)
Theorem fm_hash_edge_cases key :
  (∀ len, 0 ≤ fm_hash key len < 2 ^ 64) ∧
  fm_hash key 0 = 0 ∧
  fm_hash key 8 =
    fm_wymix (fm_wymix (Z.lxor 0x9E3779B97F4A7C15 (load64 key)) 0xbf58476d1ce4e5b9) 8.
Proof.
  split_and!.
  - intros len. apply fm_hash_range.
  - unfold fm_hash. simpl. unfold fm_wymix. by rewrite Z.mul_0_r.
  - unfold fm_hash. simpl. done.
Qed.

(** X14. [fm_hash_str] hashes the text of a string, the bytes before its
    first NUL: strings with the same text have the same digest whatever
    follows the NUL and wherever they are stored, and the digest is that
    of [fm_hash] over the text.  (The map itself hashes the bytes of the
    pointer, not the text.) *)
Theorem fm_hash_str_text text rest :
  x00 ∉ text →
  fm_hash_str (text ++ x00 :: rest) =
    Some (fm_hash text (Z.of_nat (List.length text))).
Proof.
  intros Hnul. unfold fm_hash_str.
  assert (strlen (text ++ x00 :: rest) = Some (Z.of_nat (List.length text))) as ->.
  { induction text as [|c text IH]; simpl.
    - done.
    - apply not_elem_of_cons in Hnul as [Hc Hnul].
      rewrite decide_False by done. rewrite IH by done. simpl. f_equal. lia. }
  simpl. f_equal.
  rewrite <- (fm_hash_read_bytes (text ++ x00 :: rest)),
          <- (fm_hash_read_bytes text).
  f_equal. unfold read_bytes. rewrite Nat2Z.id.
  rewrite <- app_assoc, !take_app_length. done.
Qed.

Lemma fm_hash_str_text_witness :
  (x00 ∉ [x61; x70; x70; x6c; x65]) ∧
  fm_hash_str ([x61; x70; x70; x6c; x65] ++ x00 :: [x7a]) =
    Some (fm_hash [x61; x70; x70; x6c; x65]
                  (Z.of_nat (List.length [x61; x70; x70; x6c; x65]))).
Proof.
  assert (x00 ∉ [x61; x70; x70; x6c; x65]) as Hn.
  { intros Hin. repeat (apply elem_of_cons in Hin as [Heq|Hin]; [discriminate Heq|]).
    by apply elem_of_nil in Hin. }
  split; [exact Hn|]. apply (fm_hash_str_text _ [x7a]). exact Hn.
Defined.

(** * Invariants of the reachable states *)

(** X15. In every reachable state no two entries have the same key bytes,
    there are [length] entries, and every key cell has [key_size] bytes and
    every value cell [val_size] bytes. *)
Theorem reachable_entries_distinct m :
  reachable m →
  NoDup (entries m).*1 ∧
  List.length (entries m) = Z.to_nat (length (keys m)) ∧
  ∀ i k v, entries m !! i = Some (k, v) →
    List.length k = Z.to_nat (key_size m) ∧ List.length v = Z.to_nat (val_size m).
Proof.
  intros Hm. pose proof (reachable_wf m Hm) as Hwf. split_and!.
  - by apply entries_NoDup.
  - by apply length_entries.
  - intros i k v (_ & Hk & Hv)%entries_lookup. split.
    + eapply (vec_cells _ _ (wf_keys _ Hwf)), Hk.
    + eapply (vec_cells _ _ (wf_values _ Hwf)), Hv.
Qed.

Lemma reachable_entries_distinct_witness :
  reachable full_16 ∧
  NoDup (entries full_16).*1 ∧
  List.length (entries full_16) = Z.to_nat (length (keys full_16)) ∧
  ∀ i k v, entries full_16 !! i = Some (k, v) →
    List.length k = Z.to_nat (key_size full_16) ∧
    List.length v = Z.to_nat (val_size full_16).
Proof.
  split; [exact full_16_reachable|].
  apply (reachable_entries_distinct full_16). exact full_16_reachable.
Defined.

(** X16. The shape of the table in every reachable state: the number of
    buckets is a power of two and at least 16, the mask is that number
    minus one, the bucket array has that many slots and at least one of
    them is empty (the length is below the number of buckets), the load
    factor is the one [fm_init] set, and each dense vector has the stride
    of its element and a capacity that covers the length. *)
Theorem reachable_table_shape m :
  reachable m →
  (∃ k, 4 ≤ k ∧ bucket_count m = 2 ^ k) ∧
  bucket_mask m = bucket_count m - 1 ∧
  List.length (buckets m) = Z.to_nat (bucket_count m) ∧
  0 ≤ length (keys m) < bucket_count m ∧
  (∃ e, 0 ≤ e < bucket_count m ∧ buckets m !! Z.to_nat e = Some FM_EMPTY_IDX) ∧
  max_load_factor m = f32_0_80 ∧
  (stride (keys m) = key_size m ∧ length (keys m) ≤ capacity (keys m)) ∧
  (stride (values m) = val_size m ∧ length (values m) ≤ capacity (values m)) ∧
  (stride (hashes m) = 8 ∧ length (hashes m) ≤ capacity (hashes m)).
Proof.
  intros Hm. pose proof (reachable_wf m Hm) as Hwf.
  pose proof (wf_len_bounds m Hwf).
  pose proof (vec_len _ _ (wf_keys _ Hwf)).
  pose proof (vec_len _ _ (wf_values _ Hwf)).
  pose proof (vec_len _ _ (wf_hashes _ Hwf)).
  pose proof (wf_room _ Hwf).
  split.
  { destruct (wf_size _ Hwf) as (k & Hk & Hbc). exists k. split; [lia|done]. }
  split_and!; first [apply Hwf|by apply wf_empty_slot|lia].
Qed.

Lemma reachable_table_shape_witness :
  reachable full_16 ∧
  (∃ k, 4 ≤ k ∧ bucket_count full_16 = 2 ^ k) ∧
  bucket_mask full_16 = bucket_count full_16 - 1 ∧
  List.length (buckets full_16) = Z.to_nat (bucket_count full_16) ∧
  0 ≤ length (keys full_16) < bucket_count full_16 ∧
  (∃ e, 0 ≤ e < bucket_count full_16 ∧
        buckets full_16 !! Z.to_nat e = Some FM_EMPTY_IDX) ∧
  max_load_factor full_16 = f32_0_80 ∧
  (stride (keys full_16) = key_size full_16 ∧
   length (keys full_16) ≤ capacity (keys full_16)) ∧
  (stride (values full_16) = val_size full_16 ∧
   length (values full_16) ≤ capacity (values full_16)) ∧
  (stride (hashes full_16) = 8 ∧ length (hashes full_16) ≤ capacity (hashes full_16)).
Proof.
  split; [exact full_16_reachable|].
  apply (reachable_table_shape full_16). exact full_16_reachable.
Defined.

(** X17. Robin Hood order, as a lookup relies on it: in a reachable state
    a stored key sits in a slot [t] such that every slot on the way from
    the home slot of its digest to [t] is occupied, by an entry whose probe
    distance is at least the distance the probe has covered so far.  A
    probe for the key therefore reaches [t] before it meets an empty slot
    or an entry closer to its home. *)
Theorem reachable_probe_path m key p :
  reachable m → key_at m p key →
  ∃ t, 0 ≤ t < bucket_count m ∧ buckets m !! Z.to_nat t = Some p ∧
    ∀ b, 0 ≤ b < bucket_count m →
      probe_dist b (bucket_mask m) (Z.land (fm_hash key (key_size m)) (bucket_mask m))
        ≤ probe_dist t (bucket_mask m) (Z.land (fm_hash key (key_size m)) (bucket_mask m)) →
      ∃ q h, buckets m !! Z.to_nat b = Some q ∧ q ≠ FM_EMPTY_IDX ∧
        hash_at (hashes m) q = Some h ∧
        probe_dist b (bucket_mask m) (Z.land (fm_hash key (key_size m)) (bucket_mask m))
          ≤ probe_dist b (bucket_mask m) (Z.land h (bucket_mask m)).
Proof.
  intros Hm Hk. pose proof (reachable_wf m Hm) as Hwf.
  pose proof (wf_bc_bounds m Hwf) as Hsz.
  destruct (probe_start m key p Hwf Hk) as (t & Ht & Htp & Hd).
  pose proof (hash_slot_range m key Hwf) as Hhome.
  exists t. split; [done|]. split; [done|]. intros b Hb Hle.
  simpl in Hd. rewrite (wf_mask _ Hwf) in *.
  rewrite !probe_dist_slot in Hle by (try done; apply Hwf).
  destruct (probe_path_slot m Hwf key p t b
              (slot_dist (bucket_count m) b
                 (Z.land (fm_hash key (key_size m)) (bucket_count m - 1))) Hk Ht Htp Hb)
    as (q & kc & h & Hq & Hne & _ & Hh & Hdist & _).
  - revert Hle Hd. generalize (dist_at (bucket_count m) (hashes m) (buckets m) t).
    intros d. slots.
  - slots.
  - exists q, h. split_and!; try done.
    rewrite (wf_mask _ Hwf) in Hdist.
    rewrite (probe_dist_slot _ b (Z.land (fm_hash key (key_size m)) (bucket_count m - 1)))
      by (try done; apply Hwf).
    done.
Qed.

Lemma reachable_probe_path_witness :
  reachable scenario_a ∧ key_at scenario_a 1 (int_bytes 20) ∧
  ∃ t, 0 ≤ t < bucket_count scenario_a ∧ buckets scenario_a !! Z.to_nat t = Some 1 ∧
    ∀ b, 0 ≤ b < bucket_count scenario_a →
      probe_dist b (bucket_mask scenario_a)
          (Z.land (fm_hash (int_bytes 20) (key_size scenario_a)) (bucket_mask scenario_a))
        ≤ probe_dist t (bucket_mask scenario_a)
            (Z.land (fm_hash (int_bytes 20) (key_size scenario_a)) (bucket_mask scenario_a)) →
      ∃ q h, buckets scenario_a !! Z.to_nat b = Some q ∧ q ≠ FM_EMPTY_IDX ∧
        hash_at (hashes scenario_a) q = Some h ∧
        probe_dist b (bucket_mask scenario_a)
            (Z.land (fm_hash (int_bytes 20) (key_size scenario_a)) (bucket_mask scenario_a))
          ≤ probe_dist b (bucket_mask scenario_a) (Z.land h (bucket_mask scenario_a)).
Proof.
  split; [exact scenario_a_reachable|].
  split; [exact scenario_a_key_20|].
  apply (reachable_probe_path scenario_a (int_bytes 20) 1).
  - exact scenario_a_reachable.
  - exact scenario_a_key_20.
Defined.

(** * The dense vectors *)

(** Pushes in a row. *)
Fixpoint push_all (vec : fm_vector) (items : list (list byte)) : option fm_vector :=
  match items with
  | [] => Some vec
  | item :: rest => vec' ← fm_vec_push vec item; push_all vec' rest
  end.

(** X18. [fm_vec_push] appends.  On a vector whose data has [capacity]
    cells of [stride] bytes and whose length is within the capacity and
    below [2 ^ 32], it stores the [stride] bytes of the item in the cell
    after the last one, adds one to the length and keeps every earlier
    cell.  The capacity is unchanged when there was room; when the vector
    was full it becomes 8 for a capacity of 0 and twice the capacity
    otherwise.  The vector it returns is again of that form, with a
    capacity that covers the new length. *)
Theorem fm_vec_push_appends v s item :
  stride v = s →
  List.length (data v) = Z.to_nat (capacity v) →
  0 ≤ length v ≤ capacity v →
  (∀ i c, data v !! i = Some c → List.length c = Z.to_nat s) →
  length v < 2 ^ 32 →
  ∃ v', fm_vec_push v item = Some v' ∧
    length v' = length v + 1 ∧
    fm_vec_at v' (length v) = Some (read_bytes item s) ∧
    (∀ j, 0 ≤ j < length v → fm_vec_at v' j = fm_vec_at v j) ∧
    capacity v' = (if capacity v <=? length v
                   then (if capacity v =? 0 then 8 else 2 * capacity v)
                   else capacity v) ∧
    length v' ≤ capacity v' ∧ stride v' = s ∧
    List.length (data v') = Z.to_nat (capacity v') ∧
    (∀ i c, data v' !! i = Some c → List.length c = Z.to_nat s).
Proof.
  intros Hs Hd Hl Hcells Hlen. change (2 ^ 32) with 4294967296 in Hlen.
  unfold fm_vec_push.
  set (v1 := if capacity v <=? length v then fm_vec_grow v else v).
  assert (stride v1 = s ∧ length v1 = length v ∧ length v < capacity v1 ∧
          List.length (data v1) = Z.to_nat (capacity v1) ∧
          (∀ i c, data v1 !! i = Some c → List.length c = Z.to_nat s) ∧
          (∀ j, 0 ≤ j < length v → fm_vec_at v1 j = fm_vec_at v j) ∧
          capacity v1 = (if capacity v <=? length v
                         then (if capacity v =? 0 then 8 else 2 * capacity v)
                         else capacity v))
    as (Hs1 & Hl1 & Hc1 & Hd1 & Hcells1 & Hsame & Hcap).
  { unfold v1. destruct (Z.leb_spec (capacity v) (length v)) as [Hfull|Hroom].
    - assert ((if capacity v =? 0 then 8 else wrap64 (capacity v * 2)) =
              (if capacity v =? 0 then 8 else 2 * capacity v)) as Hnew.
      { destruct (Z.eqb_spec (capacity v) 0); [done|]. unfold wrap64.
        rewrite Z.mod_small; [lia|]. change (2 ^ 64) with 18446744073709551616. lia. }
      unfold fm_vec_grow, fm_vec_at. cbn [stride length capacity data]. rewrite Hnew.
      assert (length v < (if capacity v =? 0 then 8 else 2 * capacity v)) as Hlt.
      { destruct (Z.eqb_spec (capacity v) 0); lia. }
      split_and!; try done.
      + rewrite length_take, length_app, length_replicate. lia.
      + intros i c [Hc _]%lookup_take_Some.
        apply lookup_app_Some in Hc as [Hc|[_ Hc]]; [by eapply Hcells|].
        apply lookup_replicate in Hc as [-> _]. unfold zero_cell.
        by rewrite length_replicate, Hs.
      + intros j Hj. rewrite lookup_take_lt by lia. apply lookup_app_l. lia.
    - split_and!; first [done|lia]. }
  rewrite Hl1, Hs1.
  destruct (lookup_lt_is_Some_2 (data v1) (Z.to_nat (length v))) as [c Hc]; [lia|].
  unfold fm_vec_write, fm_vec_at. rewrite Hc. simpl.
  eexists. split; [reflexivity|].
  unfold fm_vec_at in *. cbn [set_length length capacity stride data].
  unfold wrap64. rewrite Z.mod_small by (change (2 ^ 64) with 18446744073709551616; lia).
  rewrite memcpy_cell by (by eapply Hcells1).
  split; [by rewrite Hl1|].
  split; [apply list_lookup_insert_eq; lia|].
  split; [intros j Hj; rewrite list_lookup_insert_ne by lia; by apply Hsame|].
  split; [done|]. split; [lia|]. split; [done|].
  split; [by rewrite length_insert|].
  intros i c' [(_ & <- & _)|[_ Hi]]%list_lookup_insert_Some;
    [apply length_read_bytes|by eapply Hcells1].
Qed.

(** A full vector: eight [int] elements in the initial capacity of 8. *)
Definition full_vector : fm_vector :=
  default (fm_vec_init 4 8) (push_all (fm_vec_init 4 8) (int_bytes <$> seqZ 0 8)).

Lemma full_vector_cells i c :
  data full_vector !! i = Some c → List.length c = Z.to_nat 4.
Proof.
  assert (Forall (λ c, List.length c = Z.to_nat 4) (data full_vector)) as HF.
  { apply (bool_decide_unpack _). vm_compute. exact I. }
  intros Hi. exact (Forall_lookup_1 _ _ _ _ HF Hi).
Qed.

Lemma fm_vec_push_appends_witness :
  stride full_vector = 4 ∧
  List.length (data full_vector) = Z.to_nat (capacity full_vector) ∧
  0 ≤ length full_vector ≤ capacity full_vector ∧
  (∀ i c, data full_vector !! i = Some c → List.length c = Z.to_nat 4) ∧
  length full_vector < 2 ^ 32 ∧
  length full_vector = 8 ∧ capacity full_vector = 8 ∧
  ∃ v', fm_vec_push full_vector (int_bytes 8) = Some v' ∧
    length v' = length full_vector + 1 ∧
    fm_vec_at v' (length full_vector) = Some (read_bytes (int_bytes 8) 4) ∧
    (∀ j, 0 ≤ j < length full_vector → fm_vec_at v' j = fm_vec_at full_vector j) ∧
    capacity v' = (if capacity full_vector <=? length full_vector
                   then (if capacity full_vector =? 0 then 8 else 2 * capacity full_vector)
                   else capacity full_vector) ∧
    length v' ≤ capacity v' ∧ stride v' = 4 ∧
    List.length (data v') = Z.to_nat (capacity v') ∧
    (∀ i c, data v' !! i = Some c → List.length c = Z.to_nat 4).
Proof.
  split; [reflexivity|]. split; [vm_compute; reflexivity|].
  split; [vm_compute; split; discriminate|]. split; [exact full_vector_cells|].
  split; [vm_compute; reflexivity|]. split; [vm_compute; reflexivity|].
  split; [vm_compute; reflexivity|].
  apply (fm_vec_push_appends full_vector 4 (int_bytes 8)).
  - reflexivity.
  - vm_compute; reflexivity.
  - vm_compute; split; discriminate.
  - exact full_vector_cells.
  - vm_compute; reflexivity.
Defined.

Lemma push_all_spec v s items :
  vec_wf v s → length v + Z.of_nat (List.length items) ≤ 2 ^ 32 →
  ∃ v', push_all v items = Some v' ∧ vec_wf v' s ∧
    length v' = length v + Z.of_nat (List.length items) ∧
    take (Z.to_nat (length v')) (data v') =
      take (Z.to_nat (length v)) (data v) ++ ((λ item, read_bytes item s) <$> items).
Proof.
  revert v. induction items as [|item items IH]; intros v Hv Hlen.
  - exists v. simpl. split_and!; try done; [lia|by rewrite app_nil_r].
  - simpl in Hlen. pose proof (vec_len _ _ Hv) as Hl.
    destruct (fm_vec_push_spec v s item Hv) as (v1 & Hpush & Hv1 & Hl1 & Hat & Hold); [lia|].
    destruct (IH v1 Hv1) as (v' & Hall & Hv' & Hl' & Hdata); [lia|].
    exists v'. cbn [push_all]. rewrite Hpush. simpl. split_and!; try done.
    + rewrite Hl', Hl1. simpl. lia.
    + rewrite Hdata, Hl1. simpl. rewrite cons_middle, app_assoc. f_equal.
      replace (Z.to_nat (length v + 1)) with (S (Z.to_nat (length v))) by lia.
      unfold fm_vec_at in Hat.
      rewrite (take_S_r _ _ _ Hat). f_equal.
      apply list_eq. intros i.
      destruct (decide (i < Z.to_nat (length v))%nat) as [Hi|Hi].
      * rewrite !lookup_take_lt by done.
        specialize (Hold (Z.of_nat i) ltac:(lia)). unfold fm_vec_at in Hold.
        by rewrite Nat2Z.id in Hold.
      * rewrite !lookup_take_ge by lia. done.
Qed.

(** X19. Pushing a list of fewer than [2 ^ 32] items on a vector as
    [fm_vec_init] leaves it, with the initial capacity 8 of the map: all
    the pushes return, the length is the number of items and the cells
    below it hold the [stride] bytes of the items, in order, whatever
    number of reallocations took place. *)
Theorem fm_vec_push_all s items :
  Z.of_nat (List.length items) ≤ 2 ^ 32 →
  ∃ v, push_all (fm_vec_init s 8) items = Some v ∧
    length v = Z.of_nat (List.length items) ∧
    take (List.length items) (data v) = (λ item, read_bytes item s) <$> items ∧
    length v ≤ capacity v.
Proof.
  intros Hlen.
  destruct (push_all_spec (fm_vec_init s 8) s items (fm_vec_init_wf s))
    as (v & Hall & Hv & Hl & Hdata); [simpl; lia|].
  assert (length v = Z.of_nat (List.length items)) as Hl' by (rewrite Hl; simpl; lia).
  exists v. split_and!; try done.
  - rewrite Hl', Nat2Z.id in Hdata. by rewrite Hdata.
  - apply (vec_len _ _ Hv).
Qed.

Lemma fm_vec_push_all_witness :
  Z.of_nat (List.length [int_bytes 1; int_bytes 2; int_bytes 3]) ≤ 2 ^ 32 ∧
  ∃ v, push_all (fm_vec_init 4 8) [int_bytes 1; int_bytes 2; int_bytes 3] = Some v ∧
    length v = Z.of_nat (List.length [int_bytes 1; int_bytes 2; int_bytes 3]) ∧
    take (List.length [int_bytes 1; int_bytes 2; int_bytes 3]) (data v) =
      (λ item, read_bytes item 4) <$> [int_bytes 1; int_bytes 2; int_bytes 3] ∧
    length v ≤ capacity v.
Proof.
  split; [simpl; lia|].
  apply (fm_vec_push_all 4 [int_bytes 1; int_bytes 2; int_bytes 3]). simpl; lia.
Defined.

(** * Growth and placement *)

(** X20. When a put grows the table: below [2 ^ 24] entries the table is
    rebuilt at twice the number of buckets exactly when, on entry, the
    length is at least [bucket_count × 0.80f], with the binary32 constant
    13421773 / 2^24 and no rounding; the number of buckets is unchanged
    otherwise.  A put never more than doubles the table. *)
Theorem fm_put_growth m key value fuel :
  reachable m → bucket_count m ≤ 2 ^ 31 → 2 * bucket_count m ≤ Z.of_nat fuel →
  length (keys m) < 2 ^ 24 →
  ∃ m', fm_put fuel m key value = Some m' ∧
    bucket_count m' =
      (if decide (13421773 * bucket_count m ≤ length (keys m) * 2 ^ 24)
       then 2 * bucket_count m else bucket_count m).
Proof.
  intros Hm Hbc Hfuel Hlen. pose proof (reachable_wf m Hm) as Hwf.
  destruct (fm_put_entries m key value fuel Hwf Hbc Hfuel)
    as (m' & Hput & _ & _ & _ & _ & Hbc').
  exists m'. split; [done|]. rewrite Hbc'.
  pose proof (load_exceeded_exact m Hwf Hlen) as Hex.
  destruct (load_exceeded m); case_decide as Hd; try done.
  - exfalso. apply Hd. by apply Hex.
  - apply Hex in Hd. done.
Qed.

Lemma fm_put_growth_witness :
  reachable full_16 ∧ bucket_count full_16 ≤ 2 ^ 31 ∧
  2 * bucket_count full_16 ≤ Z.of_nat 64 ∧ length (keys full_16) < 2 ^ 24 ∧
  ∃ m', fm_put 64 full_16 (int_bytes 13) (int_bytes 130) = Some m' ∧
    bucket_count m' =
      (if decide (13421773 * bucket_count full_16 ≤ length (keys full_16) * 2 ^ 24)
       then 2 * bucket_count full_16 else bucket_count full_16).
Proof.
  split; [exact full_16_reachable|].
  split; [vm_compute; discriminate|].
  split; [vm_compute; discriminate|].
  split; [vm_compute; reflexivity|].
  apply (fm_put_growth full_16 (int_bytes 13) (int_bytes 130) 64).
  - exact full_16_reachable.
  - vm_compute; discriminate.
  - vm_compute; discriminate.
  - vm_compute; reflexivity.
Defined.

(** X21. [fm_place_index] on a bucket array in Robin Hood order that has an
    empty slot: it returns within [bucket_count] iterations, the array it
    returns references the new dense position besides exactly the
    positions referenced before (each as often as before), and it is again
    in Robin Hood order.  The positions it displaces on the way are put
    back further on. *)
Theorem fm_place_index_inserts bc H B hash idx fuel :
  table_size bc → List.length B = Z.to_nat bc →
  robin_hood bc H B →
  (∀ p, p ∈ occupied B → is_Some (hash_at H p)) →
  idx ≠ FM_EMPTY_IDX → hash_at H idx = Some hash →
  FM_EMPTY_IDX ∈ B → bc ≤ Z.of_nat fuel →
  ∃ B', fm_place_index fuel B (bc - 1) hash idx H = Some B' ∧
    List.length B' = Z.to_nat bc ∧
    robin_hood bc H B' ∧
    occupied B' ≡ₚ idx :: occupied B.
Proof.
  intros Hbc Hlen Hrh Hocc Hidx Hhash Hemp Hfuel.
  pose proof (table_size_bounds _ Hbc) as Hsz.
  apply list_elem_of_lookup in Hemp as [e He].
  pose proof (lookup_lt_Some _ _ _ He) as Hel.
  pose proof (land_mask_range bc hash Hbc) as Hhome.
  unfold fm_place_index.
  destruct (fm_place_index_loop_spec bc Hbc H (idx :: occupied B) fuel B
              (Z.land hash (bc - 1)) idx 0 (Z.of_nat e)) as (B' & HB' & Hlen' & Hrh' & Hperm);
    try done.
  - intros p [->|Hp]%elem_of_cons.
    + split; [done|]. by rewrite Hhash.
    + split; [|by apply Hocc]. by apply elem_of_occupied in Hp as [? _].
  - lia.
  - by rewrite Nat2Z.id.
  - unfold ideal_slot. rewrite Hhash. simpl. slots.
  - pose proof (dist_at_lower bc Hbc H B (pred_slot bc (Z.land hash (bc - 1)))
                  ltac:(slots)). lia.
  - slots.
  - by exists B'.
Qed.

(** A table of 16 buckets with a run of three entries: the dense positions
    0 and 1 have the home slot 3 and sit in the slots 3 and 4, position 2
    has the home slot 4 and sits in slot 5.  Position 3, to be placed, has
    the home slot 3 as well. *)
Definition place_example_hashes : fm_vector :=
  {| data := le_bytes 8 <$> [3; 3; 4; 3]; length := 4; capacity := 4; stride := 8 |}.

Definition place_example_buckets : list Z :=
  <[5%nat := 2]> (<[4%nat := 1]> (<[3%nat := 0]> (replicate 16 FM_EMPTY_IDX))).

Lemma place_example_robin_hood :
  robin_hood 16 place_example_hashes place_example_buckets.
Proof.
  intros b Hb.
  assert (b = 0 ∨ b = 1 ∨ b = 2 ∨ b = 3 ∨ b = 4 ∨ b = 5 ∨ b = 6 ∨ b = 7 ∨ b = 8 ∨
          b = 9 ∨ b = 10 ∨ b = 11 ∨ b = 12 ∨ b = 13 ∨ b = 14 ∨ b = 15) as Hc by lia.
  clear Hb.
  repeat (destruct Hc as [->|Hc]; [vm_compute; discriminate|]).
  subst b. vm_compute. discriminate.
Qed.

Lemma place_example_occupied p :
  p ∈ occupied place_example_buckets → is_Some (hash_at place_example_hashes p).
Proof.
  change (occupied place_example_buckets) with [0; 1; 2].
  intros Hp. repeat (apply elem_of_cons in Hp as [->|Hp]; [by eexists|]).
  by apply elem_of_nil in Hp.
Qed.

(** The placement of position 3 walks over the slots 3 and 4, takes slot 5
    from position 2, which is closer to its home, and puts that one back in
    slot 6. *)
Lemma fm_place_index_inserts_witness :
  table_size 16 ∧ List.length place_example_buckets = Z.to_nat 16 ∧
  robin_hood 16 place_example_hashes place_example_buckets ∧
  (∀ p, p ∈ occupied place_example_buckets →
        is_Some (hash_at place_example_hashes p)) ∧
  3 ≠ FM_EMPTY_IDX ∧
  hash_at place_example_hashes 3 = Some 3 ∧
  FM_EMPTY_IDX ∈ place_example_buckets ∧ 16 ≤ Z.of_nat 16 ∧
  (∃ B', fm_place_index 16 place_example_buckets (16 - 1) 3 3 place_example_hashes
           = Some B' ∧
     List.length B' = Z.to_nat 16 ∧
     robin_hood 16 place_example_hashes B' ∧
     occupied B' ≡ₚ 3 :: occupied place_example_buckets) ∧
  fm_place_index 16 place_example_buckets (16 - 1) 3 3 place_example_hashes =
    Some (<[6%nat := 2]> (<[5%nat := 3]> place_example_buckets)).
Proof.
  assert (table_size 16) as Hts by (exists 4; split; [lia|reflexivity]).
  assert (FM_EMPTY_IDX ∈ place_example_buckets) as Hemp.
  { apply (list_elem_of_lookup_2 _ 0%nat). reflexivity. }
  split; [exact Hts|]. split; [reflexivity|]. split; [exact place_example_robin_hood|].
  split; [exact place_example_occupied|]. split; [discriminate|].
  split; [vm_compute; reflexivity|]. split; [exact Hemp|]. split; [lia|].
  split; [|vm_compute; reflexivity].
  apply (fm_place_index_inserts 16 place_example_hashes place_example_buckets 3 3 16);
    [exact Hts|reflexivity|exact place_example_robin_hood|exact place_example_occupied
    |discriminate|vm_compute; reflexivity|exact Hemp|lia].
Defined.

(** X22. [fm_update_bucket_for_moved_item] on a table in which exactly one
    bucket references the old dense position: from the home slot of the
    digest stored at the new position, it finds that bucket within
    [bucket_count] iterations, makes it reference the new position and
    changes no other bucket and nothing else in the map. *)
Theorem fm_update_bucket_redirects m (t : nat) old new hash fuel :
  table_size (bucket_count m) → bucket_mask m = bucket_count m - 1 →
  List.length (buckets m) = Z.to_nat (bucket_count m) →
  buckets m !! t = Some old →
  (∀ i j : nat, buckets m !! i = Some old → buckets m !! j = Some old → i = j) →
  hash_at (hashes m) new = Some hash →
  bucket_count m ≤ Z.of_nat fuel →
  fm_update_bucket_for_moved_item fuel m old new =
    Some (set_buckets m (<[t := new]> (buckets m)) (bucket_count m) (bucket_mask m)).
Proof.
  intros Hbc Hmask Hlen Ht Huniq Hhash Hfuel.
  pose proof (table_size_bounds _ Hbc) as Hsz.
  pose proof (lookup_lt_Some _ _ _ Ht) as Htl.
  pose proof (land_mask_range (bucket_count m) hash Hbc) as Hhome.
  unfold fm_update_bucket_for_moved_item. rewrite Hhash. simpl.
  rewrite Hmask.
  rewrite (fm_update_bucket_loop_spec (bucket_count m) fuel (buckets m) (Z.of_nat t)).
  - simpl. by rewrite Nat2Z.id.
  - done.
  - done.
  - lia.
  - by rewrite Nat2Z.id.
  - done.
  - done.
  - slots.
Qed.

(** A table of 16 buckets in which slot 3 references dense position 5. *)
Definition moved_example : _FastMap :=
  set_buckets (fm_init 4 4) (<[3%nat := 5]> (replicate 16 FM_EMPTY_IDX)) 16 15.

Lemma fm_update_bucket_redirects_witness :
  table_size (bucket_count moved_example) ∧
  bucket_mask moved_example = bucket_count moved_example - 1 ∧
  List.length (buckets moved_example) = Z.to_nat (bucket_count moved_example) ∧
  buckets moved_example !! 3%nat = Some 5 ∧
  (∀ i j : nat, buckets moved_example !! i = Some 5 →
                buckets moved_example !! j = Some 5 → i = j) ∧
  hash_at (hashes moved_example) 0 = Some 0 ∧
  bucket_count moved_example ≤ Z.of_nat 16 ∧
  fm_update_bucket_for_moved_item 16 moved_example 5 0 =
    Some (set_buckets moved_example (<[3%nat := 0]> (buckets moved_example))
            (bucket_count moved_example) (bucket_mask moved_example)).
Proof.
  assert (table_size (bucket_count moved_example)) as Hts.
  { exists 4. split; [lia|reflexivity]. }
  assert (∀ i j : nat, buckets moved_example !! i = Some 5 →
                       buckets moved_example !! j = Some 5 → i = j) as Huniq.
  { intros i j Hi Hj. cbn [moved_example buckets set_buckets] in Hi, Hj.
    apply list_lookup_insert_Some in Hi as [(<- & _)|(_ & [? _]%lookup_replicate)];
      [|discriminate].
    apply list_lookup_insert_Some in Hj as [(<- & _)|(_ & [? _]%lookup_replicate)];
      [done|discriminate]. }
  split; [exact Hts|]. split; [reflexivity|]. split; [reflexivity|].
  split; [reflexivity|]. split; [exact Huniq|]. split; [reflexivity|].
  split; [simpl; lia|].
  apply (fm_update_bucket_redirects moved_example 3 5 0 0 16);
    [exact Hts|reflexivity|reflexivity|reflexivity|exact Huniq|reflexivity|simpl; lia].
Defined.

(** * The test client *)

Lemma load64_int_bytes x : 0 ≤ x < 2 ^ 32 → load64 (int_bytes x) = x.
Proof.
  intros Hx. unfold int_bytes, load64, byte_at, le_bytes. cbn [lookup list_lookup].
  rewrite !byte_val_of_Z. Z.div_mod_to_equations. lia.
Qed.

Lemma int_bytes_inj a b :
  0 ≤ a < 2 ^ 32 → 0 ≤ b < 2 ^ 32 → int_bytes a = int_bytes b → a = b.
Proof.
  intros Ha Hb Heq. rewrite <- (load64_int_bytes a), <- (load64_int_bytes b) by done.
  by rewrite Heq.
Qed.

(** The insert loop of [test_massive_resize]: [FM_PUT(&map, int, i, int, i)]
    for [i] from 0 to [count - 1]. *)
Definition massive_resize_puts (count : Z) : list operation :=
  (λ i, Put (int_bytes i) (int_bytes i)) <$> seqZ 0 count.

(** X23. The test [test_massive_resize] passes for every count below
    [2 ^ 24] (it is run with 100000): after the puts of the keys
    [0 .. count-1], each with itself as value, into a map of [int] to
    [int], the length is [count] and a lookup of every key [i] returns a
    pointer to the value [i]. *)
Theorem test_massive_resize_passes count :
  0 ≤ count < 2 ^ 24 →
  ∃ m, run (fm_init 4 4) (massive_resize_puts count) = Some m ∧
       length (keys m) = count ∧
       ∀ i, 0 ≤ i < count → get_int (iterations m) m i = Some (Some i).
Proof.
  intros Hc. change (2 ^ 24) with 16777216 in Hc.
  pose (kvs := (λ i, (int_bytes i, int_bytes i)) <$> seqZ 0 count).
  assert (massive_resize_puts count = (λ kv, Put kv.1 kv.2) <$> kvs) as Hops.
  { unfold massive_resize_puts, kvs. by rewrite <- list_fmap_compose. }
  assert (List.length kvs = Z.to_nat count) as Hlen.
  { unfold kvs. by rewrite length_fmap, length_seqZ. }
  assert (∀ i, List.length (int_bytes i) = Z.to_nat 4) as Hib.
  { intros i. unfold int_bytes. by rewrite length_le_bytes. }
  destruct (run_spec 4 4 (massive_resize_puts count) (fm_init 4 4) 0 (run_inv_init 4 4))
    as (m & Hrun & Hm & Hwf & Hks & Hvs & He).
  { rewrite Hops, length_fmap, Hlen. change (2 ^ 24) with 16777216. lia. }
  change (entries (fm_init 4 4)) with (@nil (list byte * list byte)) in He.
  rewrite Hops, foldl_put_distinct in He.
  2: { simpl. unfold kvs. rewrite <- list_fmap_compose.
       apply NoDup_fmap_2_strong; [|apply NoDup_seqZ].
       intros a b Ha%elem_of_seqZ Hb%elem_of_seqZ Heq. simpl in Heq.
       rewrite !read_bytes_exact in Heq by apply Hib.
       apply int_bytes_inj; [change (2 ^ 32) with 4294967296; lia..|done]. }
  simpl in He.
  pose proof (wf_len_bounds m Hwf) as Hl. pose proof (wf_bc_bounds m Hwf) as Hsz.
  exists m. split; [done|]. split.
  { pose proof (length_entries m Hwf) as Hle. rewrite He, length_fmap, Hlen in Hle. lia. }
  intros i Hi.
  assert (entries m !! Z.to_nat i = Some (int_bytes i, int_bytes i)) as Hei.
  { rewrite He. unfold kvs. rewrite <- list_fmap_compose, list_lookup_fmap.
    rewrite lookup_seqZ_lt by lia. simpl.
    rewrite !read_bytes_exact by apply Hib. do 3 f_equal; lia. }
  apply entries_lookup in Hei as (Hlt & Hk & Hv). rewrite Z2Nat.id in Hk, Hv by lia.
  unfold get_int.
  rewrite (fm_get_found m (int_bytes i) i (iterations m) Hwf).
  - simpl. unfold deref_value. rewrite Hv. simpl.
    rewrite load64_int_bytes; [done|change (2 ^ 32) with 4294967296; lia].
  - split; [lia|]. by rewrite Hks, read_bytes_exact by apply Hib.
  - unfold iterations. lia.
Qed.

Lemma test_massive_resize_passes_witness :
  0 ≤ 20 < 2 ^ 24 ∧
  ∃ m, run (fm_init 4 4) (massive_resize_puts 20) = Some m ∧
       length (keys m) = 20 ∧
       ∀ i, 0 ≤ i < 20 → get_int (iterations m) m i = Some (Some i).
Proof.
  split; [lia|]. apply (test_massive_resize_passes 20). lia.
Defined.

(** A store through the pointer [fm_get] returned: the bytes of the value
    cell [ptr] are overwritten. *)
Definition write_value (m : _FastMap) (ptr : Z) (bytes : list byte) : option _FastMap :=
  v ← fm_vec_write (values m) ptr bytes (val_size m);
  Some (set_dense m (keys m) v (hashes m)).

Lemma fm_get_loop_values fuel m v key b d :
  fm_get_loop fuel (set_dense m (keys m) v (hashes m)) key b d =
  fm_get_loop fuel m key b d.
Proof.
  revert b d. induction fuel as [|fuel IH]; intros b d; [done|].
  cbn [fm_get_loop set_dense buckets keys hashes bucket_mask key_size].
  destruct (buckets m !! Z.to_nat b) as [idx|]; [|done]. simpl.
  destruct (idx =? FM_EMPTY_IDX); [done|].
  destruct (fm_vec_at (keys m) idx) as [kc|]; [|done]. simpl.
  destruct (memcmp_eq kc key (key_size m)); [done|].
  destruct (hash_at (hashes m) idx) as [h|]; [|done]. simpl.
  destruct (_ <? _); [done|]. apply IH.
Qed.

(** X24. A value can be modified in place, as [test_struct_values] does:
    a store of [val_size] bytes through the pointer that [fm_get] returned
    for a key replaces the value of that entry and nothing else; every
    lookup returns the pointer it returned before the store, and the
    lookup of the key now reads the bytes stored. *)
Theorem write_through_pointer m key ptr bytes fuel :
  reachable m → fm_get fuel m key = Some (Some ptr) →
  ∃ m', write_value m ptr bytes = Some m' ∧
    entries m' = <[Z.to_nat ptr := (read_bytes key (key_size m),
                                    read_bytes bytes (val_size m))]> (entries m) ∧
    (∀ key', fm_get fuel m' key' = fm_get fuel m key') ∧
    deref_value m' ptr = Some (read_bytes bytes (val_size m)).
Proof.
  intros Hm Hget. pose proof (reachable_wf m Hm) as Hwf.
  apply (fm_get_sound m fuel key ptr Hwf) in Hget as [Hp Hk].
  pose proof (vec_len _ _ (wf_values _ Hwf)) as Hvl.
  pose proof (wf_values_len _ Hwf) as Hvk.
  destruct (fm_vec_write_spec (values m) (val_size m) ptr bytes (wf_values _ Hwf))
    as (v & Hw & Hv & Hl & Hc & Hat & Hoth); [lia|].
  unfold write_value. rewrite Hw. simpl. eexists. split; [done|]. split_and!.
  - apply list_eq_Some. intros i [k x].
    rewrite entries_lookup, list_lookup_insert_Some, entries_lookup.
    cbn [set_dense keys values]. rewrite (length_entries m Hwf).
    destruct (decide (Z.of_nat i = ptr)) as [<-|Hne].
    + rewrite Nat2Z.id, Hat, Hk. split.
      * intros (Hi & [= <-] & [= <-]). left. split_and!; [done|done|lia].
      * intros [(_ & [= <- <-] & Hi)|[Hi _]]; [|done]. split_and!; [lia|done|done].
    + rewrite (Hoth (Z.of_nat i)) by lia. split.
      * intros (Hi & Hkc' & Hvc). right. split; [lia|done].
      * intros [(Hi & _)|[_ Hr]]; [lia|done].
  - intros key'. unfold fm_get. cbn [set_dense key_size bucket_mask].
    apply fm_get_loop_values.
  - done.
Qed.

Lemma write_through_pointer_witness :
  reachable scenario_a ∧ fm_get 64 scenario_a (int_bytes 20) = Some (Some 1) ∧
  ∃ m', write_value scenario_a 1 (int_bytes 99) = Some m' ∧
    entries m' = <[Z.to_nat 1 := (read_bytes (int_bytes 20) (key_size scenario_a),
                                  read_bytes (int_bytes 99) (val_size scenario_a))]>
                   (entries scenario_a) ∧
    (∀ key', fm_get 64 m' key' = fm_get 64 scenario_a key') ∧
    deref_value m' 1 = Some (read_bytes (int_bytes 99) (val_size scenario_a)).
Proof.
  split; [exact scenario_a_reachable|].
  split; [vm_compute; reflexivity|].
  apply (write_through_pointer scenario_a (int_bytes 20) 1 (int_bytes 99) 64).
  - exact scenario_a_reachable.
  - vm_compute; reflexivity.
Defined.
